(** * Tower-defense simulation: a shallow embedding of [TowerDefenseGame.tsx]

    The repository holds two versions of the tower-defense page.  Module
    [TD1] embeds the page with armoured enemies, four maps and six tower
    types; module [TD2] embeds the earlier page with a single enemy kind,
    one fixed path and four tower types.

    Numbers.  Every quantity the program only ever adds, subtracts and
    compares as a whole number (gold, lives, wave, health, damage, armour,
    rewards, experience, millisecond timestamps) is a [Z].  Positions,
    speeds and ranges are binary64 floats as in JavaScript, since the
    movement step takes square roots and quotients.

    State.  The React state cells of the component are the fields of one
    record [World]; a state setter is a record update, a functional
    updater [setX (prev => ...)] reads the field of the world it is
    applied to, and the setters called from inside a [map] callback are
    threaded through the traversal from left to right ([mapS]).  Toasts,
    tips and the tutorial flag only drive the display and are left out. *)

From Stdlib Require Import String DecimalString DecimalZ Floats.
From Stdlib Require Import ZArith List Bool Lia.
Import ListNotations.

#[local] Set Warnings "-inexact-float".
#[local] Open Scope Z_scope.

(** ** JavaScript helpers *)

(** An integer as a number that takes part in float arithmetic. *)
Definition Z2f (z : Z) : float :=
  if z <? 0 then (- PrimFloat.of_uint63 (Uint63.of_Z (- z)))%float
  else PrimFloat.of_uint63 (Uint63.of_Z z).

(** [Math.floor], as an integer; [None] on NaN and the infinities. *)
Definition floorZ (f : float) : option Z :=
  match Prim2SF f with
  | SpecFloat.S754_zero _ => Some 0
  | SpecFloat.S754_finite sgn m e =>
      Some (Z.shiftl (if sgn then Z.neg m else Z.pos m) e)
  | SpecFloat.S754_infinity _ | SpecFloat.S754_nan => None
  end.

(** Template-literal rendering of a whole number, with all its digits:
    what JavaScript prints up to [Number.MAX_SAFE_INTEGER]. *)
Definition showZ (z : Z) : string := NilZero.string_of_int (Z.to_int z).

(** [Math.sqrt(dx * dx + dy * dy)] *)
Definition hypot (dx dy : float) : float :=
  PrimFloat.sqrt (dx * dx + dy * dy)%float.

(** Truthiness of [address] from [useAccount()]: [undefined] and the empty
    string are falsy. *)
Definition truthy (address : option string) : bool :=
  match address with
  | Some EmptyString | None => false
  | Some _ => true
  end.

(** [list.includes(key)] *)
Definition includes {K : Type} (eqb : K -> K -> bool) (l : list K) (k : K)
  : bool := existsb (eqb k) l.

Record Point : Set := { px : float; py : float }.

(** A [map] whose callback also calls state setters: the world is passed
    from one element to the next, in list order. *)
Section MapS.
Context {A W : Type} (f : A -> W -> A * W).

Fixpoint mapS (l : list A) (w : W) : list A * W :=
  match l with
  | [] => ([], w)
  | a :: l' =>
      let (a', w1) := f a w in
      let (r, w2) := mapS l' w1 in
      (a' :: r, w2)
  end.

End MapS.

Module TD1.

Inductive TowerType : Set :=
  archer | cannon | wizard | frost | barracks | tesla.

Inductive EnemyType : Set := goblin | orc | troll | dragon | necromancer.

Inductive MapKey : Set := greenlands | volcano | crystalCave | darkCastle.

Definition TowerType_eqb (a b : TowerType) : bool :=
  match a, b with
  | archer, archer | cannon, cannon | wizard, wizard
  | frost, frost | barracks, barracks | tesla, tesla => true
  | _, _ => false
  end.

Definition MapKey_eqb (a b : MapKey) : bool :=
  match a, b with
  | greenlands, greenlands | volcano, volcano
  | crystalCave, crystalCave | darkCastle, darkCastle => true
  | _, _ => false
  end.

Module Tower.
Record t : Set := {
  id : string;
  type : TowerType;
  x : float;
  y : float;
  level : Z;
  damage : Z;
  range : float;
  fireRate : Z;
  lastFired : Z
}.
End Tower.

Module Enemy.
Record t : Set := {
  id : string;
  type : EnemyType;
  x : float;
  y : float;
  health : Z;
  maxHealth : Z;
  speed : float;
  pathIndex : nat;
  reward : Z;
  armor : Z
}.
End Enemy.

(** An entry of [TOWER_TYPES] (icon, colour and description left out). *)
Record TowerData : Set := {
  name : string;
  cost : Z;
  damage : Z;
  range : float;
  fireRate : Z;
  unlocked : bool
}.

Definition TOWER_TYPES (k : TowerType) : TowerData :=
  match k with
  | archer => {| name := "Archer Tower"; cost := 50; damage := 15;
                 range := 120; fireRate := 800; unlocked := true |}
  | cannon => {| name := "Cannon Tower"; cost := 100; damage := 40;
                 range := 100; fireRate := 1500; unlocked := true |}
  | wizard => {| name := "Wizard Tower"; cost := 150; damage := 30;
                 range := 90; fireRate := 1200; unlocked := false |}
  | frost => {| name := "Frost Tower"; cost := 120; damage := 10;
                range := 100; fireRate := 600; unlocked := false |}
  | barracks => {| name := "Barracks"; cost := 80; damage := 20;
                   range := 60; fireRate := 1000; unlocked := false |}
  | tesla => {| name := "Tesla Tower"; cost := 200; damage := 60;
                range := 80; fireRate := 2000; unlocked := false |}
  end.

(** An entry of [MAPS] (description, gradient and tip left out). *)
Record MapData : Set := {
  mapName : string;
  mapUnlocked : bool;
  waves : Z;
  path : list Point
}.

Definition pt (a b : float) : Point := {| px := a; py := b |}.

Definition MAPS (k : MapKey) : MapData :=
  match k with
  | greenlands =>
      {| mapName := "Greenlands"; mapUnlocked := true; waves := 10;
         path := [pt 0 180; pt 120 180; pt 120 80; pt 280 80; pt 280 280;
                  pt 420 280; pt 420 180; pt 600 180] |}
  | volcano =>
      {| mapName := "Volcanic Forge"; mapUnlocked := false; waves := 15;
         path := [pt 0 100; pt 150 100; pt 150 250; pt 300 250; pt 300 150;
                  pt 450 150; pt 450 300; pt 600 300] |}
  | crystalCave =>
      {| mapName := "Crystal Caverns"; mapUnlocked := false; waves := 20;
         path := [pt 0 200; pt 100 200; pt 100 50; pt 250 50; pt 250 300;
                  pt 400 300; pt 400 100; pt 550 100; pt 550 200;
                  pt 600 200] |}
  | darkCastle =>
      {| mapName := "Dark Castle"; mapUnlocked := false; waves := 25;
         path := [pt 0 150; pt 80 150; pt 80 50; pt 200 50; pt 200 250;
                  pt 350 250; pt 350 100; pt 500 100; pt 500 300;
                  pt 600 300] |}
  end.

(** [Object.keys(MAPS)] *)
Definition mapKeys : list MapKey :=
  [greenlands; volcano; crystalCave; darkCastle].

(** Rows sent to the backend by [handleVictory] ([completed_at] left
    out). *)
Record GameSessionRow : Set := {
  wallet_address : string;
  game_type : string;
  difficulty : MapKey;
  status : string;
  xp_earned : Z;
  result : string;
  data_wave : Z;
  data_gold : Z;
  data_kills : Z
}.

Record TowerDefenseRow : Set := {
  td_wallet_address : string;
  current_wave : Z;
  current_map : MapKey;
  td_gold : Z;
  td_lives : Z;
  game_result : string
}.

Inductive DbInsert : Set :=
| game_sessions (row : GameSessionRow)
| tower_defense_games (row : TowerDefenseRow).

(** The state cells of the component, the number of pending
    [setTimeout] wave-advance callbacks and the inserts issued so far. *)
Record World : Set := {
  towers : list Tower.t;
  enemies : list Enemy.t;
  gold : Z;
  lives : Z;
  wave : Z;
  isPlaying : bool;
  gameOver : bool;
  victory : bool;
  selectedTower : option TowerType;
  currentMap : MapKey;
  xpEarned : Z;
  unlockedTowers : list TowerType;
  unlockedMaps : list MapKey;
  placementMode : bool;
  killCount : Z;
  totalKills : Z;
  timers : nat;
  saved : list DbInsert
}.

(** The values passed to [useState]. *)
Definition initial : World :=
  {| towers := []; enemies := []; gold := 250; lives := 20; wave := 0;
     isPlaying := false; gameOver := false; victory := false;
     selectedTower := Some archer; currentMap := greenlands; xpEarned := 0;
     unlockedTowers := [archer; cannon]; unlockedMaps := [greenlands];
     placementMode := false; killCount := 0; totalKills := 0;
     timers := 0; saved := [] |}.

Definition set_towers (v : list Tower.t) (s : World) : World :=
  {| towers := v; enemies := enemies s; gold := gold s; lives := lives s;
     wave := wave s; isPlaying := isPlaying s; gameOver := gameOver s;
     victory := victory s; selectedTower := selectedTower s;
     currentMap := currentMap s; xpEarned := xpEarned s;
     unlockedTowers := unlockedTowers s; unlockedMaps := unlockedMaps s;
     placementMode := placementMode s; killCount := killCount s;
     totalKills := totalKills s; timers := timers s; saved := saved s |}.

Definition set_enemies (v : list Enemy.t) (s : World) : World :=
  {| towers := towers s; enemies := v; gold := gold s; lives := lives s;
     wave := wave s; isPlaying := isPlaying s; gameOver := gameOver s;
     victory := victory s; selectedTower := selectedTower s;
     currentMap := currentMap s; xpEarned := xpEarned s;
     unlockedTowers := unlockedTowers s; unlockedMaps := unlockedMaps s;
     placementMode := placementMode s; killCount := killCount s;
     totalKills := totalKills s; timers := timers s; saved := saved s |}.

Definition set_gold (v : Z) (s : World) : World :=
  {| towers := towers s; enemies := enemies s; gold := v; lives := lives s;
     wave := wave s; isPlaying := isPlaying s; gameOver := gameOver s;
     victory := victory s; selectedTower := selectedTower s;
     currentMap := currentMap s; xpEarned := xpEarned s;
     unlockedTowers := unlockedTowers s; unlockedMaps := unlockedMaps s;
     placementMode := placementMode s; killCount := killCount s;
     totalKills := totalKills s; timers := timers s; saved := saved s |}.

Definition set_lives (v : Z) (s : World) : World :=
  {| towers := towers s; enemies := enemies s; gold := gold s; lives := v;
     wave := wave s; isPlaying := isPlaying s; gameOver := gameOver s;
     victory := victory s; selectedTower := selectedTower s;
     currentMap := currentMap s; xpEarned := xpEarned s;
     unlockedTowers := unlockedTowers s; unlockedMaps := unlockedMaps s;
     placementMode := placementMode s; killCount := killCount s;
     totalKills := totalKills s; timers := timers s; saved := saved s |}.

Definition set_wave (v : Z) (s : World) : World :=
  {| towers := towers s; enemies := enemies s; gold := gold s;
     lives := lives s; wave := v; isPlaying := isPlaying s;
     gameOver := gameOver s; victory := victory s;
     selectedTower := selectedTower s; currentMap := currentMap s;
     xpEarned := xpEarned s; unlockedTowers := unlockedTowers s;
     unlockedMaps := unlockedMaps s; placementMode := placementMode s;
     killCount := killCount s; totalKills := totalKills s;
     timers := timers s; saved := saved s |}.

Definition set_isPlaying (v : bool) (s : World) : World :=
  {| towers := towers s; enemies := enemies s; gold := gold s;
     lives := lives s; wave := wave s; isPlaying := v;
     gameOver := gameOver s; victory := victory s;
     selectedTower := selectedTower s; currentMap := currentMap s;
     xpEarned := xpEarned s; unlockedTowers := unlockedTowers s;
     unlockedMaps := unlockedMaps s; placementMode := placementMode s;
     killCount := killCount s; totalKills := totalKills s;
     timers := timers s; saved := saved s |}.

Definition set_gameOver (v : bool) (s : World) : World :=
  {| towers := towers s; enemies := enemies s; gold := gold s;
     lives := lives s; wave := wave s; isPlaying := isPlaying s;
     gameOver := v; victory := victory s; selectedTower := selectedTower s;
     currentMap := currentMap s; xpEarned := xpEarned s;
     unlockedTowers := unlockedTowers s; unlockedMaps := unlockedMaps s;
     placementMode := placementMode s; killCount := killCount s;
     totalKills := totalKills s; timers := timers s; saved := saved s |}.

Definition set_victory (v : bool) (s : World) : World :=
  {| towers := towers s; enemies := enemies s; gold := gold s;
     lives := lives s; wave := wave s; isPlaying := isPlaying s;
     gameOver := gameOver s; victory := v; selectedTower := selectedTower s;
     currentMap := currentMap s; xpEarned := xpEarned s;
     unlockedTowers := unlockedTowers s; unlockedMaps := unlockedMaps s;
     placementMode := placementMode s; killCount := killCount s;
     totalKills := totalKills s; timers := timers s; saved := saved s |}.

Definition set_selectedTower (v : option TowerType) (s : World) : World :=
  {| towers := towers s; enemies := enemies s; gold := gold s;
     lives := lives s; wave := wave s; isPlaying := isPlaying s;
     gameOver := gameOver s; victory := victory s; selectedTower := v;
     currentMap := currentMap s; xpEarned := xpEarned s;
     unlockedTowers := unlockedTowers s; unlockedMaps := unlockedMaps s;
     placementMode := placementMode s; killCount := killCount s;
     totalKills := totalKills s; timers := timers s; saved := saved s |}.

Definition set_currentMap (v : MapKey) (s : World) : World :=
  {| towers := towers s; enemies := enemies s; gold := gold s;
     lives := lives s; wave := wave s; isPlaying := isPlaying s;
     gameOver := gameOver s; victory := victory s;
     selectedTower := selectedTower s; currentMap := v;
     xpEarned := xpEarned s; unlockedTowers := unlockedTowers s;
     unlockedMaps := unlockedMaps s; placementMode := placementMode s;
     killCount := killCount s; totalKills := totalKills s;
     timers := timers s; saved := saved s |}.

Definition set_xpEarned (v : Z) (s : World) : World :=
  {| towers := towers s; enemies := enemies s; gold := gold s;
     lives := lives s; wave := wave s; isPlaying := isPlaying s;
     gameOver := gameOver s; victory := victory s;
     selectedTower := selectedTower s; currentMap := currentMap s;
     xpEarned := v; unlockedTowers := unlockedTowers s;
     unlockedMaps := unlockedMaps s; placementMode := placementMode s;
     killCount := killCount s; totalKills := totalKills s;
     timers := timers s; saved := saved s |}.

Definition set_unlockedTowers (v : list TowerType) (s : World) : World :=
  {| towers := towers s; enemies := enemies s; gold := gold s;
     lives := lives s; wave := wave s; isPlaying := isPlaying s;
     gameOver := gameOver s; victory := victory s;
     selectedTower := selectedTower s; currentMap := currentMap s;
     xpEarned := xpEarned s; unlockedTowers := v;
     unlockedMaps := unlockedMaps s; placementMode := placementMode s;
     killCount := killCount s; totalKills := totalKills s;
     timers := timers s; saved := saved s |}.

Definition set_unlockedMaps (v : list MapKey) (s : World) : World :=
  {| towers := towers s; enemies := enemies s; gold := gold s;
     lives := lives s; wave := wave s; isPlaying := isPlaying s;
     gameOver := gameOver s; victory := victory s;
     selectedTower := selectedTower s; currentMap := currentMap s;
     xpEarned := xpEarned s; unlockedTowers := unlockedTowers s;
     unlockedMaps := v; placementMode := placementMode s;
     killCount := killCount s; totalKills := totalKills s;
     timers := timers s; saved := saved s |}.

Definition set_placementMode (v : bool) (s : World) : World :=
  {| towers := towers s; enemies := enemies s; gold := gold s;
     lives := lives s; wave := wave s; isPlaying := isPlaying s;
     gameOver := gameOver s; victory := victory s;
     selectedTower := selectedTower s; currentMap := currentMap s;
     xpEarned := xpEarned s; unlockedTowers := unlockedTowers s;
     unlockedMaps := unlockedMaps s; placementMode := v;
     killCount := killCount s; totalKills := totalKills s;
     timers := timers s; saved := saved s |}.

Definition set_killCount (v : Z) (s : World) : World :=
  {| towers := towers s; enemies := enemies s; gold := gold s;
     lives := lives s; wave := wave s; isPlaying := isPlaying s;
     gameOver := gameOver s; victory := victory s;
     selectedTower := selectedTower s; currentMap := currentMap s;
     xpEarned := xpEarned s; unlockedTowers := unlockedTowers s;
     unlockedMaps := unlockedMaps s; placementMode := placementMode s;
     killCount := v; totalKills := totalKills s; timers := timers s;
     saved := saved s |}.

Definition set_totalKills (v : Z) (s : World) : World :=
  {| towers := towers s; enemies := enemies s; gold := gold s;
     lives := lives s; wave := wave s; isPlaying := isPlaying s;
     gameOver := gameOver s; victory := victory s;
     selectedTower := selectedTower s; currentMap := currentMap s;
     xpEarned := xpEarned s; unlockedTowers := unlockedTowers s;
     unlockedMaps := unlockedMaps s; placementMode := placementMode s;
     killCount := killCount s; totalKills := v; timers := timers s;
     saved := saved s |}.

Definition set_timers (v : nat) (s : World) : World :=
  {| towers := towers s; enemies := enemies s; gold := gold s;
     lives := lives s; wave := wave s; isPlaying := isPlaying s;
     gameOver := gameOver s; victory := victory s;
     selectedTower := selectedTower s; currentMap := currentMap s;
     xpEarned := xpEarned s; unlockedTowers := unlockedTowers s;
     unlockedMaps := unlockedMaps s; placementMode := placementMode s;
     killCount := killCount s; totalKills := totalKills s; timers := v;
     saved := saved s |}.

Definition set_saved (v : list DbInsert) (s : World) : World :=
  {| towers := towers s; enemies := enemies s; gold := gold s;
     lives := lives s; wave := wave s; isPlaying := isPlaying s;
     gameOver := gameOver s; victory := victory s;
     selectedTower := selectedTower s; currentMap := currentMap s;
     xpEarned := xpEarned s; unlockedTowers := unlockedTowers s;
     unlockedMaps := unlockedMaps s; placementMode := placementMode s;
     killCount := killCount s; totalKills := totalKills s;
     timers := timers s; saved := v |}.

Definition currentMapData (s : World) : MapData := MAPS (currentMap s).
Definition currentPath (s : World) : list Point := path (currentMapData s).

(** ** The game loop *)

Definition with_pathIndex (v : nat) (e : Enemy.t) : Enemy.t :=
  {| Enemy.id := Enemy.id e; Enemy.type := Enemy.type e;
     Enemy.x := Enemy.x e; Enemy.y := Enemy.y e;
     Enemy.health := Enemy.health e; Enemy.maxHealth := Enemy.maxHealth e;
     Enemy.speed := Enemy.speed e; Enemy.pathIndex := v;
     Enemy.reward := Enemy.reward e; Enemy.armor := Enemy.armor e |}.

Definition with_health (v : Z) (e : Enemy.t) : Enemy.t :=
  {| Enemy.id := Enemy.id e; Enemy.type := Enemy.type e;
     Enemy.x := Enemy.x e; Enemy.y := Enemy.y e;
     Enemy.health := v; Enemy.maxHealth := Enemy.maxHealth e;
     Enemy.speed := Enemy.speed e; Enemy.pathIndex := Enemy.pathIndex e;
     Enemy.reward := Enemy.reward e; Enemy.armor := Enemy.armor e |}.

Definition with_xy (vx vy : float) (e : Enemy.t) : Enemy.t :=
  {| Enemy.id := Enemy.id e; Enemy.type := Enemy.type e;
     Enemy.x := vx; Enemy.y := vy;
     Enemy.health := Enemy.health e; Enemy.maxHealth := Enemy.maxHealth e;
     Enemy.speed := Enemy.speed e; Enemy.pathIndex := Enemy.pathIndex e;
     Enemy.reward := Enemy.reward e; Enemy.armor := Enemy.armor e |}.

Definition with_lastFired (v : Z) (t : Tower.t) : Tower.t :=
  {| Tower.id := Tower.id t; Tower.type := Tower.type t;
     Tower.x := Tower.x t; Tower.y := Tower.y t;
     Tower.level := Tower.level t; Tower.damage := Tower.damage t;
     Tower.range := Tower.range t; Tower.fireRate := Tower.fireRate t;
     Tower.lastFired := v |}.

(** The updater handed to [setLives] when an enemy reaches the end. *)
Definition loseLife (s : World) : World :=
  let newLives := lives s - 1 in
  let s := if newLives <=? 0 then set_isPlaying false (set_gameOver true s)
           else s in
  set_lives newLives s.

(** The callback of the first [prevEnemies.map]. *)
Definition moveEnemy (path : list Point) (enemy : Enemy.t) (s : World)
  : Enemy.t * World :=
  match nth_error path (Enemy.pathIndex enemy) with
  | None => (enemy, s)
  | Some targetPoint =>
      let dx := (px targetPoint - Enemy.x enemy)%float in
      let dy := (py targetPoint - Enemy.y enemy)%float in
      let distance := hypot dx dy in
      if (distance <? 5)%float then
        if (Enemy.pathIndex enemy <? length path - 1)%nat
        then (with_pathIndex (Enemy.pathIndex enemy + 1) enemy, s)
        else (with_health 0 enemy, loseLife s)
      else
        (with_xy (Enemy.x enemy + dx / distance * Enemy.speed enemy)%float
                 (Enemy.y enemy + dy / distance * Enemy.speed enemy)%float
                 enemy, s)
  end.

(** [e => e.health > 0] *)
Definition alive (e : Enemy.t) : bool := 0 <? Enemy.health e.

Definition moveEnemies (path : list Point) (s : World) : World :=
  let (moved, s') := mapS (moveEnemy path) (enemies s) s in
  set_enemies (filter alive moved) s'.

Definition inRange (tower : Tower.t) (enemy : Enemy.t) : bool :=
  let dx := (Enemy.x enemy - Tower.x tower)%float in
  let dy := (Enemy.y enemy - Tower.y tower)%float in
  (hypot dx dy <=? Tower.range tower)%float.

Definition effectiveDamage (tower : Tower.t) (e : Enemy.t) : Z :=
  Z.max (Tower.damage tower - Enemy.armor e) 5.

(** The four setters called when a hit brings health to zero or below. *)
Definition creditKill (e : Enemy.t) (s : World) : World :=
  set_totalKills (totalKills s + 1)
    (set_killCount (killCount s + 1)
       (set_xpEarned (xpEarned s + 5)
          (set_gold (gold s + Enemy.reward e) s))).

(** The callback of the inner [prevEnemies.map]. *)
Definition hit (tower : Tower.t) (target : Enemy.t) (e : Enemy.t)
  (s : World) : Enemy.t * World :=
  if String.eqb (Enemy.id e) (Enemy.id target) then
    let newHealth := Enemy.health e - effectiveDamage tower e in
    (with_health newHealth e,
     if newHealth <=? 0 then creditKill e s else s)
  else (e, s).

(** The updater handed to [setEnemies] by a tower that fires. *)
Definition attack (tower : Tower.t) (s : World) : World :=
  match filter (inRange tower) (enemies s) with
  | target :: _ =>
      let (struck, s') := mapS (hit tower target) (enemies s) s in
      set_enemies (filter alive struck) s'
  | [] => s
  end.

(** The callback of [prevTowers.map]. *)
Definition fire (now : Z) (tower : Tower.t) (s : World)
  : Tower.t * World :=
  if now - Tower.lastFired tower <? Tower.fireRate tower then (tower, s)
  else (with_lastFired now tower, attack tower s).

Definition fireTowers (now : Z) (s : World) : World :=
  let (fired, s') := mapS (fire now) (towers s) s in
  set_towers fired s'.

(** One run of [gameLoop], [now] being [Date.now()]. *)
Definition gameLoop (now : Z) (s : World) : World :=
  fireTowers now (moveEnemies (currentPath s) s).

(** The animation frame: the effect installs the loop only while
    [isPlaying && !gameOver], and cancels it otherwise. *)
Definition frame (now : Z) (s : World) : World :=
  if negb (isPlaying s) || gameOver s then s else gameLoop now s.

(** ** Spawning *)

Definition enemyTypes : list EnemyType :=
  [goblin; orc; troll; dragon; necromancer].

Record Stats : Set := {
  base_health : Z;
  base_speed : float;
  base_armor : Z;
  base_reward : Z
}.

Definition baseStats (type : EnemyType) : Stats :=
  match type with
  | goblin => {| base_health := 30; base_speed := 1.5; base_armor := 0;
                 base_reward := 10 |}
  | orc => {| base_health := 60; base_speed := 1; base_armor := 5;
              base_reward := 15 |}
  | troll => {| base_health := 100; base_speed := 0.7; base_armor := 10;
                base_reward := 25 |}
  | dragon => {| base_health := 150; base_speed := 1.2; base_armor := 15;
                 base_reward := 40 |}
  | necromancer => {| base_health := 80; base_speed := 0.8;
                      base_armor := 5; base_reward := 30 |}
  end.

(** [enemyTypes[Math.floor(r * (typeIndex + 1))]], [r] being the value of
    [Math.random()]; [None] where JavaScript yields [undefined]. *)
Definition pickType (wave : Z) (r : float) : option EnemyType :=
  let typeIndex := Z.min (wave / 3) (Z.of_nat (length enemyTypes) - 1) in
  match floorZ (r * Z2f (typeIndex + 1))%float with
  | Some k => if k <? 0 then None else nth_error enemyTypes (Z.to_nat k)
  | None => None
  end.

(** The body of the [for] loop of [spawnWave]; [None] where reading a
    property of [undefined] throws. *)
Definition newEnemy (wave : Z) (path : list Point) (r : float) (i : nat)
  : option Enemy.t :=
  match pickType wave r, path with
  | Some type, first :: _ =>
      let stats := baseStats type in
      Some {| Enemy.id := "enemy-" ++ showZ wave ++ "-" ++ showZ (Z.of_nat i);
              Enemy.type := type;
              Enemy.x := (px first - Z2f (Z.of_nat i * 50))%float;
              Enemy.y := py first;
              Enemy.health := base_health stats + wave * 10;
              Enemy.maxHealth := base_health stats + wave * 10;
              Enemy.speed := (base_speed stats + Z2f wave * 0.05)%float;
              Enemy.pathIndex := 0;
              Enemy.reward := base_reward stats + wave * 2;
              Enemy.armor := base_armor stats |}
  | _, _ => None
  end.

(** The loop [for (let i = 0; i < enemyCount; i++)], from index [i] with
    [n] iterations left; [rnd i] is the random number drawn in
    iteration [i]. *)
Fixpoint spawnLoop (wave : Z) (path : list Point) (rnd : nat -> float)
  (i n : nat) : option (list Enemy.t) :=
  match n with
  | O => Some []
  | S n' =>
      match newEnemy wave path (rnd i) i with
      | None => None
      | Some e =>
          match spawnLoop wave path rnd (S i) n' with
          | None => None
          | Some es => Some (e :: es)
          end
      end
  end.

Definition newEnemies (wave : Z) (path : list Point) (rnd : nat -> float)
  : option (list Enemy.t) :=
  let enemyCount := wave * 2 + 5 in
  spawnLoop wave path rnd 0 (Z.to_nat enemyCount).

Definition spawnWave (rnd : nat -> float) (s : World) : option World :=
  match newEnemies (wave s) (currentPath s) rnd with
  | Some es => Some (set_enemies (enemies s ++ es) s)
  | None => None
  end.

(** ** Handlers *)

(** [l.indexOf(k)] *)
Fixpoint indexOf {K : Type} (eqb : K -> K -> bool) (l : list K) (k : K)
  : Z :=
  match l with
  | [] => -1
  | a :: l' =>
      if eqb a k then 0
      else let i := indexOf eqb l' k in if i <? 0 then -1 else i + 1
  end.

(** The "Unlock next map" block of [handleVictory]. *)
Definition unlockNextMap (s : World) : World :=
  let currentIndex := indexOf MapKey_eqb mapKeys (currentMap s) in
  if currentIndex <? Z.of_nat (length mapKeys) - 1 then
    match nth_error mapKeys (Z.to_nat (currentIndex + 1)) with
    | Some nextMap =>
        if negb (includes MapKey_eqb (unlockedMaps s) nextMap)
        then set_unlockedMaps (unlockedMaps s ++ [nextMap]) s
        else s
    | None => s
    end
  else s.

(** The "Save to database" block of [handleVictory]: [session] tells
    whether the backend returned the inserted row. *)
Definition saveVictory (address : option string) (session : bool)
  (earnedXP : Z) (s : World) : list DbInsert :=
  match address with
  | Some a =>
      if truthy address then
        game_sessions
          {| wallet_address := a; game_type := "tower_defense";
             difficulty := currentMap s; status := "completed";
             xp_earned := earnedXP; result := "win"; data_wave := wave s;
             data_gold := gold s; data_kills := totalKills s |}
        :: (if session then
              [tower_defense_games
                 {| td_wallet_address := a; current_wave := wave s;
                    current_map := currentMap s; td_gold := gold s;
                    td_lives := lives s; game_result := "win" |}]
            else [])
      else []
  | None => []
  end.

Definition handleVictory (address : option string) (session : bool)
  (s : World) : World :=
  let earnedXP := xpEarned s + 150 + wave s * 15 in
  let s1 := set_victory true (set_gameOver true (set_isPlaying false s)) in
  let s2 := set_xpEarned earnedXP s1 in
  let s3 := unlockNextMap s2 in
  set_saved (saved s3 ++ saveVictory address session earnedXP s) s3.

(** [Math.sqrt(dx * dx + dy * dy) < minDistanceFromPath] for one point
    of the loop over [currentPath]. *)
Definition tooClose (x y : float) (point : Point) : bool :=
  let minDistanceFromPath := 30%float in
  let dx := (px point - x)%float in
  let dy := (py point - y)%float in
  (hypot dx dy <? minDistanceFromPath)%float.

Definition newTower (selected : TowerType) (x y : float) (now : Z)
  : Tower.t :=
  let towerData := TOWER_TYPES selected in
  {| Tower.id := "tower-" ++ showZ now; Tower.type := selected;
     Tower.x := x; Tower.y := y; Tower.level := 1;
     Tower.damage := damage towerData; Tower.range := range towerData;
     Tower.fireRate := fireRate towerData; Tower.lastFired := 0 |}.

(** [placeTower(x, y)], [now] being the [Date.now()] of the tower id. *)
Definition placeTower (x y : float) (now : Z) (s : World) : World :=
  match selectedTower s with
  | None => s
  | Some selected =>
      if negb (placementMode s) then s
      else
        let towerData := TOWER_TYPES selected in
        if gold s <? cost towerData then s
        else if existsb (tooClose x y) (currentPath s) then s
        else
          set_placementMode false
            (set_gold (gold s - cost towerData)
               (set_towers (towers s ++ [newTower selected x y now]) s))
  end.

Definition startGame (s : World) : World :=
  set_wave 1 (set_isPlaying true s).

Definition resetGame (s : World) : World :=
  set_totalKills 0
    (set_killCount 0
       (set_xpEarned 0
          (set_victory false
             (set_gameOver false
                (set_isPlaying false
                   (set_wave 0
                      (set_lives 20
                         (set_gold 250
                            (set_enemies [] (set_towers [] s)))))))))).

Definition unlockCost (towerType : TowerType) : Z :=
  cost (TOWER_TYPES towerType) * 3.

Definition unlockTower (towerType : TowerType) (s : World) : World :=
  let cost := unlockCost towerType in
  if cost <=? gold s then
    set_unlockedTowers (unlockedTowers s ++ [towerType])
      (set_gold (gold s - cost) s)
  else s.

(** ** Effects *)

(** The effect "Check wave completion". *)
Definition waveCompletion (address : option string) (session : bool)
  (s : World) : World :=
  if isPlaying s && (length (enemies s) =? 0)%nat && (0 <? wave s) then
    if waves (currentMapData s) <=? wave s
    then handleVictory address session s
    else set_timers (S (timers s)) s
  else s.

(** The callback queued by [setTimeout]: [setWave(prev => prev + 1)]. *)
Definition waveTimer (s : World) : World := set_wave (wave s + 1) s.

(** The effect "Spawn wave when wave number changes". *)
Definition spawnEffect (rnd : nat -> float) (s : World) : option World :=
  if (0 <? wave s) && isPlaying s then spawnWave rnd s else Some s.

(** ** Events

    What can happen to the mounted component: a click on a rendered
    control, an animation frame, a run of one of the two effects, a
    timeout that fires.  A control that is not rendered or is disabled
    cannot be clicked; its event leaves the world as it is.  React runs an
    effect after a render in which one of its dependencies changed; here
    an effect may run at any point, its body being guarded. *)
Inductive Event : Type :=
| ClickTowerCard (key : TowerType)
| ClickUnlock (key : TowerType)
| ClickBoard (x y : float) (now : Z)
| ClickStart
| ClickPause
| ClickResume
| ClickReset
| ClickMap (key : MapKey)
| Frame (now : Z)
| WaveCompletionEffect (address : option string) (session : bool)
| SpawnEffect (rnd : nat -> float)
| TimeoutFires.

Definition handle (ev : Event) (s : World) : option World :=
  match ev with
  | ClickTowerCard key =>
      Some (if includes TowerType_eqb (unlockedTowers s) key
            then set_placementMode true (set_selectedTower (Some key) s)
            else s)
  | ClickUnlock key =>
      Some (if includes TowerType_eqb (unlockedTowers s) key then s
            else unlockTower key s)
  | ClickBoard x y now =>
      Some (if placementMode s then placeTower x y now s else s)
  | ClickStart =>
      Some (if negb (isPlaying s) && negb (gameOver s) && (wave s =? 0)
            then startGame s else s)
  | ClickPause => Some (if isPlaying s then set_isPlaying false s else s)
  | ClickResume =>
      Some (if negb (isPlaying s) && (0 <? wave s) && negb (gameOver s)
            then set_isPlaying true s else s)
  | ClickReset => Some (resetGame s)
  | ClickMap key =>
      Some (if includes MapKey_eqb (unlockedMaps s) key
            then resetGame (set_currentMap key s) else s)
  | Frame now => Some (frame now s)
  | WaveCompletionEffect address session =>
      Some (waveCompletion address session s)
  | SpawnEffect rnd => spawnEffect rnd s
  | TimeoutFires =>
      match timers s with
      | O => Some s
      | S n => Some (waveTimer (set_timers n s))
      end
  end.

Fixpoint run (evs : list Event) (s : World) : option World :=
  match evs with
  | [] => Some s
  | ev :: evs' =>
      match handle ev s with
      | Some s' => run evs' s'
      | None => None
      end
  end.

Definition reachable (s : World) : Prop :=
  exists evs, run evs initial = Some s.

(** ** Notions used in the statements *)

(** What a hit of [tower] aimed at [target] makes of enemy [e]. *)
Definition struck (tower : Tower.t) (target e : Enemy.t) : Enemy.t :=
  if String.eqb (Enemy.id e) (Enemy.id target)
  then with_health
         (Enemy.health e
          - Z.max (Tower.damage tower - Enemy.armor e) 5) e
  else e.

(** The enemy is within the arrival distance of the last waypoint: this
    run of the movement pass takes it off the board and costs a life. *)
Definition completesPath (path : list Point) (e : Enemy.t) : bool :=
  match nth_error path (Enemy.pathIndex e) with
  | None => false
  | Some p =>
      (hypot (px p - Enemy.x e) (py p - Enemy.y e) <? 5)%float
      && negb (Enemy.pathIndex e <? length path - 1)%nat
  end.

Definition completions (s : World) : Z :=
  Z.of_nat (length (filter (completesPath (currentPath s)) (enemies s))).

(** The cells that only the handlers and the effects write. *)
Definition sameControls (s s' : World) : Prop :=
  wave s' = wave s /\ currentMap s' = currentMap s /\
  selectedTower s' = selectedTower s /\
  placementMode s' = placementMode s /\
  unlockedTowers s' = unlockedTowers s /\
  unlockedMaps s' = unlockedMaps s /\ victory s' = victory s /\
  timers s' = timers s /\ saved s' = saved s.

(** The cells that the movement pass writes besides [enemies]. *)
Definition sameOutcome (s s' : World) : Prop :=
  lives s' = lives s /\ gameOver s' = gameOver s /\
  isPlaying s' = isPlaying s.

(** Once a life lost in this pass has brought [lives] to zero or below,
    the session is over and stopped. *)
Definition defeatRaised (s0 s : World) : Prop :=
  lives s < lives s0 -> lives s <= 0 ->
  gameOver s = true /\ isPlaying s = false.

(** A run of animation frames. *)
Definition frames (nows : list Z) (s : World) : World :=
  fold_left (fun s now => frame now s) nows s.

(** Animation frames [n] in a row, 16 ms apart from [t0]. *)
Definition ticks (t0 : Z) (n : nat) : list Event :=
  map (fun i => Frame (t0 + 16 * Z.of_nat i)) (seq 0 n).

(** A random source that always draws one half. *)
Definition half (i : nat) : float := 0.5%float.

(** A session nobody defends.  The player starts the game; wave 1
    spawns; the first wave-advance timeout fires 120 frames later and
    wave 2 spawns; 125 frames later the player pauses and resumes, and
    the spawn effect, which depends on [isPlaying], spawns wave 2 a second
    time; [n] more frames follow. *)
Definition undefended (address : option string) (n : nat) : list Event :=
  [ClickStart; WaveCompletionEffect address true; SpawnEffect half]
  ++ ticks 1000 120
  ++ [TimeoutFires; WaveCompletionEffect address true; SpawnEffect half]
  ++ ticks 3000 125
  ++ [ClickPause; WaveCompletionEffect address true; SpawnEffect half;
      ClickResume; WaveCompletionEffect address true; SpawnEffect half]
  ++ ticks 9000 n.

(** An enemy of wave 1 standing [dx] short of the last waypoint of
    Greenlands. *)
Definition arriving (i : Z) (dx : float) : Enemy.t :=
  {| Enemy.id := "enemy-1-" ++ showZ i; Enemy.type := goblin;
     Enemy.x := (600 - dx)%float; Enemy.y := 180; Enemy.health := 40;
     Enemy.maxHealth := 40; Enemy.speed := 1.55; Enemy.pathIndex := 7;
     Enemy.reward := 12; Enemy.armor := 0 |}.

(** The last life, one enemy about to arrive. *)
Definition lastLife : World :=
  set_lives 1 (set_enemies [arriving 0 3] (startGame initial)).

Definition isSessionRow (i : DbInsert) : bool :=
  match i with
  | game_sessions _ => true
  | tower_defense_games _ => false
  end.

(** How many session summaries have been sent to the backend. *)
Definition recordings (s : World) : nat :=
  length (filter isSessionRow (saved s)).

(** The condition under which the wave-completion effect declares
    victory. *)
Definition lastWaveCleared (s : World) : Prop :=
  isPlaying s = true /\ enemies s = [] /\ 0 < wave s
  /\ waves (currentMapData s) <= wave s.

(** The last wave of Greenlands cleared with [xp] experience on the
    clock. *)
Definition cleared (xp : Z) : World :=
  set_xpEarned xp (set_wave 10 (set_isPlaying true initial)).

(** *** The gold ledger *)

(** The catalogue cost of the towers on the board. *)
Definition towerCosts (ts : list Tower.t) : Z :=
  fold_right Z.add 0 (map (fun t => cost (TOWER_TYPES (Tower.type t))) ts).

(** The unlock prices of a list of tower types. *)
Definition unlockFees (ks : list TowerType) : Z :=
  fold_right Z.add 0 (map unlockCost ks).

Definition rewards (es : list Enemy.t) : Z :=
  fold_right Z.add 0 (map Enemy.reward es).

(** The hit of [tower] aimed at [target] brings [e] to zero or below. *)
Definition slain (tower : Tower.t) (target e : Enemy.t) : bool :=
  String.eqb (Enemy.id e) (Enemy.id target)
  && (Enemy.health e - effectiveDamage tower e <=? 0).

(** The enemies that a shot of [tower] kills in world [s]. *)
Definition killedBy (tower : Tower.t) (s : World) : list Enemy.t :=
  match filter (inRange tower) (enemies s) with
  | target :: _ => filter (slain tower target) (enemies s)
  | [] => []
  end.

(** The enemies killed when the towers [ts] take their turn in order,
    each shooting at what the previous ones have left. *)
Fixpoint killedByTowers (now : Z) (ts : list Tower.t) (s : World)
  : list Enemy.t :=
  match ts with
  | [] => []
  | t :: ts' =>
      if now - Tower.lastFired t <? Tower.fireRate t
      then killedByTowers now ts' s
      else killedBy t s ++ killedByTowers now ts' (attack t s)
  end.

(** The enemies killed by an event: only an animation frame kills. *)
Definition killedIn (ev : Event) (s : World) : list Enemy.t :=
  match ev with
  | Frame now =>
      if negb (isPlaying s) || gameOver s then []
      else
        let s1 := moveEnemies (currentPath s) s in
        killedByTowers now (towers s1) s1
  | _ => []
  end.

(** The rewards of the enemies killed along a run of events. *)
Fixpoint bounty (evs : list Event) (s : World) : Z :=
  match evs with
  | [] => 0
  | ev :: evs' =>
      rewards (killedIn ev s)
      + match handle ev s with
        | Some s' => bounty evs' s'
        | None => 0
        end
  end.

(** The events that start the accounts afresh. *)
Definition resets (ev : Event) : bool :=
  match ev with
  | ClickReset | ClickMap _ => true
  | _ => false
  end.

Definition oneSession (evs : list Event) : Prop :=
  forallb (fun ev => negb (resets ev)) evs = true.

(** What the player holds: gold in hand, towers bought, unlocks paid. *)
Definition holdings (s : World) : Z :=
  gold s + towerCosts (towers s) + unlockFees (unlockedTowers s).

(** A tower bought, one enemy shot down: an archer tower placed beside
    the first bend, then wave 1 and [n] frames. *)
Definition skirmish (n : nat) : list Event :=
  [ClickTowerCard archer; ClickBoard 100 120 17; ClickStart;
   WaveCompletionEffect None true; SpawnEffect half]
  ++ ticks 1000 n.

(** *** Clearance *)

(** The tower is not closer than the clearance distance to any waypoint
    of [path]: the test that [placeTower] makes. *)
Definition clearOfWaypoints (path : list Point) (t : Tower.t) : bool :=
  forallb (fun p => negb (tooClose (Tower.x t) (Tower.y t) p)) path.

(** Distance from [(x, y)] to the nearest point of the segment from [p]
    to [q]. *)
Definition segmentDistance (x y : float) (p q : Point) : float :=
  let vx := (px q - px p)%float in
  let vy := (py q - py p)%float in
  let len2 := (vx * vx + vy * vy)%float in
  let u := if (len2 =? 0)%float then 0%float
           else (((x - px p) * vx + (y - py p) * vy) / len2)%float in
  let u := if (u <? 0)%float then 0%float
           else if (1 <? u)%float then 1%float else u in
  hypot (px p + u * vx - x) (py p + u * vy - y).

Fixpoint segments (path : list Point) : list (Point * Point) :=
  match path with
  | p :: (q :: _) as rest => (p, q) :: segments rest
  | _ => []
  end.

(** Some point of some segment of [path] is within 30 units of
    [(x, y)]. *)
Definition nearPath (path : list Point) (x y : float) : bool :=
  existsb (fun pq => (segmentDistance x y (fst pq) (snd pq) <? 30)%float)
    (segments path).

(** Every tower on the board keeps the clearance distance from every
    waypoint of the current map. *)
Definition towersClear (s : World) : Prop :=
  Forall (fun t => clearOfWaypoints (currentPath s) t = true) (towers s).

(** *** Victory *)

(** The map after [k] in the order of the catalogue. *)
Definition nextMap (k : MapKey) : option MapKey :=
  match k with
  | greenlands => Some volcano
  | volcano => Some crystalCave
  | crystalCave => Some darkCastle
  | darkCastle => None
  end.

(** *** Sample pieces *)

(** An archer tower on the last stretch of Greenlands. *)
Definition sentry : Tower.t := newTower archer 590 140 17.

(** A dragon of wave 1 on the last stretch of Greenlands. *)
Definition wyrm : Enemy.t :=
  {| Enemy.id := "enemy-1-2"; Enemy.type := dragon; Enemy.x := 570;
     Enemy.y := 180; Enemy.health := 160; Enemy.maxHealth := 160;
     Enemy.speed := 1.25; Enemy.pathIndex := 7; Enemy.reward := 42;
     Enemy.armor := 15 |}.

(** Wave 1 under way with two goblins near the castle. *)
Definition twoArriving : World :=
  set_enemies [arriving 0 30; arriving 1 4] (startGame initial).

(** *** Invariants of the reachable states *)

(** An enemy as the spawner and the game loop leave it: a reward that is
    not negative, health above zero and at most the maximum, and a
    waypoint index inside [path]. *)
Definition soundEnemy (path : list Point) (e : Enemy.t) : Prop :=
  0 <= Enemy.reward e /\ 0 < Enemy.health e <= Enemy.maxHealth e
  /\ (Enemy.pathIndex e < length path)%nat.

Definition soundWorld (s : World) : Prop :=
  (gameOver s = true -> isPlaying s = false)
  /\ (gameOver s = false -> 0 < lives s)
  /\ lives s <= 20 /\ 0 <= wave s /\ 0 <= gold s
  /\ Forall (soundEnemy (currentPath s)) (enemies s).

(** A tower with its [lastFired] blanked: what the game loop never
    changes. *)
Definition emplacement (t : Tower.t) : Tower.t := with_lastFired 0 t.

(** The enemies killed by one run of the game loop. *)
Definition killedInLoop (now : Z) (s : World) : list Enemy.t :=
  let s1 := moveEnemies (currentPath s) s in
  killedByTowers now (towers s1) s1.

(** What the movement and combat callbacks keep of an enemy before the
    dead are filtered out. *)
Definition tameEnemy (path : list Point) (e : Enemy.t) : Prop :=
  0 <= Enemy.reward e /\ Enemy.health e <= Enemy.maxHealth e
  /\ 0 <= Enemy.maxHealth e /\ (Enemy.pathIndex e < length path)%nat.

Definition soundScore (s : World) : Prop :=
  (gameOver s = true -> isPlaying s = false)
  /\ (gameOver s = false -> 0 < lives s)
  /\ lives s <= 20 /\ 0 <= wave s /\ 0 <= gold s.

(** A row that records a win. *)
Definition recordsWin (i : DbInsert) : Prop :=
  match i with
  | game_sessions row => result row = "win"%string
  | tower_defense_games row => game_result row = "win"%string
  end.

(** The id that [spawnWave] gives the enemy of index [i] of [wave]. *)
Definition enemyId (wave : Z) (i : nat) : string :=
  "enemy-" ++ showZ wave ++ "-" ++ showZ (Z.of_nat i).

(** *** The combat step, told from the towers' side *)

(** The enemy a tower aims at: the first one of the list within its
    range, however near or strong the others are. *)
Definition aim (tower : Tower.t) (es : list Enemy.t) : option Enemy.t :=
  find (inRange tower) es.

(** One shot of [tower] at the enemies [es]: every enemy that carries the
    id of the one aimed at is struck, and the dead leave the board. *)
Definition shot (tower : Tower.t) (es : list Enemy.t) : list Enemy.t :=
  match aim tower es with
  | Some target => filter alive (map (struck tower target) es)
  | None => es
  end.

(** The fire-rate gate at time [now]. *)
Definition ready (now : Z) (t : Tower.t) : bool :=
  Tower.fireRate t <=? now - Tower.lastFired t.

(** The towers take their turn in list order: one whose interval has
    elapsed shoots at what the towers before it have left. *)
Fixpoint volley (now : Z) (ts : list Tower.t) (es : list Enemy.t)
  : list Enemy.t :=
  match ts with
  | [] => es
  | t :: ts' => volley now ts' (if ready now t then shot t es else es)
  end.

(** A tower after the combat step: its interval starts anew when it had
    elapsed, whether or not there was anything to shoot at. *)
Definition reloaded (now : Z) (t : Tower.t) : Tower.t :=
  if ready now t then with_lastFired now t else t.

(** The sentry on guard in wave 1: a goblin still out of range, then a
    dragon and a goblin within range, the goblin the nearer of the
    two. *)
Definition wyrmArriving : World :=
  set_enemies [arriving 0 200; wyrm; arriving 1 4]
    (set_towers [sentry] (startGame initial)).

End TD1.

Module TD2.

Inductive TowerType : Set := basic | sniper | splash | slow.

Inductive MapKey : Set := forest | desert | volcano.

Definition TowerType_eqb (a b : TowerType) : bool :=
  match a, b with
  | basic, basic | sniper, sniper | splash, splash | slow, slow => true
  | _, _ => false
  end.

Module Tower.
Record t : Set := {
  id : string;
  type : TowerType;
  x : float;
  y : float;
  level : Z;
  damage : Z;
  range : float;
  fireRate : Z;
  lastFired : Z
}.
End Tower.

Module Enemy.
Record t : Set := {
  id : string;
  x : float;
  y : float;
  health : Z;
  maxHealth : Z;
  speed : float;
  pathIndex : nat;
  reward : Z
}.
End Enemy.

Record TowerData : Set := {
  name : string;
  cost : Z;
  damage : Z;
  range : float;
  fireRate : Z;
  unlocked : bool
}.

Definition TOWER_TYPES (k : TowerType) : TowerData :=
  match k with
  | basic => {| name := "Basic Tower"; cost := 50; damage := 10;
                range := 100; fireRate := 1000; unlocked := true |}
  | sniper => {| name := "Sniper Tower"; cost := 100; damage := 50;
                 range := 200; fireRate := 2000; unlocked := false |}
  | splash => {| name := "Splash Tower"; cost := 150; damage := 20;
                 range := 80; fireRate := 1500; unlocked := false |}
  | slow => {| name := "Slow Tower"; cost := 75; damage := 5;
               range := 100; fireRate := 500; unlocked := false |}
  end.

Definition pt (a b : float) : Point := {| px := a; py := b |}.

Definition ENEMY_PATH : list Point :=
  [pt 0 200; pt 150 200; pt 150 100; pt 300 100; pt 300 300; pt 450 300;
   pt 450 150; pt 600 150].

Record MapData : Set := {
  mapName : string;
  mapUnlocked : bool;
  waves : Z
}.

Definition MAPS (k : MapKey) : MapData :=
  match k with
  | forest => {| mapName := "Forest"; mapUnlocked := true; waves := 10 |}
  | desert => {| mapName := "Desert"; mapUnlocked := false; waves := 15 |}
  | volcano => {| mapName := "Volcano"; mapUnlocked := false; waves := 20 |}
  end.

Record GameSessionRow : Set := {
  wallet_address : string;
  game_type : string;
  difficulty : MapKey;
  status : string;
  xp_earned : Z;
  result : string;
  data_wave : Z;
  data_gold : Z
}.

Record TowerDefenseRow : Set := {
  td_wallet_address : string;
  current_wave : Z;
  current_map : MapKey;
  td_gold : Z;
  td_lives : Z;
  game_result : string
}.

Inductive DbInsert : Set :=
| game_sessions (row : GameSessionRow)
| tower_defense_games (row : TowerDefenseRow).

Record World : Set := {
  towers : list Tower.t;
  enemies : list Enemy.t;
  gold : Z;
  lives : Z;
  wave : Z;
  isPlaying : bool;
  gameOver : bool;
  selectedTower : option TowerType;
  currentMap : MapKey;
  xpEarned : Z;
  unlockedTowers : list TowerType;
  placementMode : bool;
  killCount : Z;
  timers : nat;
  saved : list DbInsert
}.

Definition initial : World :=
  {| towers := []; enemies := []; gold := 200; lives := 20; wave := 0;
     isPlaying := false; gameOver := false; selectedTower := Some basic;
     currentMap := forest; xpEarned := 0; unlockedTowers := [basic];
     placementMode := false; killCount := 0; timers := 0; saved := [] |}.

Definition set_towers (v : list Tower.t) (s : World) : World :=
  {| towers := v; enemies := enemies s; gold := gold s; lives := lives s;
     wave := wave s; isPlaying := isPlaying s; gameOver := gameOver s;
     selectedTower := selectedTower s; currentMap := currentMap s;
     xpEarned := xpEarned s; unlockedTowers := unlockedTowers s;
     placementMode := placementMode s; killCount := killCount s;
     timers := timers s; saved := saved s |}.

Definition set_enemies (v : list Enemy.t) (s : World) : World :=
  {| towers := towers s; enemies := v; gold := gold s; lives := lives s;
     wave := wave s; isPlaying := isPlaying s; gameOver := gameOver s;
     selectedTower := selectedTower s; currentMap := currentMap s;
     xpEarned := xpEarned s; unlockedTowers := unlockedTowers s;
     placementMode := placementMode s; killCount := killCount s;
     timers := timers s; saved := saved s |}.

Definition set_gold (v : Z) (s : World) : World :=
  {| towers := towers s; enemies := enemies s; gold := v; lives := lives s;
     wave := wave s; isPlaying := isPlaying s; gameOver := gameOver s;
     selectedTower := selectedTower s; currentMap := currentMap s;
     xpEarned := xpEarned s; unlockedTowers := unlockedTowers s;
     placementMode := placementMode s; killCount := killCount s;
     timers := timers s; saved := saved s |}.

Definition set_lives (v : Z) (s : World) : World :=
  {| towers := towers s; enemies := enemies s; gold := gold s; lives := v;
     wave := wave s; isPlaying := isPlaying s; gameOver := gameOver s;
     selectedTower := selectedTower s; currentMap := currentMap s;
     xpEarned := xpEarned s; unlockedTowers := unlockedTowers s;
     placementMode := placementMode s; killCount := killCount s;
     timers := timers s; saved := saved s |}.

Definition set_wave (v : Z) (s : World) : World :=
  {| towers := towers s; enemies := enemies s; gold := gold s;
     lives := lives s; wave := v; isPlaying := isPlaying s;
     gameOver := gameOver s; selectedTower := selectedTower s;
     currentMap := currentMap s; xpEarned := xpEarned s;
     unlockedTowers := unlockedTowers s; placementMode := placementMode s;
     killCount := killCount s; timers := timers s; saved := saved s |}.

Definition set_isPlaying (v : bool) (s : World) : World :=
  {| towers := towers s; enemies := enemies s; gold := gold s;
     lives := lives s; wave := wave s; isPlaying := v;
     gameOver := gameOver s; selectedTower := selectedTower s;
     currentMap := currentMap s; xpEarned := xpEarned s;
     unlockedTowers := unlockedTowers s; placementMode := placementMode s;
     killCount := killCount s; timers := timers s; saved := saved s |}.

Definition set_gameOver (v : bool) (s : World) : World :=
  {| towers := towers s; enemies := enemies s; gold := gold s;
     lives := lives s; wave := wave s; isPlaying := isPlaying s;
     gameOver := v; selectedTower := selectedTower s;
     currentMap := currentMap s; xpEarned := xpEarned s;
     unlockedTowers := unlockedTowers s; placementMode := placementMode s;
     killCount := killCount s; timers := timers s; saved := saved s |}.

Definition set_selectedTower (v : option TowerType) (s : World) : World :=
  {| towers := towers s; enemies := enemies s; gold := gold s;
     lives := lives s; wave := wave s; isPlaying := isPlaying s;
     gameOver := gameOver s; selectedTower := v; currentMap := currentMap s;
     xpEarned := xpEarned s; unlockedTowers := unlockedTowers s;
     placementMode := placementMode s; killCount := killCount s;
     timers := timers s; saved := saved s |}.

Definition set_currentMap (v : MapKey) (s : World) : World :=
  {| towers := towers s; enemies := enemies s; gold := gold s;
     lives := lives s; wave := wave s; isPlaying := isPlaying s;
     gameOver := gameOver s; selectedTower := selectedTower s;
     currentMap := v; xpEarned := xpEarned s;
     unlockedTowers := unlockedTowers s; placementMode := placementMode s;
     killCount := killCount s; timers := timers s; saved := saved s |}.

Definition set_xpEarned (v : Z) (s : World) : World :=
  {| towers := towers s; enemies := enemies s; gold := gold s;
     lives := lives s; wave := wave s; isPlaying := isPlaying s;
     gameOver := gameOver s; selectedTower := selectedTower s;
     currentMap := currentMap s; xpEarned := v;
     unlockedTowers := unlockedTowers s; placementMode := placementMode s;
     killCount := killCount s; timers := timers s; saved := saved s |}.

Definition set_unlockedTowers (v : list TowerType) (s : World) : World :=
  {| towers := towers s; enemies := enemies s; gold := gold s;
     lives := lives s; wave := wave s; isPlaying := isPlaying s;
     gameOver := gameOver s; selectedTower := selectedTower s;
     currentMap := currentMap s; xpEarned := xpEarned s; unlockedTowers := v;
     placementMode := placementMode s; killCount := killCount s;
     timers := timers s; saved := saved s |}.

Definition set_placementMode (v : bool) (s : World) : World :=
  {| towers := towers s; enemies := enemies s; gold := gold s;
     lives := lives s; wave := wave s; isPlaying := isPlaying s;
     gameOver := gameOver s; selectedTower := selectedTower s;
     currentMap := currentMap s; xpEarned := xpEarned s;
     unlockedTowers := unlockedTowers s; placementMode := v;
     killCount := killCount s; timers := timers s; saved := saved s |}.

Definition set_killCount (v : Z) (s : World) : World :=
  {| towers := towers s; enemies := enemies s; gold := gold s;
     lives := lives s; wave := wave s; isPlaying := isPlaying s;
     gameOver := gameOver s; selectedTower := selectedTower s;
     currentMap := currentMap s; xpEarned := xpEarned s;
     unlockedTowers := unlockedTowers s; placementMode := placementMode s;
     killCount := v; timers := timers s; saved := saved s |}.

Definition set_timers (v : nat) (s : World) : World :=
  {| towers := towers s; enemies := enemies s; gold := gold s;
     lives := lives s; wave := wave s; isPlaying := isPlaying s;
     gameOver := gameOver s; selectedTower := selectedTower s;
     currentMap := currentMap s; xpEarned := xpEarned s;
     unlockedTowers := unlockedTowers s; placementMode := placementMode s;
     killCount := killCount s; timers := v; saved := saved s |}.

Definition set_saved (v : list DbInsert) (s : World) : World :=
  {| towers := towers s; enemies := enemies s; gold := gold s;
     lives := lives s; wave := wave s; isPlaying := isPlaying s;
     gameOver := gameOver s; selectedTower := selectedTower s;
     currentMap := currentMap s; xpEarned := xpEarned s;
     unlockedTowers := unlockedTowers s; placementMode := placementMode s;
     killCount := killCount s; timers := timers s; saved := v |}.

Definition with_pathIndex (v : nat) (e : Enemy.t) : Enemy.t :=
  {| Enemy.id := Enemy.id e; Enemy.x := Enemy.x e; Enemy.y := Enemy.y e;
     Enemy.health := Enemy.health e; Enemy.maxHealth := Enemy.maxHealth e;
     Enemy.speed := Enemy.speed e; Enemy.pathIndex := v;
     Enemy.reward := Enemy.reward e |}.

Definition with_health (v : Z) (e : Enemy.t) : Enemy.t :=
  {| Enemy.id := Enemy.id e; Enemy.x := Enemy.x e; Enemy.y := Enemy.y e;
     Enemy.health := v; Enemy.maxHealth := Enemy.maxHealth e;
     Enemy.speed := Enemy.speed e; Enemy.pathIndex := Enemy.pathIndex e;
     Enemy.reward := Enemy.reward e |}.

Definition with_xy (vx vy : float) (e : Enemy.t) : Enemy.t :=
  {| Enemy.id := Enemy.id e; Enemy.x := vx; Enemy.y := vy;
     Enemy.health := Enemy.health e; Enemy.maxHealth := Enemy.maxHealth e;
     Enemy.speed := Enemy.speed e; Enemy.pathIndex := Enemy.pathIndex e;
     Enemy.reward := Enemy.reward e |}.

Definition with_lastFired (v : Z) (t : Tower.t) : Tower.t :=
  {| Tower.id := Tower.id t; Tower.type := Tower.type t;
     Tower.x := Tower.x t; Tower.y := Tower.y t;
     Tower.level := Tower.level t; Tower.damage := Tower.damage t;
     Tower.range := Tower.range t; Tower.fireRate := Tower.fireRate t;
     Tower.lastFired := v |}.

(** [spawnWave]: the enemies pushed by the loop, from index [i] with [n]
    iterations left. *)
Fixpoint spawnLoop (wave : Z) (i n : nat) : list Enemy.t :=
  match n with
  | O => []
  | S n' =>
      {| Enemy.id := "enemy-" ++ showZ wave ++ "-" ++ showZ (Z.of_nat i);
         Enemy.x := (px (nth 0 ENEMY_PATH (pt 0 0))
                     - Z2f (Z.of_nat i * 40))%float;
         Enemy.y := py (nth 0 ENEMY_PATH (pt 0 0));
         Enemy.health := 20 + wave * 10;
         Enemy.maxHealth := 20 + wave * 10;
         Enemy.speed := (1 + Z2f wave * 0.1)%float;
         Enemy.pathIndex := 0;
         Enemy.reward := 10 + wave * 2 |}
      :: spawnLoop wave (S i) n'
  end.

Definition newEnemies (wave : Z) : list Enemy.t :=
  let enemyCount := wave * 2 + 3 in
  spawnLoop wave 0 (Z.to_nat enemyCount).

Definition spawnWave (s : World) : World :=
  set_enemies (enemies s ++ newEnemies (wave s)) s.

Definition loseLife (s : World) : World :=
  let newLives := lives s - 1 in
  let s := if newLives <=? 0 then set_isPlaying false (set_gameOver true s)
           else s in
  set_lives newLives s.

Definition moveEnemy (enemy : Enemy.t) (s : World) : Enemy.t * World :=
  match nth_error ENEMY_PATH (Enemy.pathIndex enemy) with
  | None => (enemy, s)
  | Some targetPoint =>
      let dx := (px targetPoint - Enemy.x enemy)%float in
      let dy := (py targetPoint - Enemy.y enemy)%float in
      let distance := hypot dx dy in
      if (distance <? 5)%float then
        if (Enemy.pathIndex enemy <? length ENEMY_PATH - 1)%nat
        then (with_pathIndex (Enemy.pathIndex enemy + 1) enemy, s)
        else (with_health 0 enemy, loseLife s)
      else
        (with_xy (Enemy.x enemy + dx / distance * Enemy.speed enemy)%float
                 (Enemy.y enemy + dy / distance * Enemy.speed enemy)%float
                 enemy, s)
  end.

Definition alive (e : Enemy.t) : bool := 0 <? Enemy.health e.

Definition moveEnemies (s : World) : World :=
  let (moved, s') := mapS moveEnemy (enemies s) s in
  set_enemies (filter alive moved) s'.

Definition inRange (tower : Tower.t) (enemy : Enemy.t) : bool :=
  let dx := (Enemy.x enemy - Tower.x tower)%float in
  let dy := (Enemy.y enemy - Tower.y tower)%float in
  (hypot dx dy <=? Tower.range tower)%float.

Definition creditKill (e : Enemy.t) (s : World) : World :=
  set_killCount (killCount s + 1)
    (set_xpEarned (xpEarned s + 5)
       (set_gold (gold s + Enemy.reward e) s)).

Definition hit (tower : Tower.t) (target : Enemy.t) (e : Enemy.t)
  (s : World) : Enemy.t * World :=
  if String.eqb (Enemy.id e) (Enemy.id target) then
    let newHealth := Enemy.health e - Tower.damage tower in
    (with_health newHealth e,
     if newHealth <=? 0 then creditKill e s else s)
  else (e, s).

Definition attack (tower : Tower.t) (s : World) : World :=
  match filter (inRange tower) (enemies s) with
  | target :: _ =>
      let (struck, s') := mapS (hit tower target) (enemies s) s in
      set_enemies (filter alive struck) s'
  | [] => s
  end.

Definition fire (now : Z) (tower : Tower.t) (s : World)
  : Tower.t * World :=
  if now - Tower.lastFired tower <? Tower.fireRate tower then (tower, s)
  else (with_lastFired now tower, attack tower s).

Definition fireTowers (now : Z) (s : World) : World :=
  let (fired, s') := mapS (fire now) (towers s) s in
  set_towers fired s'.

Definition gameLoop (now : Z) (s : World) : World :=
  fireTowers now (moveEnemies s).

Definition frame (now : Z) (s : World) : World :=
  if negb (isPlaying s) || gameOver s then s else gameLoop now s.

Definition saveVictory (address : option string) (session : bool)
  (earnedXP : Z) (s : World) : list DbInsert :=
  match address with
  | Some a =>
      if truthy address then
        game_sessions
          {| wallet_address := a; game_type := "tower_defense";
             difficulty := currentMap s; status := "completed";
             xp_earned := earnedXP; result := "win"; data_wave := wave s;
             data_gold := gold s |}
        :: (if session then
              [tower_defense_games
                 {| td_wallet_address := a; current_wave := wave s;
                    current_map := currentMap s; td_gold := gold s;
                    td_lives := lives s; game_result := "win" |}]
            else [])
      else []
  | None => []
  end.

Definition handleVictory (address : option string) (session : bool)
  (s : World) : World :=
  let earnedXP := xpEarned s + 100 + wave s * 10 in
  let s1 := set_gameOver true (set_isPlaying false s) in
  let s2 := set_xpEarned earnedXP s1 in
  set_saved (saved s2 ++ saveVictory address session earnedXP s) s2.

Definition newTower (selected : TowerType) (x y : float) (now : Z)
  : Tower.t :=
  let towerData := TOWER_TYPES selected in
  {| Tower.id := "tower-" ++ showZ now; Tower.type := selected;
     Tower.x := x; Tower.y := y; Tower.level := 1;
     Tower.damage := damage towerData; Tower.range := range towerData;
     Tower.fireRate := fireRate towerData; Tower.lastFired := 0 |}.

Definition placeTower (x y : float) (now : Z) (s : World) : World :=
  match selectedTower s with
  | None => s
  | Some selected =>
      if negb (placementMode s) then s
      else
        let towerData := TOWER_TYPES selected in
        if gold s <? cost towerData then s
        else
          set_placementMode false
            (set_gold (gold s - cost towerData)
               (set_towers (towers s ++ [newTower selected x y now]) s))
  end.

Definition startGame (s : World) : World :=
  set_wave 1 (set_isPlaying true s).

Definition resetGame (s : World) : World :=
  set_killCount 0
    (set_xpEarned 0
       (set_gameOver false
          (set_isPlaying false
             (set_wave 0
                (set_lives 20
                   (set_gold 200 (set_enemies [] (set_towers [] s)))))))).

Definition unlockCost (towerType : TowerType) : Z :=
  cost (TOWER_TYPES towerType) * 5.

Definition unlockTower (towerType : TowerType) (s : World) : World :=
  let cost := unlockCost towerType in
  if cost <=? gold s then
    set_unlockedTowers (unlockedTowers s ++ [towerType])
      (set_gold (gold s - cost) s)
  else s.

Definition waveCompletion (address : option string) (session : bool)
  (s : World) : World :=
  if isPlaying s && (length (enemies s) =? 0)%nat && (0 <? wave s) then
    let mapData := MAPS (currentMap s) in
    if waves mapData <=? wave s
    then handleVictory address session s
    else set_timers (S (timers s)) s
  else s.

Definition waveTimer (s : World) : World := set_wave (wave s + 1) s.

Definition spawnEffect (s : World) : World :=
  if (0 <? wave s) && isPlaying s then spawnWave s else s.

(** The events of this page: it has no Resume button, and a map button
    is enabled by the constant [unlocked] flag of [MAPS]. *)
Inductive Event : Type :=
| ClickTowerCard (key : TowerType)
| ClickUnlock (key : TowerType)
| ClickBoard (x y : float) (now : Z)
| ClickStart
| ClickPause
| ClickReset
| ClickMap (key : MapKey)
| Frame (now : Z)
| WaveCompletionEffect (address : option string) (session : bool)
| SpawnEffect
| TimeoutFires.

Definition handle (ev : Event) (s : World) : World :=
  match ev with
  | ClickTowerCard key =>
      if includes TowerType_eqb (unlockedTowers s) key
      then set_placementMode true (set_selectedTower (Some key) s)
      else s
  | ClickUnlock key =>
      if includes TowerType_eqb (unlockedTowers s) key then s
      else unlockTower key s
  | ClickBoard x y now =>
      if placementMode s then placeTower x y now s else s
  | ClickStart =>
      if negb (isPlaying s) && negb (gameOver s) && (wave s =? 0)
      then startGame s else s
  | ClickPause => if isPlaying s then set_isPlaying false s else s
  | ClickReset => resetGame s
  | ClickMap key =>
      if mapUnlocked (MAPS key) then resetGame (set_currentMap key s)
      else s
  | Frame now => frame now s
  | WaveCompletionEffect address session =>
      waveCompletion address session s
  | SpawnEffect => spawnEffect s
  | TimeoutFires =>
      match timers s with
      | O => s
      | S n => waveTimer (set_timers n s)
      end
  end.

Definition run (evs : list Event) (s : World) : World :=
  fold_left (fun s ev => handle ev s) evs s.

(** ** Notions used in the statements *)

(** What a hit of [tower] aimed at [target] makes of enemy [e]. *)
Definition struck (tower : Tower.t) (target e : Enemy.t) : Enemy.t :=
  if String.eqb (Enemy.id e) (Enemy.id target)
  then with_health (Enemy.health e - Tower.damage tower) e
  else e.

(** The tower has the damage that the catalogue gives its type, as every
    tower built by [placeTower] has. *)
Definition fromCatalog (t : Tower.t) : Prop :=
  Tower.damage t = damage (TOWER_TYPES (Tower.type t)).

(** The last wave of the forest cleared with [xp] experience on the
    clock. *)
Definition cleared (xp : Z) : World :=
  set_xpEarned xp (set_wave 10 (set_isPlaying true initial)).

Definition lastWaveCleared (s : World) : Prop :=
  isPlaying s = true /\ enemies s = [] /\ 0 < wave s
  /\ waves (MAPS (currentMap s)) <= wave s.

(** Distance from [(x, y)] to the nearest point of the segment from [p]
    to [q], and the segments of the path, as for the other page. *)
Definition nearPath (x y : float) : bool :=
  TD1.nearPath ENEMY_PATH x y.

(** A basic tower near the end of the path, and two enemies of wave 1
    in front of it. *)
Definition sentry : Tower.t := newTower basic 590 110 17.

Definition arriving (i : Z) (dx : float) : Enemy.t :=
  {| Enemy.id := "enemy-1-" ++ showZ i; Enemy.x := (600 - dx)%float;
     Enemy.y := 150; Enemy.health := 30; Enemy.maxHealth := 30;
     Enemy.speed := 1.1; Enemy.pathIndex := 7; Enemy.reward := 12 |}.

Definition twoArriving : World :=
  set_enemies [arriving 0 30; arriving 1 4] (startGame initial).

(** The events that start a new game. *)
Definition resets (ev : Event) : bool :=
  match ev with
  | ClickReset | ClickMap _ => true
  | _ => false
  end.

Definition oneSession (evs : list Event) : Prop :=
  forallb (fun ev => negb (resets ev)) evs = true.

(** Wave 1 paused after 40 frames. *)
Definition pausedGame : World :=
  run ([ClickStart; WaveCompletionEffect None true; SpawnEffect]
       ++ map (fun i => Frame (1000 + 16 * Z.of_nat i)) (seq 0 40)
       ++ [ClickPause]) initial.

(** The cells that a paused game keeps. *)
Definition frozen (s s' : World) : Prop :=
  isPlaying s' = false /\ enemies s' = enemies s /\ lives s' = lives s
  /\ wave s <= wave s'.

(** *** The combat step, told from the towers' side *)

(** The enemy a tower aims at: the first one of the list within its
    range. *)
Definition aim (tower : Tower.t) (es : list Enemy.t) : option Enemy.t :=
  find (inRange tower) es.

Definition shot (tower : Tower.t) (es : list Enemy.t) : list Enemy.t :=
  match aim tower es with
  | Some target => filter alive (map (struck tower target) es)
  | None => es
  end.

(** The fire-rate gate at time [now]. *)
Definition ready (now : Z) (t : Tower.t) : bool :=
  Tower.fireRate t <=? now - Tower.lastFired t.

(** The towers take their turn in list order, each shooting at what the
    towers before it have left. *)
Fixpoint volley (now : Z) (ts : list Tower.t) (es : list Enemy.t)
  : list Enemy.t :=
  match ts with
  | [] => es
  | t :: ts' => volley now ts' (if ready now t then shot t es else es)
  end.

Definition reloaded (now : Z) (t : Tower.t) : Tower.t :=
  if ready now t then with_lastFired now t else t.

(** The sentry on guard in wave 1: an enemy still out of range, then two
    within range, the second the nearer. *)
Definition threeArriving : World :=
  set_enemies [arriving 0 200; arriving 1 30; arriving 2 4]
    (set_towers [sentry] (startGame initial)).

End TD2.

(** * The chess page

    The board is an array of rows of squares; a square is [null] or a
    piece.  Positions are array indices.  Reading [board[r][c]] throws
    when row [r] is missing and yields [undefined], which the code treats
    as [null], when only column [c] is. *)

Module Chess.

Inductive PieceType : Set := king | queen | rook | bishop | knight | pawn.

Inductive PieceColor : Set := white | black.

Record ChessPiece : Set := { type : PieceType; color : PieceColor }.

Record Position : Set := { row : nat; col : nat }.

Definition Square : Set := option ChessPiece.

Definition Board : Set := list (list Square).

Definition PieceColor_eqb (a b : PieceColor) : bool :=
  match a, b with
  | white, white | black, black => true
  | _, _ => false
  end.

Definition isKing (p : ChessPiece) : bool :=
  match type p with
  | king => true
  | _ => false
  end.

Definition Position_eqb (a b : Position) : bool :=
  (row a =? row b)%nat && (col a =? col b)%nat.

(** [board[r][c]]; the outer [None] is the [TypeError]. *)
Definition square (board : Board) (r c : nat) : option Square :=
  match nth_error board r with
  | None => None
  | Some cells =>
      Some (match nth_error cells c with
            | Some sq => sq
            | None => None
            end)
  end.

Definition piece (t : PieceType) (c : PieceColor) : Square :=
  Some {| type := t; color := c |}.

Definition backRank (c : PieceColor) : list Square :=
  [piece rook c; piece knight c; piece bishop c; piece queen c;
   piece king c; piece bishop c; piece knight c; piece rook c].

Definition initializeBoard : Board :=
  [backRank black; repeat (piece pawn black) 8;
   repeat None 8; repeat None 8; repeat None 8; repeat None 8;
   repeat (piece pawn white) 8; backRank white].

(** [targetPiece && targetPiece.color === piece.color] *)
Definition ownPiece (targetPiece : Square) (p : ChessPiece) : bool :=
  match targetPiece with
  | Some t => PieceColor_eqb (color t) (color p)
  | None => false
  end.

Definition occupied (sq : Square) : bool :=
  match sq with
  | Some _ => true
  | None => false
  end.

Definition isValidMove (board : Board) (from to : Position)
  (p : ChessPiece) : option bool :=
  let dx := Z.abs (Z.of_nat (col to) - Z.of_nat (col from)) in
  let dy := Z.abs (Z.of_nat (row to) - Z.of_nat (row from)) in
  match square board (row to) (col to) with
  | None => None
  | Some targetPiece =>
      if ownPiece targetPiece p then Some false
      else
        match type p with
        | pawn =>
            let direction :=
              match color p with white => -1 | black => 1 end in
            let startRow :=
              match color p with white => 6 | black => 1 end in
            let capture :=
              (dx =? 1)
              && (Z.of_nat (row to) =? Z.of_nat (row from) + direction)
              && occupied targetPiece in
            if (col to =? col from)%nat && negb (occupied targetPiece)
            then
              if Z.of_nat (row to) =? Z.of_nat (row from) + direction
              then Some true
              else if (Z.of_nat (row from) =? startRow)
                      && (Z.of_nat (row to)
                          =? Z.of_nat (row from) + 2 * direction)
              then
                match square board
                        (Z.to_nat (Z.of_nat (row from) + direction))
                        (col from) with
                | None => None
                | Some between =>
                    if negb (occupied between) then Some true
                    else Some capture
                end
              else Some capture
            else Some capture
        | rook => Some ((dx =? 0) || (dy =? 0))
        | bishop => Some (dx =? dy)
        | queen => Some ((dx =? dy) || (dx =? 0) || (dy =? 0))
        | king => Some ((dx <=? 1) && (dy <=? 1))
        | knight =>
            Some ((dx =? 2) && (dy =? 1) || (dx =? 1) && (dy =? 2))
        end
  end.

(** The squares in the order of the two nested loops over rows and
    columns 0 to 7. *)
Definition squares : list Position :=
  flat_map (fun r => map (fun c => {| row := r; col := c |}) (seq 0 8))
    (seq 0 8).

(** The first loop of [getAIMove]. *)
Fixpoint collectBlack (board : Board) (ps : list Position)
  : option (list (Position * ChessPiece)) :=
  match ps with
  | [] => Some []
  | pos :: ps' =>
      match square board (row pos) (col pos), collectBlack board ps' with
      | Some (Some p), Some rest =>
          Some (if PieceColor_eqb (color p) black then (pos, p) :: rest
                else rest)
      | Some None, Some rest => Some rest
      | _, _ => None
      end
  end.

(** The inner loops of [getAIMove] for one piece. *)
Fixpoint firstValid (board : Board) (pos : Position) (p : ChessPiece)
  (targets : list Position) : option (option Position) :=
  match targets with
  | [] => Some None
  | t :: ts =>
      match isValidMove board pos t p with
      | None => None
      | Some true => Some (Some t)
      | Some false => firstValid board pos p ts
      end
  end.

Fixpoint searchMoves (board : Board)
  (pieces : list (Position * ChessPiece))
  : option (option (Position * Position)) :=
  match pieces with
  | [] => Some None
  | (pos, p) :: rest =>
      match firstValid board pos p squares with
      | None => None
      | Some (Some t) => Some (Some (pos, t))
      | Some None => searchMoves board rest
      end
  end.

(** [getAIMove]; [shuffle] is what [sort] with the random comparator
    makes of the list. *)
Definition getAIMove
  (shuffle : list (Position * ChessPiece) -> list (Position * ChessPiece))
  (board : Board) : option (option (Position * Position)) :=
  match collectBlack board squares with
  | None => None
  | Some blackPieces => searchMoves board (shuffle blackPieces)
  end.

Inductive Winner : Set := player | ai.

Inductive Difficulty : Set := beginner | intermediate | advanced | master.

(** [DIFFICULTIES.find(d => d.id === difficulty).xpMultiplier] *)
Definition xpMultiplier (d : Difficulty) : float :=
  match d with
  | beginner => 1
  | intermediate => 1.5
  | advanced => 2
  | master => 3
  end.

Record GameSessionRow : Set := {
  wallet_address : string;
  game_type : string;
  session_difficulty : Difficulty;
  status : string;
  xp_earned : Z;
  result : string;
  moves : Z
}.

Record ChessGameRow : Set := {
  cg_wallet_address : string;
  ai_difficulty : Difficulty;
  game_result : string
}.

Inductive DbInsert : Set :=
| game_sessions (r : GameSessionRow)
| chess_games (r : ChessGameRow).

Record State : Set := {
  board : Board;
  selectedSquare : option Position;
  validMoves : list Position;
  isPlayerTurn : bool;
  gameOver : bool;
  winner : option Winner;
  difficulty : Difficulty;
  xpEarned : Z;
  moveCount : Z;
  capturedWhite : list ChessPiece;
  capturedBlack : list ChessPiece;
  saved : list DbInsert
}.

Definition initial : State :=
  {| board := initializeBoard; selectedSquare := None; validMoves := [];
     isPlayerTurn := true; gameOver := false; winner := None;
     difficulty := beginner; xpEarned := 0; moveCount := 0;
     capturedWhite := []; capturedBlack := []; saved := [] |}.

Definition resultOf (gameWinner : Winner) : string :=
  match gameWinner with
  | player => "win"
  | ai => "loss"
  end.

(** [Math.floor(baseXP * difficultyData.xpMultiplier)]; the product is
    finite for every entry of [DIFFICULTIES]. *)
Definition earnedXP (gameWinner : Winner) (d : Difficulty) : Z :=
  let baseXP := match gameWinner with player => 100 | ai => 25 end in
  match floorZ (Z2f baseXP * xpMultiplier d)%float with
  | Some xp => xp
  | None => 0
  end.

Definition saveGame (address : option string) (session : bool)
  (gameWinner : Winner) (s : State) : list DbInsert :=
  match address with
  | Some a =>
      if truthy address then
        game_sessions
          {| wallet_address := a; game_type := "chess";
             session_difficulty := difficulty s; status := "completed";
             xp_earned := earnedXP gameWinner (difficulty s);
             result := resultOf gameWinner; moves := moveCount s |}
        :: (if session then
              [chess_games
                 {| cg_wallet_address := a; ai_difficulty := difficulty s;
                    game_result := resultOf gameWinner |}]
            else [])
      else []
  | None => []
  end.

Definition endGame (address : option string) (session : bool)
  (gameWinner : Winner) (s : State) : State :=
  {| board := board s; selectedSquare := selectedSquare s;
     validMoves := validMoves s; isPlayerTurn := isPlayerTurn s;
     gameOver := true; winner := Some gameWinner;
     difficulty := difficulty s;
     xpEarned := earnedXP gameWinner (difficulty s);
     moveCount := moveCount s; capturedWhite := capturedWhite s;
     capturedBlack := capturedBlack s;
     saved := saved s ++ saveGame address session gameWinner s |}.

(** [cells[c] = v]: an index past the end extends the array with
    holes. *)
Fixpoint setCell (cells : list Square) (c : nat) (v : Square)
  : list Square :=
  match cells, c with
  | [], O => [v]
  | [], S c' => None :: setCell [] c' v
  | _ :: rest, O => v :: rest
  | sq :: rest, S c' => sq :: setCell rest c' v
  end.

(** [newBoard[r][c] = v]; [None] is the [TypeError] of a missing row. *)
Fixpoint setSquare (b : Board) (r c : nat) (v : Square) : option Board :=
  match b, r with
  | [], _ => None
  | cells :: rest, O => Some (setCell cells c v :: rest)
  | cells :: rest, S r' =>
      match setSquare rest r' c v with
      | Some rest' => Some (cells :: rest')
      | None => None
      end
  end.

(** The setter of [capturedPieces] in [makeMove]. *)
Definition capture (mover : PieceColor) (capturedPiece : ChessPiece)
  (s : State) : State :=
  {| board := board s; selectedSquare := selectedSquare s;
     validMoves := validMoves s; isPlayerTurn := isPlayerTurn s;
     gameOver := gameOver s; winner := winner s;
     difficulty := difficulty s; xpEarned := xpEarned s;
     moveCount := moveCount s;
     capturedWhite :=
       match mover with
       | white => capturedWhite s ++ [capturedPiece]
       | black => capturedWhite s
       end;
     capturedBlack :=
       match mover with
       | white => capturedBlack s
       | black => capturedBlack s ++ [capturedPiece]
       end;
     saved := saved s |}.

(** The four setters at the end of [makeMove]. *)
Definition moved (newBoard : Board) (mover : PieceColor) (s : State)
  : State :=
  {| board := newBoard; selectedSquare := None;
     validMoves := validMoves s;
     isPlayerTurn := negb (PieceColor_eqb mover white);
     gameOver := gameOver s; winner := winner s;
     difficulty := difficulty s; xpEarned := xpEarned s;
     moveCount := moveCount s + 1; capturedWhite := capturedWhite s;
     capturedBlack := capturedBlack s; saved := saved s |}.

Definition makeMove (address : option string) (session : bool)
  (from to : Position) (mover : PieceColor) (s : State) : option State :=
  match square (board s) (row from) (col from),
        square (board s) (row to) (col to) with
  | Some p, Some capturedPiece =>
      let s1 := match capturedPiece with
                | Some cp => capture mover cp s
                | None => s
                end in
      if match capturedPiece with Some cp => isKing cp | None => false end
      then Some (endGame address session
                   (match mover with white => player | black => ai end) s1)
      else
        match setSquare (board s) (row to) (col to) p with
        | None => None
        | Some b1 =>
            match setSquare b1 (row from) (col from) None with
            | None => None
            | Some b2 => Some (moved b2 mover s1)
            end
        end
  | _, _ => None
  end.

Definition resetGame (s : State) : State :=
  {| board := initializeBoard; selectedSquare := None; validMoves := [];
     isPlayerTurn := true; gameOver := false; winner := None;
     difficulty := difficulty s; xpEarned := 0; moveCount := 0;
     capturedWhite := []; capturedBlack := []; saved := saved s |}.

Definition set_validMoves (v : list Position) (s : State) : State :=
  {| board := board s; selectedSquare := selectedSquare s;
     validMoves := v; isPlayerTurn := isPlayerTurn s;
     gameOver := gameOver s; winner := winner s;
     difficulty := difficulty s; xpEarned := xpEarned s;
     moveCount := moveCount s; capturedWhite := capturedWhite s;
     capturedBlack := capturedBlack s; saved := saved s |}.

Definition set_selectedSquare (v : option Position) (s : State) : State :=
  {| board := board s; selectedSquare := v;
     validMoves := validMoves s; isPlayerTurn := isPlayerTurn s;
     gameOver := gameOver s; winner := winner s;
     difficulty := difficulty s; xpEarned := xpEarned s;
     moveCount := moveCount s; capturedWhite := capturedWhite s;
     capturedBlack := capturedBlack s; saved := saved s |}.

(** The nested loops of the effect that computes the valid moves. *)
Fixpoint validTargets (b : Board) (from : Position) (p : ChessPiece)
  (targets : list Position) : option (list Position) :=
  match targets with
  | [] => Some []
  | t :: ts =>
      match isValidMove b from t p, validTargets b from p ts with
      | Some v, Some rest => Some (if v then t :: rest else rest)
      | _, _ => None
      end
  end.

(** The effect "Calculate valid moves for selected piece". *)
Definition validMovesEffect (s : State) : option State :=
  match selectedSquare s with
  | None => Some (set_validMoves [] s)
  | Some sel =>
      match square (board s) (row sel) (col sel) with
      | None => None
      | Some (Some p) =>
          if PieceColor_eqb (color p) white then
            match validTargets (board s) sel p squares with
            | Some moves => Some (set_validMoves moves s)
            | None => None
            end
          else Some (set_validMoves [] s)
      | Some None => Some (set_validMoves [] s)
      end
  end.

(** [piece && piece.color === 'white'] *)
Definition isWhite (sq : Square) : bool :=
  match sq with
  | Some p => PieceColor_eqb (color p) white
  | None => false
  end.

Definition handleSquareClick (address : option string) (session : bool)
  (r c : nat) (s : State) : option State :=
  if negb (isPlayerTurn s) || gameOver s then Some s
  else
    match square (board s) r c with
    | None => None
    | Some sq =>
        let here := {| row := r; col := c |} in
        let reselect :=
          if isWhite sq then set_selectedSquare (Some here) s
          else set_selectedSquare None s in
        match selectedSquare s with
        | None => Some reselect
        | Some sel =>
            if existsb (fun m => (row m =? r)%nat && (col m =? c)%nat)
                 (validMoves s)
            then makeMove address session sel here white s
            else Some reselect
        end
    end.

(** The callback of the timeout of the effect "AI turn". *)
Definition aiTurn
  (shuffle : list (Position * ChessPiece) -> list (Position * ChessPiece))
  (address : option string) (session : bool) (s : State) : option State :=
  if isPlayerTurn s || gameOver s then Some s
  else
    match getAIMove shuffle (board s) with
    | None => None
    | Some (Some (from, to)) => makeMove address session from to black s
    | Some None => Some (endGame address session player s)
    end.

(** ** Notions used in the statements *)

(** The square at a position. *)
Definition at_ (b : Board) (pos : Position) : option Square :=
  square b (row pos) (col pos).

Definition onBoard (pos : Position) : Prop :=
  (row pos < 8)%nat /\ (col pos < 8)%nat.

(** The row a pawn of the colour moves towards, and the row it starts
    from. *)
Definition direction (c : PieceColor) : Z :=
  match c with white => -1 | black => 1 end.

Definition startRow (c : PieceColor) : Z :=
  match c with white => 6 | black => 1 end.

(** The shuffle returns the elements it was given. *)
Definition rearranges {A} (shuffle : list A -> list A) : Prop :=
  forall l x, In x (shuffle l) <-> In x l.

Definition pos (r c : nat) : Position := {| row := r; col := c |}.

(** The initial position with the white queen standing next to the
    black king, white to move. *)
Definition matePosition : State :=
  {| board :=
       [[piece rook black; piece knight black; piece bishop black;
         piece queen black; piece king black; piece bishop black;
         piece knight black; piece rook black];
        [piece pawn black; piece pawn black; piece pawn black;
         piece pawn black; piece queen white; piece pawn black;
         piece pawn black; piece pawn black];
        repeat None 8; repeat None 8; repeat None 8; repeat None 8;
        repeat (piece pawn white) 8;
        [piece rook white; piece knight white; piece bishop white; None;
         piece king white; piece bishop white; piece knight white;
         piece rook white]];
     selectedSquare := Some (pos 1 4); validMoves := [pos 0 4];
     isPlayerTurn := true; gameOver := false; winner := None;
     difficulty := intermediate; xpEarned := 0; moveCount := 12;
     capturedWhite := [{| type := pawn; color := black |}];
     capturedBlack := []; saved := [] |}.

(** Eight rows of eight squares. *)
Definition wellFormed (b : Board) : Prop :=
  length b = 8%nat /\ Forall (fun cells => length cells = 8%nat) b.

Definition isSessionRow (i : DbInsert) : bool :=
  match i with
  | game_sessions _ => true
  | chess_games _ => false
  end.

(** The valid moves shown are those the effect computes for the current
    selection and board. *)
Definition settled (s : State) : Prop := validMovesEffect s = Some s.

(** The initial position with the king's pawn selected. *)
Definition pawnSelected : State :=
  set_validMoves [pos 4 4; pos 5 4]
    (set_selectedSquare (Some (pos 6 4)) initial).

End Chess.

(** * Quest configuration ([lib/questConfig])

    Quest ids and durations in seconds are whole numbers ([Number] of a
    [bigint]); the icon and colour of a quest are left out. *)

Module QuestConfig.

Inductive Difficulty : Set := Novice | Adept | Veteran | Legendary.

Record t : Set := {
  id : Z;
  name : string;
  description : string;
  flavorText : string;
  estimatedAPR : Z;
  difficulty : Difficulty
}.

(** [QUEST_CONFIGS[questId]] *)
Definition QUEST_CONFIGS (questId : Z) : option t :=
  if questId =? 1 then
    Some {| id := 1; name := "Novice Expedition";
            description := "A short quest for cautious adventurers";
            flavorText := "Begin your journey with a simple expedition. Low risk, steady rewards.";
            estimatedAPR := 5; difficulty := Novice |}
  else if questId =? 2 then
    Some {| id := 2; name := "Adept Journey";
            description := "For those seeking greater challenges";
            flavorText := "A month-long adventure awaits. Higher stakes, better treasures.";
            estimatedAPR := 8; difficulty := Adept |}
  else if questId =? 3 then
    Some {| id := 3; name := "Veteran Campaign";
            description := "Extended expedition for seasoned warriors";
            flavorText := "Two months of relentless questing. Glory awaits the persistent.";
            estimatedAPR := 12; difficulty := Veteran |}
  else if questId =? 4 then
    Some {| id := 4; name := "Legendary Voyage";
            description := "The ultimate test of dedication";
            flavorText := "Three months in the deepest dungeons. Only legends emerge.";
            estimatedAPR := 18; difficulty := Legendary |}
  else None.

(** [Number.MAX_SAFE_INTEGER], up to which every whole number is printed
    with all its digits. *)
Definition MAX_SAFE_INTEGER : Z := 9007199254740991.

Section Rendering.

(** What a template literal prints for a whole number past
    [MAX_SAFE_INTEGER]: the shortest digits that read back as the same
    double, padded with zeros, and from [1e21] on a mantissa with an
    exponent ([1e+21]).  These digits are not computed here. *)
Variable beyondSafe : Z -> string.

(** [`${n}`] for a whole number [n]. *)
Definition numberToString (n : Z) : string :=
  if Z.abs n <=? MAX_SAFE_INTEGER then showZ n else beyondSafe n.

Definition getQuestConfig (questId : Z) : t :=
  match QUEST_CONFIGS questId with
  | Some config => config
  | None =>
      {| id := questId; name := "Quest #" ++ numberToString questId;
         description := "An unknown quest awaits";
         flavorText := "Mysteries abound in this unexplored territory.";
         estimatedAPR := 5; difficulty := Novice |}
  end.

End Rendering.

Definition formatDuration (seconds : Z) : string :=
  let days := seconds / 86400 in
  let hours := Z.rem seconds 86400 / 3600 in
  if 0 <? days then
    if days =? 1 then "1 day" else showZ days ++ " days"
  else if hours =? 1 then "1 hour" else showZ hours ++ " hours".

Definition formatTimeRemaining (seconds : Z) : string :=
  if seconds <=? 0 then "Ready!"
  else
    let days := seconds / 86400 in
    let hours := Z.rem seconds 86400 / 3600 in
    let minutes := Z.rem seconds 3600 / 60 in
    if 0 <? days then showZ days ++ "d " ++ showZ hours ++ "h remaining"
    else if 0 <? hours
    then showZ hours ++ "h " ++ showZ minutes ++ "m remaining"
    else showZ minutes ++ "m remaining".

End QuestConfig.

(** * Facts about state-threading traversals *)

Section MapSFacts.
Context {A W : Type} (f : A -> W -> A * W).

Lemma mapS_length l : forall w, length (fst (mapS f l w)) = length l.
Proof.
  induction l as [|a l IH]; intros w; simpl; [reflexivity|].
  destruct (f a w) as [a' w1]. specialize (IH w1).
  destruct (mapS f l w1) as [r w2]. simpl in *. now rewrite IH.
Qed.

(** When the element produced by the callback does not depend on the
    world, the traversal produces what [map] produces. *)
Lemma mapS_fst_map (g : A -> A) :
  (forall a w, fst (f a w) = g a) ->
  forall l w, fst (mapS f l w) = map g l.
Proof.
  intros Hf l. induction l as [|a l IH]; intros w; simpl; [reflexivity|].
  specialize (Hf a w). destruct (f a w) as [a' w1].
  specialize (IH w1). destruct (mapS f l w1) as [r w2].
  simpl in *. now subst.
Qed.

(** An invariant of the world kept by every callback is kept by the
    traversal. *)
Lemma mapS_world_ind (P : W -> Prop) :
  (forall a w, P w -> P (snd (f a w))) ->
  forall l w, P w -> P (snd (mapS f l w)).
Proof.
  intros Hf l. induction l as [|a l IH]; intros w Hw; simpl; [exact Hw|].
  specialize (Hf a w Hw). destruct (f a w) as [a' w1].
  specialize (IH w1 Hf). now destruct (mapS f l w1).
Qed.

(** A counter of the world that every callback moves by an amount fixed
    by the element moves by the sum of the amounts. *)
Lemma mapS_world_sum (m : W -> Z) (d : A -> Z) :
  (forall a w, m (snd (f a w)) = m w + d a) ->
  forall l w, m (snd (mapS f l w)) = m w + fold_right Z.add 0 (map d l).
Proof.
  intros Hf l. induction l as [|a l IH]; intros w; simpl; [lia|].
  specialize (Hf a w). destruct (f a w) as [a' w1].
  specialize (IH w1). destruct (mapS f l w1) as [r w2].
  simpl in *. lia.
Qed.

(** A property of elements that every callback preserves is preserved
    elementwise. *)
Lemma mapS_Forall (Q : A -> Prop) :
  (forall a w, Q a -> Q (fst (f a w))) ->
  forall l w, Forall Q l -> Forall Q (fst (mapS f l w)).
Proof.
  intros Hf l. induction l as [|a l IH]; intros w Hl; simpl; [constructor|].
  inversion Hl as [|? ? Ha Hl']; subst.
  specialize (Hf a w Ha). destruct (f a w) as [a' w1].
  specialize (IH w1 Hl'). destruct (mapS f l w1). constructor; assumption.
Qed.

End MapSFacts.

Lemma includes_In {K : Type} (eqb : K -> K -> bool) :
  (forall a b, eqb a b = true <-> a = b) ->
  forall l k, includes eqb l k = true <-> In k l.
Proof.
  intros Heq l k. unfold includes. rewrite existsb_exists. split.
  - intros [a [Ha Hk]]. apply Heq in Hk. now subst.
  - intros Hk. exists k. split; [exact Hk | now apply Heq].
Qed.

(** The first in-range enemy in list order is the head of the filter. *)
Lemma filter_first {A} (p : A -> bool) pre a post :
  (forall b, In b pre -> p b = false) -> p a = true ->
  filter p (pre ++ a :: post) = a :: filter p post.
Proof.
  intros Hpre Ha. induction pre as [|b pre IH]; simpl.
  - now rewrite Ha.
  - rewrite (Hpre b (or_introl eq_refl)). apply IH.
    intros c Hc. apply Hpre. now right.
Qed.

Lemma filter_nil {A} (p : A -> bool) l :
  (forall b, In b l -> p b = false) -> filter p l = [].
Proof.
  induction l as [|b l IH]; intros H; simpl; [reflexivity|].
  rewrite (H b (or_introl eq_refl)). apply IH.
  intros c Hc. apply H. now right.
Qed.

(** [find] returns the head of the filter. *)
Lemma find_hd_filter {A} (p : A -> bool) l :
  find p l = hd_error (filter p l).
Proof.
  induction l as [|a l IH]; simpl; [reflexivity|].
  destruct (p a); [reflexivity|exact IH].
Qed.

(** * Rounding of a binary64 product

    [Math.random()] returns a float [r] with [0 <= r < 1].  The spawner
    scales it by a whole number [K] of at most 5 and takes the floor; the
    lemmas below follow the multiplication through its rounding and show
    that the floor stays below [K].  *)

Module Binary64.
Import SpecFloat.

Lemma digits2_pos_bounds (p : positive) :
  2 ^ Z.pos (digits2_pos p) <= 2 * Z.pos p
  /\ Z.pos p < 2 ^ Z.pos (digits2_pos p).
Proof.
  induction p as [p IH|p IH|]; cbn [digits2_pos].
  - rewrite Pos2Z.inj_succ, Z.pow_succ_r by lia. lia.
  - rewrite Pos2Z.inj_succ, Z.pow_succ_r by lia. lia.
  - simpl. lia.
Qed.

(** A mantissa below [2 ^ n] has at most [n] digits. *)
Lemma digits2_pos_le (p : positive) (n : Z) :
  0 <= n -> Z.pos p < 2 ^ n -> Z.pos (digits2_pos p) <= n.
Proof.
  intros Hn Hp. destruct (digits2_pos_bounds p) as [Hlo _].
  destruct (Z_le_gt_dec (Z.pos (digits2_pos p)) n) as [|Hgt]; [assumption|].
  assert (2 ^ (n + 1) <= 2 ^ Z.pos (digits2_pos p))
    by (apply Z.pow_le_mono_r; lia).
  rewrite Z.pow_add_r in H by lia. lia.
Qed.

(** One step of [shr] halves the mantissa and keeps the bit that falls
    off as the round bit. *)
Lemma shr_1_spec (R : shr_record) :
  0 <= shr_m R ->
  shr_m (shr_1 R) = shr_m R / 2 /\ shr_r (shr_1 R) = Z.odd (shr_m R).
Proof.
  destruct R as [m r s]. cbn [shr_m]. intros Hm.
  rewrite <- Z.div2_div.
  destruct m as [|[p|p|]|]; try lia; split; reflexivity.
Qed.

Lemma iter_shr_1 (p : positive) :
  forall R, 0 <= shr_m R ->
    shr_m (iter_pos shr_1 p R) = shr_m R / 2 ^ Z.pos p
    /\ shr_r (iter_pos shr_1 p R) = Z.odd (shr_m R / 2 ^ (Z.pos p - 1)).
Proof.
  induction p as [p IH|p IH|]; intros R HR; cbn [iter_pos].
  - destruct (shr_1_spec R HR) as [H1 _].
    assert (H1' : 0 <= shr_m (shr_1 R))
      by (rewrite H1; apply Z.div_pos; lia).
    destruct (IH _ H1') as [H2 _].
    assert (H2' : 0 <= shr_m (iter_pos shr_1 p (shr_1 R)))
      by (rewrite H2; apply Z.div_pos; lia).
    destruct (IH _ H2') as [H3 H4].
    assert (Hp : 0 < 2 ^ Z.pos p) by (apply Z.pow_pos_nonneg; lia).
    assert (Hq : 0 < 2 ^ (Z.pos p - 1)) by (apply Z.pow_pos_nonneg; lia).
    rewrite H3, H4, H2, H1. split.
    + replace (Z.pos p~1) with (1 + Z.pos p + Z.pos p) by lia.
      rewrite !Z.pow_add_r, !Z.div_div by lia.
      rewrite ?Z.pow_1_r, ?Z.mul_assoc. reflexivity.
    + replace (Z.pos p~1 - 1) with (1 + Z.pos p + (Z.pos p - 1)) by lia.
      rewrite !Z.pow_add_r, !Z.div_div by lia.
      rewrite ?Z.pow_1_r, ?Z.mul_assoc. reflexivity.
  - destruct (IH _ HR) as [H2 _].
    assert (H2' : 0 <= shr_m (iter_pos shr_1 p R))
      by (rewrite H2; apply Z.div_pos; lia).
    destruct (IH _ H2') as [H3 H4].
    assert (Hp : 0 < 2 ^ Z.pos p) by (apply Z.pow_pos_nonneg; lia).
    assert (Hq : 0 < 2 ^ (Z.pos p - 1)) by (apply Z.pow_pos_nonneg; lia).
    rewrite H3, H4, H2. split.
    + replace (Z.pos p~0) with (Z.pos p + Z.pos p) by lia.
      rewrite !Z.pow_add_r, !Z.div_div by lia.
      rewrite ?Z.pow_1_r, ?Z.mul_assoc. reflexivity.
    + replace (Z.pos p~0 - 1) with (Z.pos p + (Z.pos p - 1)) by lia.
      rewrite !Z.pow_add_r, !Z.div_div by lia.
      rewrite ?Z.pow_1_r, ?Z.mul_assoc. reflexivity.
  - destruct (shr_1_spec R HR) as [H1 H2]. rewrite H1, H2.
    split; [reflexivity|]. simpl. now rewrite Z.div_1_r.
Qed.

(** When the bit below position [n] is set, the part of [P] below [2 ^ n]
    is at least half of [2 ^ n]. *)
Lemma odd_half (P n : Z) :
  0 <= P -> 0 < n -> Z.odd (P / 2 ^ (n - 1)) = true ->
  2 ^ n <= 2 * (P - 2 ^ n * (P / 2 ^ n)).
Proof.
  intros HP Hn Hodd.
  assert (Ha : 0 < 2 ^ (n - 1)) by (apply Z.pow_pos_nonneg; lia).
  assert (Hn2 : 2 ^ n = 2 * 2 ^ (n - 1)).
  { replace n with (1 + (n - 1)) at 1 by lia.
    now rewrite Z.pow_add_r by lia. }
  rewrite Hn2. set (a := 2 ^ (n - 1)) in *.
  apply Z.odd_spec in Hodd. destruct Hodd as [v Hv].
  pose proof (Z.div_mod P a ltac:(lia)) as Hdm.
  pose proof (Z.mod_pos_bound P a Ha) as Hb.
  rewrite Hv in Hdm.
  assert (Hq : P / (2 * a) = v).
  { symmetry. apply (Z.div_unique P (2 * a) v (a + P mod a)); lia. }
  rewrite Hq. lia.
Qed.

(** The first shift of [binary_round_aux], followed by rounding to
    nearest even: the rounded mantissa is at most half a unit above the
    exact quotient. *)
Lemma round_shr (P E n : Z) :
  0 <= P ->
  let R := fst (shr (Build_shr_record P false false) E n) in
  let m := round_nearest_even (shr_m R) (loc_of_shr_record R) in
  snd (shr (Build_shr_record P false false) E n) = E + Z.max n 0
  /\ 0 <= m
  /\ 2 * (m * 2 ^ Z.max n 0) <= 2 * P + 2 ^ Z.max n 0.
Proof.
  intros HP. destruct n as [|p|p]; cbn [shr fst snd].
  - cbn [shr_m shr_r shr_s loc_of_shr_record round_nearest_even].
    rewrite Z.max_r, Z.pow_0_r by lia. lia.
  - destruct (iter_shr_1 p (Build_shr_record P false false) HP)
      as [Hm Hr].
    cbn [shr_m] in Hm, Hr. rewrite Z.max_l by lia.
    set (R := iter_pos shr_1 p _) in *.
    assert (Hpow : 0 < 2 ^ Z.pos p) by (apply Z.pow_pos_nonneg; lia).
    assert (Hq : 0 <= P / 2 ^ Z.pos p) by (apply Z.div_pos; lia).
    pose proof (Z.mul_div_le P (2 ^ Z.pos p) Hpow) as Hle.
    split; [reflexivity|].
    destruct R as [q r s]. cbn [shr_m shr_r] in *. subst q.
    destruct r.
    + pose proof (odd_half P (Z.pos p) HP ltac:(lia) (eq_sym Hr)) as Hh.
      assert (round_nearest_even (P / 2 ^ Z.pos p)
                (loc_of_shr_record
                   (Build_shr_record (P / 2 ^ Z.pos p) true s))
              <= P / 2 ^ Z.pos p + 1
              /\ 0 <= round_nearest_even (P / 2 ^ Z.pos p)
                        (loc_of_shr_record
                           (Build_shr_record (P / 2 ^ Z.pos p) true s)))
        as [Hu Hl].
      { destruct s; cbn [round_nearest_even loc_of_shr_record]; [lia|].
        destruct (Z.even (P / 2 ^ Z.pos p)); lia. }
      split; [exact Hl|]. nia.
    + assert (round_nearest_even (P / 2 ^ Z.pos p)
                (loc_of_shr_record
                   (Build_shr_record (P / 2 ^ Z.pos p) false s))
              = P / 2 ^ Z.pos p) as ->
        by (destruct s; reflexivity).
      split; [exact Hq|]. nia.
  - cbn [shr_m shr_r shr_s loc_of_shr_record round_nearest_even].
    rewrite Z.max_r, Z.pow_0_r by lia. lia.
Qed.

(** The second shift only drops low bits. *)
Lemma shr_floor (m E n : Z) :
  0 <= m ->
  let R := fst (shr (Build_shr_record m false false) E n) in
  snd (shr (Build_shr_record m false false) E n) = E + Z.max n 0
  /\ 0 <= shr_m R
  /\ shr_m R * 2 ^ Z.max n 0 <= m.
Proof.
  intros Hm. destruct n as [|p|p]; cbn [shr fst snd].
  - cbn [shr_m]. rewrite Z.max_r, Z.pow_0_r by lia. lia.
  - destruct (iter_shr_1 p (Build_shr_record m false false) Hm)
      as [H _].
    cbn [shr_m] in H. rewrite H, Z.max_l by lia.
    assert (Hpow : 0 < 2 ^ Z.pos p) by (apply Z.pow_pos_nonneg; lia).
    split; [reflexivity|]. split; [apply Z.div_pos; lia|].
    rewrite Z.mul_comm. apply Z.mul_div_le. lia.
  - cbn [shr_m]. rewrite Z.max_r, Z.pow_0_r by lia. lia.
Qed.

(** [Math.floor] of a non-negative value [m * 2 ^ e], given as a bound on
    the mantissa scaled to a common exponent. *)
Lemma shiftl_below (m N E K : Z) :
  0 <= m -> 0 <= N -> E <= 0 ->
  m * 2 ^ N < K * 2 ^ (- E) ->
  0 <= Z.shiftl m (E + N) < K.
Proof.
  intros Hm HN HE Hlt.
  assert (HpN : 0 < 2 ^ N) by (apply Z.pow_pos_nonneg; lia).
  destruct (Z_le_gt_dec 0 (E + N)) as [Hs|Hs].
  - rewrite Z.shiftl_mul_pow2 by lia.
    assert (Hp : 0 < 2 ^ (E + N)) by (apply Z.pow_pos_nonneg; lia).
    assert (Hq : 0 < 2 ^ (- E)) by (apply Z.pow_pos_nonneg; lia).
    replace N with ((E + N) + (- E)) in Hlt at 1 by lia.
    rewrite Z.pow_add_r in Hlt by lia. nia.
  - rewrite Z.shiftl_div_pow2 by lia.
    assert (Hp : 0 < 2 ^ (- (E + N))) by (apply Z.pow_pos_nonneg; lia).
    split; [apply Z.div_pos; lia|].
    apply Z.div_lt_upper_bound; [lia|].
    replace (- E) with (N + - (E + N)) in Hlt by lia.
    rewrite Z.pow_add_r in Hlt by lia. nia.
Qed.

Lemma value_bound (m1 m2 A B P mx my X : Z) :
  0 <= m2 -> 0 < A -> 0 < B -> m2 * B <= m1 ->
  2 * (m1 * A) <= 2 * P + A -> P = mx * my -> mx + 1 <= X ->
  0 < my -> A < 2 * my ->
  m2 * (A * B) < my * X.
Proof.
  intros Hm2 HA HB H21 H1 HP HX Hmy HAy.
  assert (m2 * B * A <= m1 * A)
    by (apply Z.mul_le_mono_nonneg_r; lia).
  assert ((mx + 1) * my <= X * my)
    by (apply Z.mul_le_mono_nonneg_r; lia).
  lia.
Qed.

(** The shape of a float [r] with [0 <= r < 1]. *)
Lemma unit_interval (r : float) :
  (0 <=? r)%float = true -> (r <? 1)%float = true ->
  (exists s, Prim2SF r = S754_zero s)
  \/ (exists m e, Prim2SF r = S754_finite false m e
                  /\ -1074 <= e <= -53 /\ Z.pos m < 2 ^ 53).
Proof.
  rewrite leb_spec, ltb_spec. intros H0 H1.
  pose proof (Prim2SF_valid r) as Hv.
  change (Prim2SF 0) with (S754_zero false) in H0.
  change (Prim2SF 1) with (S754_finite false 4503599627370496 (-52)) in H1.
  destruct (Prim2SF r) as [s|s| |s m e].
  - left. now exists s.
  - destruct s; discriminate.
  - discriminate.
  - right. exists m, e.
    destruct s; [discriminate|]. split; [reflexivity|].
    cbn [valid_binary] in Hv. unfold bounded, canonical_mantissa in Hv.
    apply andb_prop in Hv. destruct Hv as [Hc _].
    apply Z.eqb_eq in Hc. unfold fexp, emin in Hc.
    change prec with 53 in Hc. change emax with 1024 in Hc.
    destruct (digits2_pos_bounds m) as [_ Hup].
    unfold SFltb, SFcompare in H1.
    destruct (Z.compare_spec e (-52)) as [He|He|He]; try discriminate.
    + subst e.
      assert (Hlt : (m < 4503599627370496)%positive).
      { unfold Pos.lt, Pos.compare.
        destruct (Pos.compare_cont Eq m 4503599627370496);
          [discriminate|reflexivity|discriminate]. }
      apply Pos2Z.pos_lt_pos in Hlt.
      assert (Hd : Z.pos (digits2_pos m) <= 52).
      { apply digits2_pos_le; [lia|].
        change (2 ^ 52) with 4503599627370496. exact Hlt. }
      lia.
    + assert (Hd : Z.pos (digits2_pos m) <= 53) by lia.
      split; [lia|].
      eapply Z.lt_le_trans; [exact Hup|].
      apply Z.pow_le_mono_r; lia.
Qed.

(** The product of a float in the unit interval with a float [K] of a
    full mantissa stays below [K]. *)
Lemma mul_below (mx my : positive) (ex ey K : Z) :
  -1074 <= ex <= -53 -> Z.pos mx < 2 ^ 53 ->
  2 ^ 52 <= Z.pos my < 2 ^ 53 -> -52 <= ey <= 0 ->
  Z.pos my = K * 2 ^ (- ey) ->
  SF64mul (S754_finite false mx ex) (S754_finite false my ey)
  = S754_zero false
  \/ exists m e,
       SF64mul (S754_finite false mx ex) (S754_finite false my ey)
       = S754_finite false m e
       /\ 0 <= Z.shiftl (Z.pos m) e < K.
Proof.
  intros Hex Hmx Hmy Hey HK.
  unfold SF64mul, SFmul. cbn [xorb]. unfold binary_round_aux.
  set (P := Z.pos (mx * my)). set (E := ex + ey).
  assert (HP : 0 <= P) by (subst P; lia).
  assert (HPv : P = Z.pos mx * Z.pos my) by (subst P; lia).
  unfold shr_fexp.
  set (n1 := fexp prec emax (Zdigits2 P + E) - E).
  pose proof (round_shr P E n1 HP) as H1. cbv zeta in H1.
  destruct (shr (shr_record_of_loc P loc_Exact) E n1) as [R1 e1] eqn:E1.
  change (shr_record_of_loc P loc_Exact)
    with (Build_shr_record P false false) in E1.
  rewrite E1 in H1. cbn [fst snd] in H1.
  set (m1 := round_nearest_even (shr_m R1) (loc_of_shr_record R1)) in *.
  destruct H1 as (He1 & Hm1 & Hb1).
  set (n2 := fexp prec emax (Zdigits2 m1 + e1) - e1).
  pose proof (shr_floor m1 e1 n2 Hm1) as H2. cbv zeta in H2.
  destruct (shr (shr_record_of_loc m1 loc_Exact) e1 n2) as [R2 e2] eqn:E2.
  change (shr_record_of_loc m1 loc_Exact)
    with (Build_shr_record m1 false false) in E2.
  rewrite E2 in H2. cbn [fst snd] in H2.
  destruct H2 as (He2 & Hm2 & Hb2).
  (* the shift amounts *)
  assert (HdP : Zdigits2 P <= 106 /\ (Zdigits2 P = 106 -> 2 ^ 105 <= P)).
  { subst P. cbn [Zdigits2].
    destruct (digits2_pos_bounds (mx * my)) as [Hlo _]. split.
    - apply digits2_pos_le; [lia|]. rewrite Pos2Z.inj_mul.
      change (2 ^ 106) with (2 ^ 53 * 2 ^ 53). nia.
    - intros Hd. rewrite Hd in Hlo.
      change (2 ^ 106) with (2 * 2 ^ 105) in Hlo. lia. }
  destruct HdP as [HdP HdP'].
  assert (Hn1 : 0 <= Z.max n1 0 <= 53
                /\ (Z.max n1 0 = 53 -> 2 ^ 105 <= P)).
  { subst n1 E. unfold fexp, emin. change prec with 53.
    change emax with 1024. split; [lia|]. intros Hn. apply HdP'. lia. }
  destruct Hn1 as [Hn1 Hn1'].
  assert (Hpow1 : 2 ^ Z.max n1 0 < 2 * Z.pos my).
  { destruct (Z.eq_dec (Z.max n1 0) 53) as [H53|H53].
    - rewrite H53. specialize (Hn1' H53). rewrite HPv in Hn1'.
      change (2 ^ 105) with (2 ^ 53 * 2 ^ 52) in Hn1'.
      change (2 ^ 53) with (2 * 2 ^ 52) at 1. nia.
    - assert (2 ^ Z.max n1 0 <= 2 ^ 52)
        by (apply Z.pow_le_mono_r; lia).
      lia. }
  assert (Hpos1 : 0 < 2 ^ Z.max n1 0) by (apply Z.pow_pos_nonneg; lia).
  assert (Hpos2 : 0 < 2 ^ Z.max n2 0) by (apply Z.pow_pos_nonneg; lia).
  assert (Hm1up : m1 < 2 ^ 107).
  { assert (P < 2 ^ 106).
    { rewrite HPv. change (2 ^ 106) with (2 ^ 53 * 2 ^ 53). nia. }
    assert (2 ^ Z.max n1 0 <= 2 ^ 53) by (apply Z.pow_le_mono_r; lia).
    change (2 ^ 107) with (2 * 2 ^ 106). nia. }
  assert (Hn2 : 0 <= Z.max n2 0 <= 54).
  { subst n2. unfold fexp, emin. change prec with 53.
    change emax with 1024.
    assert (Zdigits2 m1 <= 107).
    { destruct m1 as [|p|p]; cbn [Zdigits2]; try lia.
      apply digits2_pos_le; lia. }
    assert (-1074 <= e1).
    { rewrite He1. subst n1 E. unfold fexp, emin. change prec with 53.
      change emax with 1024. lia. }
    lia. }
  (* the value *)
  assert (Hval : shr_m R2 * 2 ^ (Z.max n1 0 + Z.max n2 0)
                 < K * 2 ^ (- E)).
  { assert (Hr : Z.pos mx + 1 <= 2 ^ (- ex)).
    { assert (2 ^ 53 <= 2 ^ (- ex)) by (apply Z.pow_le_mono_r; lia).
      lia. }
    assert (HKE : K * 2 ^ (- E) = Z.pos my * 2 ^ (- ex)).
    { subst E. replace (- (ex + ey)) with (- ey + - ex) by lia.
      rewrite Z.pow_add_r by lia. rewrite HK. ring. }
    rewrite HKE, Z.pow_add_r by lia.
    apply (value_bound m1 (shr_m R2) (2 ^ Z.max n1 0) (2 ^ Z.max n2 0)
             P (Z.pos mx) (Z.pos my) (2 ^ (- ex))); lia. }
  assert (He2' : e2 = E + (Z.max n1 0 + Z.max n2 0)) by lia.
  destruct (shr_m R2) as [|m|m] eqn:Em; [now left| |lia].
  right. exists m, e2.
  assert (Hov : (e2 <=? emax - prec) = true).
  { apply Z.leb_le. change emax with 1024. change prec with 53.
    subst E. lia. }
  rewrite Hov. split; [reflexivity|].
  rewrite He2'. apply shiftl_below; subst E; lia.
Qed.

(** [Math.floor(r * K)] for a draw [r] of [Math.random()] and a whole
    [K] from 1 to 5 is a whole number from 0 to [K - 1]. *)
Lemma floor_scaled_draw (r : float) (K : Z) :
  (0 <=? r)%float = true -> (r <? 1)%float = true ->
  1 <= K <= 5 ->
  exists k, floorZ (r * Z2f K)%float = Some k /\ 0 <= k < K.
Proof.
  intros H0 H1 HK. unfold floorZ. rewrite mul_spec.
  assert (Hy : exists my ey,
             Prim2SF (Z2f K) = S754_finite false my ey
             /\ 2 ^ 52 <= Z.pos my < 2 ^ 53 /\ -52 <= ey <= 0
             /\ Z.pos my = K * 2 ^ (- ey)).
  { assert (HK' : K = 1 \/ K = 2 \/ K = 3 \/ K = 4 \/ K = 5) by lia.
    destruct HK' as [->|[->|[->|[->| ->]]]];
      eexists; eexists; (split; [vm_compute; reflexivity|]);
      vm_compute; repeat split; congruence. }
  destruct Hy as (my & ey & Hy & Hmy & Hey & HKy). rewrite Hy.
  destruct (unit_interval r H0 H1)
    as [[s Hr]|(mx & ex & Hr & Hex & Hmx)]; rewrite Hr.
  - exists 0. cbn. split; [reflexivity|lia].
  - destruct (mul_below mx my ex ey K Hex Hmx Hmy Hey HKy)
      as [Hz|(m & e & Hm & Hb)].
    + rewrite Hz. exists 0. split; [reflexivity|lia].
    + rewrite Hm. eexists. split; [reflexivity|exact Hb].
Qed.

End Binary64.

(** * The page with armoured enemies *)

Module TD1Facts.
Import TD1.

Lemma TowerType_eqb_eq a b : TowerType_eqb a b = true <-> a = b.
Proof. destruct a, b; simpl; split; intros H; congruence. Qed.

Lemma MapKey_eqb_eq a b : MapKey_eqb a b = true <-> a = b.
Proof. destruct a, b; simpl; split; intros H; congruence. Qed.

(** ** Combat *)

Lemma hit_fst tower target e s :
  fst (hit tower target e s) = struck tower target e.
Proof. unfold hit, struck. now destruct (String.eqb _ _). Qed.

Lemma attack_none tower s :
  filter (inRange tower) (enemies s) = [] -> attack tower s = s.
Proof. intros H. unfold attack. now rewrite H. Qed.

Lemma attack_enemies tower s target rest :
  filter (inRange tower) (enemies s) = target :: rest ->
  enemies (attack tower s)
  = filter alive (map (struck tower target) (enemies s)).
Proof.
  intros H. unfold attack. rewrite H.
  pose proof (mapS_fst_map (hit tower target) (struck tower target)
                (hit_fst tower target) (enemies s) s) as Hm.
  destruct (mapS (hit tower target) (enemies s) s) as [l s'].
  simpl in *. now subst.
Qed.


(** ** Lives *)

Lemma hit_controls tower target e s0 s :
  sameControls s0 s -> sameControls s0 (snd (hit tower target e s)).
Proof.
  unfold hit. destruct (String.eqb _ _); [|exact (fun H => H)].
  simpl. destruct (_ <=? 0); exact (fun H => H).
Qed.

Lemma hit_outcome tower target e s0 s :
  sameOutcome s0 s -> sameOutcome s0 (snd (hit tower target e s)).
Proof.
  unfold hit. destruct (String.eqb _ _); [|exact (fun H => H)].
  simpl. destruct (_ <=? 0); exact (fun H => H).
Qed.

Lemma hit_towers tower target e s :
  towers (snd (hit tower target e s)) = towers s.
Proof.
  unfold hit. destruct (String.eqb _ _); [|reflexivity].
  simpl. now destruct (_ <=? 0).
Qed.

Lemma attack_controls tower s0 s :
  sameControls s0 s -> sameControls s0 (attack tower s).
Proof.
  intros H. unfold attack.
  destruct (filter _ _) as [|target rest]; [exact H|].
  pose proof (mapS_world_ind (hit tower target) (sameControls s0)
                (fun e w => hit_controls tower target e s0 w)
                (enemies s) s H) as Hm.
  destruct (mapS _ _ _) as [l s']. exact Hm.
Qed.

Lemma attack_outcome tower s0 s :
  sameOutcome s0 s -> sameOutcome s0 (attack tower s).
Proof.
  intros H. unfold attack.
  destruct (filter _ _) as [|target rest]; [exact H|].
  pose proof (mapS_world_ind (hit tower target) (sameOutcome s0)
                (fun e w => hit_outcome tower target e s0 w)
                (enemies s) s H) as Hm.
  destruct (mapS _ _ _) as [l s']. exact Hm.
Qed.

Lemma fire_controls now tower s0 s :
  sameControls s0 s -> sameControls s0 (snd (fire now tower s)).
Proof.
  unfold fire. destruct (_ <? _); simpl; [exact (fun H => H)|].
  apply attack_controls.
Qed.

Lemma fire_outcome now tower s0 s :
  sameOutcome s0 s -> sameOutcome s0 (snd (fire now tower s)).
Proof.
  unfold fire. destruct (_ <? _); simpl; [exact (fun H => H)|].
  apply attack_outcome.
Qed.

Lemma fireTowers_controls now s0 s :
  sameControls s0 s -> sameControls s0 (fireTowers now s).
Proof.
  intros H. unfold fireTowers.
  pose proof (mapS_world_ind (fire now) (sameControls s0)
                (fun t w => fire_controls now t s0 w) (towers s) s H) as Hm.
  destruct (mapS _ _ _) as [l s']. exact Hm.
Qed.

Lemma fireTowers_outcome now s0 s :
  sameOutcome s0 s -> sameOutcome s0 (fireTowers now s).
Proof.
  intros H. unfold fireTowers.
  pose proof (mapS_world_ind (fire now) (sameOutcome s0)
                (fun t w => fire_outcome now t s0 w) (towers s) s H) as Hm.
  destruct (mapS _ _ _) as [l s']. exact Hm.
Qed.

Lemma sameControls_refl s : sameControls s s.
Proof. repeat split. Qed.

Lemma sameOutcome_refl s : sameOutcome s s.
Proof. repeat split. Qed.

Lemma moveEnemy_controls path e s0 s :
  sameControls s0 s -> sameControls s0 (snd (moveEnemy path e s)).
Proof.
  intros H. unfold moveEnemy.
  destruct (nth_error _ _); [|exact H].
  destruct (_ <? _)%float; [|exact H].
  destruct (_ <? _)%nat; [exact H|].
  simpl. unfold loseLife. destruct (_ <=? 0); exact H.
Qed.

Lemma moveEnemies_controls path s : sameControls s (moveEnemies path s).
Proof.
  unfold moveEnemies.
  pose proof (mapS_world_ind (moveEnemy path) (sameControls s)
                (fun e w => moveEnemy_controls path e s w)
                (enemies s) s (sameControls_refl s)) as Hm.
  destruct (mapS _ _ _) as [l s']. exact Hm.
Qed.

Lemma gameLoop_controls now s : sameControls s (gameLoop now s).
Proof.
  unfold gameLoop. apply fireTowers_controls, moveEnemies_controls.
Qed.

Lemma moveEnemy_lives path e s :
  lives (snd (moveEnemy path e s))
  = lives s + (if completesPath path e then -1 else 0).
Proof.
  unfold moveEnemy, completesPath, loseLife.
  destruct (nth_error _ _); [|simpl; lia].
  destruct (_ <? _)%float; [|simpl; lia].
  destruct (_ <? _)%nat; [simpl; lia|].
  destruct (lives s - 1 <=? 0); simpl; lia.
Qed.

Lemma sum_indicator {A} (p : A -> bool) l :
  fold_right Z.add 0 (map (fun a => if p a then -1 else 0) l)
  = - Z.of_nat (length (filter p l)).
Proof.
  induction l as [|a l IH]; simpl; [reflexivity|].
  destruct (p a); simpl length; lia.
Qed.

Lemma moveEnemies_lives path s :
  lives (moveEnemies path s)
  = lives s - Z.of_nat (length (filter (completesPath path) (enemies s))).
Proof.
  unfold moveEnemies.
  pose proof (mapS_world_sum (moveEnemy path) lives
                (fun e => if completesPath path e then -1 else 0)
                (moveEnemy_lives path) (enemies s) s) as Hm.
  rewrite sum_indicator in Hm.
  destruct (mapS _ _ _) as [l s']. simpl in *. lia.
Qed.

Lemma moveEnemy_defeat path e s0 s :
  lives s <= lives s0 /\ defeatRaised s0 s ->
  lives (snd (moveEnemy path e s)) <= lives s0
  /\ defeatRaised s0 (snd (moveEnemy path e s)).
Proof.
  intros [Hle Hd]. unfold moveEnemy.
  destruct (nth_error _ _); [|now split].
  destruct (_ <? _)%float; [|now split].
  destruct (_ <? _)%nat; [now split|].
  simpl. unfold loseLife, defeatRaised.
  destruct (lives s - 1 <=? 0) eqn:E; simpl; (split; [lia|]).
  - intros _ _. now split.
  - apply Z.leb_gt in E. intros _ H. lia.
Qed.

Lemma moveEnemies_defeat path s :
  defeatRaised s (moveEnemies path s).
Proof.
  unfold moveEnemies.
  pose proof (mapS_world_ind (moveEnemy path)
                (fun w => lives w <= lives s /\ defeatRaised s w)
                (fun e w => moveEnemy_defeat path e s w) (enemies s) s)
    as Hm.
  destruct (mapS _ _ _) as [l s']. simpl in *.
  apply Hm. split; [lia|]. intros H. lia.
Qed.

Lemma gameLoop_lives now s :
  lives (gameLoop now s) = lives s - completions s.
Proof.
  unfold gameLoop, completions.
  destruct (fireTowers_outcome now _ _
              (sameOutcome_refl (moveEnemies (currentPath s) s)))
    as [Hl _].
  rewrite Hl. apply moveEnemies_lives.
Qed.

Lemma gameLoop_defeat now s : defeatRaised s (gameLoop now s).
Proof.
  unfold gameLoop.
  destruct (fireTowers_outcome now _ _
              (sameOutcome_refl (moveEnemies (currentPath s) s)))
    as [Hl [Hg Hp]].
  pose proof (moveEnemies_defeat (currentPath s) s) as Hd.
  unfold defeatRaised in *. rewrite Hl, Hg, Hp. exact Hd.
Qed.

Lemma frame_stopped now s :
  isPlaying s = false \/ gameOver s = true -> frame now s = s.
Proof.
  unfold frame.
  intros [H|H]; rewrite H; simpl; [reflexivity|].
  now rewrite orb_true_r.
Qed.

Lemma frames_stopped nows s :
  isPlaying s = false \/ gameOver s = true -> frames nows s = s.
Proof.
  intros H. unfold frames.
  induction nows as [|now nows IH]; simpl; [reflexivity|].
  now rewrite frame_stopped.
Qed.

Lemma completions_nonneg s : 0 <= completions s.
Proof. unfold completions. lia. Qed.

Lemma frame_lives_le now s : lives (frame now s) <= lives s.
Proof.
  unfold frame. destruct (_ || _); [lia|].
  rewrite gameLoop_lives. pose proof (completions_nonneg s). lia.
Qed.

Lemma frames_lives_le nows : forall s, lives (frames nows s) <= lives s.
Proof.
  unfold frames.
  induction nows as [|now nows IH]; intros s; simpl; [lia|].
  specialize (IH (frame now s)). pose proof (frame_lives_le now s). lia.
Qed.


(** C3, as the code has it: one run of the game loop takes exactly one
    life per enemy that completes the path, so lives never increase over
    any run of frames; the run that brings lives from above zero to zero
    or below sets [gameOver] and clears [isPlaying]; and once the game is
    over no frame changes anything, so no further life is lost.  (Lives
    may end below zero: several enemies can complete the path in the same
    run.) *)
Theorem lives_conservation (nows : list Z) (now : Z) (s : World) :
  lives (gameLoop now s) = lives s - completions s
  /\ lives (frames nows s) <= lives s
  /\ (0 < lives s -> lives (gameLoop now s) <= 0 ->
      gameOver (gameLoop now s) = true
      /\ isPlaying (gameLoop now s) = false)
  /\ (gameOver s = true -> frames nows s = s).
Proof.
  split; [apply gameLoop_lives|].
  split; [apply frames_lives_le|].
  split.
  - intros Hpos Hle. apply (gameLoop_defeat now s); lia.
  - intros H. apply frames_stopped. now right.
Qed.

Lemma lives_conservation_witness :
  gameOver (gameLoop 1000 lastLife) = true
  /\ isPlaying (gameLoop 1000 lastLife) = false.
Proof.
  destruct (lives_conservation [] 1000 lastLife) as (_ & _ & H & _).
  apply H; [reflexivity | vm_compute; discriminate].
Defined.

(** In the undefended session the 739th frame after the resume leaves one
    life, and the next frame, in which both copies of an enemy of wave 2
    arrive, leaves minus one. *)
Lemma lives_negative :
  option_map lives (run (undefended None 739) initial) = Some 1
  /\ option_map lives (run (undefended None 740) initial) = Some (-1).
Proof. split; vm_compute; reflexivity. Qed.

(** ** Recording *)

Lemma unlockNextMap_saved s : saved (unlockNextMap s) = saved s.
Proof.
  unfold unlockNextMap. destruct (_ <? _); [|reflexivity].
  destruct (nth_error _ _); [|reflexivity].
  now destruct (negb _).
Qed.

Lemma unlockNextMap_flags s :
  victory (unlockNextMap s) = victory s
  /\ gameOver (unlockNextMap s) = gameOver s
  /\ isPlaying (unlockNextMap s) = isPlaying s
  /\ xpEarned (unlockNextMap s) = xpEarned s.
Proof.
  unfold unlockNextMap. destruct (_ <? _); [|now repeat split].
  destruct (nth_error _ _); [|now repeat split].
  destruct (negb _); now repeat split.
Qed.

Lemma handleVictory_flags address session s :
  victory (handleVictory address session s) = true
  /\ gameOver (handleVictory address session s) = true
  /\ isPlaying (handleVictory address session s) = false
  /\ xpEarned (handleVictory address session s)
     = xpEarned s + 150 + wave s * 15.
Proof.
  unfold handleVictory. cbn [victory gameOver isPlaying xpEarned set_saved].
  destruct (unlockNextMap_flags
              (set_xpEarned (xpEarned s + 150 + wave s * 15)
                 (set_victory true
                    (set_gameOver true (set_isPlaying false s)))))
    as (-> & -> & -> & ->).
  now repeat split.
Qed.

Lemma handleVictory_saved address session s :
  saved (handleVictory address session s)
  = saved s ++ saveVictory address session
                 (xpEarned s + 150 + wave s * 15) s.
Proof.
  unfold handleVictory. cbn [saved set_saved].
  now rewrite unlockNextMap_saved.
Qed.

Lemma saveVictory_sessions address session xp s :
  length (filter isSessionRow (saveVictory address session xp s))
  = if truthy address then 1%nat else 0%nat.
Proof.
  unfold saveVictory. destruct address as [a|]; [|reflexivity].
  destruct (truthy (Some a)); [|reflexivity].
  now destruct session.
Qed.

Lemma saveVictory_win address session xp s i :
  In i (saveVictory address session xp s) ->
  match i with
  | game_sessions row => result row = "win"%string
  | tower_defense_games row => game_result row = "win"%string
  end.
Proof.
  unfold saveVictory. destruct address as [a|]; [|intros []].
  destruct (truthy (Some a)); [|intros []].
  destruct session; simpl; intros H;
    repeat (destruct H as [<-|H]; [reflexivity|]); destruct H.
Qed.

Lemma waveCompletion_victory address session s :
  lastWaveCleared s ->
  waveCompletion address session s = handleVictory address session s.
Proof.
  intros (Hp & He & Hw & Hl). unfold waveCompletion.
  rewrite Hp, He. simpl.
  apply Z.ltb_lt in Hw. apply Z.leb_le in Hl. now rewrite Hw, Hl.
Qed.

Lemma waveCompletion_stopped address session s :
  isPlaying s = false -> waveCompletion address session s = s.
Proof. intros H. unfold waveCompletion. now rewrite H. Qed.

Lemma frame_saved now s : saved (frame now s) = saved s.
Proof.
  unfold frame. destruct (_ || _); [reflexivity|].
  apply (gameLoop_controls now s).
Qed.

(** C2, as the code has it: the victory that the wave-completion effect
    declares sends exactly one session summary, with result "win", when a
    wallet address is present and none when it is absent, and the effect
    then does nothing until the game is reset; the game loop, which is
    where a defeat is declared, sends nothing at all. *)
Theorem session_recorded_on_victory_only
  (address : option string) (session : bool) (now : Z) (s : World) :
  (lastWaveCleared s ->
   let s' := waveCompletion address session s in
   recordings s'
   = (recordings s + if truthy address then 1 else 0)%nat
   /\ (forall i, In i (saved s') -> In i (saved s) \/
         match i with
         | game_sessions row => result row = "win"%string
         | tower_defense_games row => game_result row = "win"%string
         end)
   /\ waveCompletion address session s' = s')
  /\ saved (frame now s) = saved s.
Proof.
  split; [|apply frame_saved].
  intros Hc. rewrite (waveCompletion_victory _ _ _ Hc). cbv zeta.
  split; [|split].
  - unfold recordings. rewrite handleVictory_saved, filter_app, length_app.
    now rewrite saveVictory_sessions.
  - intros i. rewrite handleVictory_saved, in_app_iff.
    intros [H|H]; [now left | right].
    exact (saveVictory_win _ _ _ _ _ H).
  - apply waveCompletion_stopped. apply handleVictory_flags.
Qed.

Lemma session_recorded_witness :
  recordings (waveCompletion (Some "0xA11CE"%string) true (cleared 35))
  = 1%nat.
Proof.
  destruct (session_recorded_on_victory_only
              (Some "0xA11CE"%string) true 1000 (cleared 35)) as [H _].
  assert (Hc : lastWaveCleared (cleared 35)).
  { unfold lastWaveCleared. simpl. repeat split; lia. }
  destruct (H Hc) as [H1 _]. exact H1.
Defined.

(** The undefended session played with a wallet connected ends in
    defeat, and nothing has been sent to the backend, also after the
    wave-completion effect has run on the final state. *)
Lemma defeat_not_recorded :
  option_map (fun s => (gameOver s, victory s, lives s, saved s))
    (run (undefended (Some "0xA11CE"%string) 740
          ++ [WaveCompletionEffect (Some "0xA11CE"%string) true])
       initial)
  = Some (true, false, -1, []).
Proof. vm_compute. reflexivity. Qed.

(** ** The wave-advance timeout *)

(** C7, as the code has it: a reset returns the session to wave 0, not
    playing, with an empty board, but leaves the pending wave-advance
    timeouts pending; a timeout that fires adds one to the wave whatever
    the state it finds. *)
Theorem reset_keeps_timeouts (s : World) :
  (wave (resetGame s) = 0 /\ isPlaying (resetGame s) = false
   /\ gameOver (resetGame s) = false /\ enemies (resetGame s) = []
   /\ towers (resetGame s) = [] /\ timers (resetGame s) = timers s)
  /\ (forall n, timers s = S n ->
      exists s', handle TimeoutFires s = Some s'
                 /\ wave s' = wave s + 1 /\ timers s' = n).
Proof.
  split; [now repeat split|].
  intros n Hn. simpl. rewrite Hn.
  eexists. split; [reflexivity|]. now split.
Qed.

Lemma reset_keeps_timeouts_witness :
  exists s', handle TimeoutFires (set_timers 1 initial) = Some s'
             /\ wave s' = wave (set_timers 1 initial) + 1
             /\ timers s' = 0%nat.
Proof.
  destruct (reset_keeps_timeouts (set_timers 1 initial)) as [_ H].
  apply H. reflexivity.
Defined.

(** The player starts a game and resets it before the timeout scheduled
    at the start has fired: the reset leaves wave 0, and the timeout then
    makes it wave 1. *)
Lemma stale_timeout_advances_wave :
  option_map wave
    (run [ClickStart; WaveCompletionEffect None true; SpawnEffect half;
          ClickReset] initial) = Some 0
  /\ option_map (fun s => (wave s, isPlaying s))
       (run [ClickStart; WaveCompletionEffect None true; SpawnEffect half;
             ClickReset; TimeoutFires] initial) = Some (1, false).
Proof. split; vm_compute; reflexivity. Qed.

(** ** Gold *)

Lemma hit_gold tower target e s :
  gold (snd (hit tower target e s))
  = gold s + (if slain tower target e then Enemy.reward e else 0).
Proof.
  unfold hit, slain. destruct (String.eqb _ _); simpl; [|lia].
  destruct (_ <=? 0); simpl; lia.
Qed.

Lemma rewards_filter (p : Enemy.t -> bool) l :
  fold_right Z.add 0 (map (fun e => if p e then Enemy.reward e else 0) l)
  = rewards (filter p l).
Proof.
  unfold rewards. induction l as [|e l IH]; simpl; [reflexivity|].
  destruct (p e); simpl; lia.
Qed.

Lemma rewards_app l1 l2 : rewards (l1 ++ l2) = rewards l1 + rewards l2.
Proof.
  unfold rewards. induction l1 as [|e l1 IH]; simpl; lia.
Qed.

Lemma attack_gold tower s :
  gold (attack tower s) = gold s + rewards (killedBy tower s).
Proof.
  unfold attack, killedBy.
  destruct (filter _ _) as [|target rest]; [unfold rewards; simpl; lia|].
  pose proof (mapS_world_sum (hit tower target) gold
                (fun e => if slain tower target e then Enemy.reward e else 0)
                (hit_gold tower target) (enemies s) s) as Hm.
  rewrite rewards_filter in Hm.
  destruct (mapS _ _ _) as [l s']. exact Hm.
Qed.

Lemma attack_towers tower s : towers (attack tower s) = towers s.
Proof.
  unfold attack. destruct (filter _ _) as [|target rest]; [reflexivity|].
  pose proof (mapS_world_ind (hit tower target)
                (fun w => towers w = towers s)
                (fun e w H => eq_trans (hit_towers tower target e w) H)
                (enemies s) s eq_refl) as Hm.
  destruct (mapS _ _ _) as [l s']. exact Hm.
Qed.

Lemma fire_all_gold now ts : forall s,
  gold (snd (mapS (fire now) ts s))
  = gold s + rewards (killedByTowers now ts s).
Proof.
  induction ts as [|t ts IH]; intros s; simpl; [unfold rewards; simpl; lia|].
  unfold fire at 1.
  destruct (now - Tower.lastFired t <? Tower.fireRate t).
  - specialize (IH s). destruct (mapS _ ts s). simpl in *. exact IH.
  - specialize (IH (attack t s)). destruct (mapS _ ts (attack t s)).
    simpl in *. rewrite IH, attack_gold, rewards_app. lia.
Qed.

Lemma fire_type now t s :
  Tower.type (fst (fire now t s)) = Tower.type t
  /\ Tower.x (fst (fire now t s)) = Tower.x t
  /\ Tower.y (fst (fire now t s)) = Tower.y t
  /\ Tower.damage (fst (fire now t s)) = Tower.damage t.
Proof. unfold fire. destruct (_ <? _); now repeat split. Qed.

Lemma fire_all_costs now ts : forall s,
  towerCosts (fst (mapS (fire now) ts s)) = towerCosts ts.
Proof.
  induction ts as [|t ts IH]; intros s; simpl; [reflexivity|].
  pose proof (fire_type now t s) as [Ht _].
  destruct (fire now t s) as [t' s1]. specialize (IH s1).
  destruct (mapS _ ts s1). unfold towerCosts in *. simpl in *.
  now rewrite Ht, IH.
Qed.

Lemma moveEnemy_gold path e s :
  gold (snd (moveEnemy path e s)) = gold s
  /\ towers (snd (moveEnemy path e s)) = towers s.
Proof.
  unfold moveEnemy, loseLife.
  destruct (nth_error _ _); [|now split].
  destruct (_ <? _)%float; [|now split].
  destruct (_ <? _)%nat; [now split|].
  destruct (lives s - 1 <=? 0); now split.
Qed.

Lemma moveEnemies_gold path s :
  gold (moveEnemies path s) = gold s
  /\ towers (moveEnemies path s) = towers s.
Proof.
  unfold moveEnemies.
  pose proof (mapS_world_ind (moveEnemy path)
                (fun w => gold w = gold s /\ towers w = towers s)) as Hm.
  specialize (Hm (fun e w H =>
    conj (eq_trans (proj1 (moveEnemy_gold path e w)) (proj1 H))
         (eq_trans (proj2 (moveEnemy_gold path e w)) (proj2 H)))).
  specialize (Hm (enemies s) s (conj eq_refl eq_refl)).
  destruct (mapS _ _ _) as [l s']. exact Hm.
Qed.

Lemma gameLoop_gold now s :
  gold (gameLoop now s)
  = gold s
    + rewards (killedByTowers now
                 (towers (moveEnemies (currentPath s) s))
                 (moveEnemies (currentPath s) s)).
Proof.
  unfold gameLoop, fireTowers.
  destruct (moveEnemies_gold (currentPath s) s) as [Hg _].
  pose proof (fire_all_gold now (towers (moveEnemies (currentPath s) s))
                (moveEnemies (currentPath s) s)) as Hm.
  destruct (mapS _ _ _) as [l s']. simpl in *.
  rewrite Hm, Hg. reflexivity.
Qed.

Lemma gameLoop_towerCosts now s :
  towerCosts (towers (gameLoop now s)) = towerCosts (towers s).
Proof.
  unfold gameLoop, fireTowers.
  destruct (moveEnemies_gold (currentPath s) s) as [_ Ht].
  pose proof (fire_all_costs now (towers (moveEnemies (currentPath s) s))
                (moveEnemies (currentPath s) s)) as Hm.
  destruct (mapS _ _ _) as [l s']. simpl in *. now rewrite Hm, Ht.
Qed.

Lemma towerCosts_app l1 l2 :
  towerCosts (l1 ++ l2) = towerCosts l1 + towerCosts l2.
Proof. unfold towerCosts. induction l1; simpl; lia. Qed.

Lemma unlockFees_app l1 l2 :
  unlockFees (l1 ++ l2) = unlockFees l1 + unlockFees l2.
Proof. unfold unlockFees. induction l1; simpl; lia. Qed.

Lemma placeTower_holdings x y now s :
  holdings (placeTower x y now s) = holdings s.
Proof.
  unfold placeTower, holdings.
  destruct (selectedTower s) as [k|]; [|reflexivity].
  destruct (negb _); [reflexivity|].
  destruct (_ <? _); [reflexivity|].
  destruct (existsb _ _); [reflexivity|].
  simpl. rewrite towerCosts_app. unfold towerCosts at 2. simpl. lia.
Qed.

Lemma unlockTower_holdings k s :
  holdings (unlockTower k s) = holdings s.
Proof.
  unfold unlockTower, holdings. destruct (_ <=? _); [|reflexivity].
  simpl. rewrite unlockFees_app. unfold unlockFees at 2. simpl. lia.
Qed.

Lemma unlockNextMap_holdings s : holdings (unlockNextMap s) = holdings s.
Proof.
  unfold unlockNextMap. destruct (_ <? _); [|reflexivity].
  destruct (nth_error _ _); [|reflexivity].
  now destruct (negb _).
Qed.

Lemma handle_holdings ev s s' :
  resets ev = false -> handle ev s = Some s' ->
  holdings s' = holdings s + rewards (killedIn ev s).
Proof.
  assert (Z0 : forall z, z = z + rewards []) by (intros z; unfold rewards; simpl; lia).
  destruct ev; simpl; intros Hr Hs; try discriminate Hr;
    try (injection Hs as <-).
  - destruct (includes _ _ _); apply Z0.
  - destruct (includes _ _ _); [apply Z0|].
    rewrite unlockTower_holdings. apply Z0.
  - destruct (placementMode s); [|apply Z0].
    rewrite placeTower_holdings. apply Z0.
  - destruct (_ && _); apply Z0.
  - destruct (isPlaying s); apply Z0.
  - destruct (_ && _); apply Z0.
  - unfold frame. destruct (_ || _); [apply Z0|].
    unfold holdings.
    rewrite gameLoop_gold, gameLoop_towerCosts.
    destruct (gameLoop_controls now s) as (_ & _ & _ & _ & -> & _). lia.
  - unfold waveCompletion. destruct (_ && _); [|apply Z0].
    destruct (_ <=? _); [|apply Z0].
    unfold handleVictory.
    transitivity (holdings
      (unlockNextMap
         (set_xpEarned (xpEarned s + 150 + wave s * 15)
            (set_victory true
               (set_gameOver true (set_isPlaying false s)))))).
    + reflexivity.
    + rewrite unlockNextMap_holdings. apply Z0.
  - unfold spawnEffect, spawnWave in Hs. destruct (_ && _).
    + destruct (newEnemies _ _ _); [|discriminate].
      injection Hs as <-. apply Z0.
    + injection Hs as <-. apply Z0.
  - destruct (timers s); injection Hs as <-; apply Z0.
Qed.

Lemma run_holdings evs : forall s s',
  oneSession evs -> run evs s = Some s' ->
  holdings s' = holdings s + bounty evs s.
Proof.
  unfold oneSession.
  induction evs as [|ev evs IH]; intros s s' Ho Hr; simpl in *.
  - injection Hr as <-. lia.
  - apply andb_prop in Ho as [Hev Ho]. apply negb_true_iff in Hev.
    destruct (handle ev s) as [s1|] eqn:E; [|discriminate].
    rewrite (IH s1 s' Ho Hr), (handle_holdings ev s s1 Hev E). lia.
Qed.

(** C4, as the code has it: within one session (no reset, no change of
    map) the gold in hand is the initial 250, minus the catalogue cost of
    every tower placed, minus the unlock price of every tower type
    unlocked, plus the reward of every enemy killed; a placement that
    costs more than the gold in hand changes nothing, and a placement
    never makes gold negative. *)
Theorem gold_conservation (evs : list Event) (s : World)
  (x y : float) (now : Z) :
  (oneSession evs -> run evs initial = Some s ->
   gold s = gold initial - towerCosts (towers s)
            - (unlockFees (unlockedTowers s)
               - unlockFees (unlockedTowers initial))
            + bounty evs initial)
  /\ (forall k, selectedTower s = Some k ->
      gold s < cost (TOWER_TYPES k) -> placeTower x y now s = s)
  /\ (0 <= gold s -> 0 <= gold (placeTower x y now s)).
Proof.
  split; [|split].
  - intros Ho Hr. pose proof (run_holdings evs initial s Ho Hr) as H.
    assert (Hi : holdings initial = 700) by reflexivity.
    assert (Hf : unlockFees (unlockedTowers initial) = 450) by reflexivity.
    assert (Hg : gold initial = 250) by reflexivity.
    rewrite Hi in H. rewrite Hf, Hg. unfold holdings in H. lia.
  - intros k Hk Hg. unfold placeTower. rewrite Hk.
    destruct (negb _); [reflexivity|].
    apply Z.ltb_lt in Hg. now rewrite Hg.
  - intros Hg. unfold placeTower.
    destruct (selectedTower s) as [k|]; [|exact Hg].
    destruct (negb _); [exact Hg|].
    destruct (gold s <? cost (TOWER_TYPES k)) eqn:E; [exact Hg|].
    destruct (existsb _ _); [exact Hg|].
    apply Z.ltb_ge in E. simpl. lia.
Qed.

Lemma gold_conservation_witness :
  match run (skirmish 200) initial with
  | Some s => gold s = 212 /\ bounty (skirmish 200) initial = 12
              /\ towerCosts (towers s) = 50
  | None => False
  end.
Proof.
  destruct (run (skirmish 200) initial) as [s|] eqn:E;
    [|vm_compute in E; discriminate E].
  destruct (gold_conservation (skirmish 200) s 0 0 0) as [H _].
  assert (Hs : oneSession (skirmish 200)) by (vm_compute; reflexivity).
  specialize (H Hs E).
  assert (Hb : bounty (skirmish 200) initial = 12)
    by (vm_compute; reflexivity).
  assert (Ht : option_map (fun s => towerCosts (towers s))
                 (run (skirmish 200) initial) = Some 50)
    by (vm_compute; reflexivity).
  assert (Hu : option_map unlockedTowers (run (skirmish 200) initial)
               = Some (unlockedTowers initial))
    by (vm_compute; reflexivity).
  rewrite E in Ht, Hu. simpl in Ht, Hu.
  injection Ht as Ht. injection Hu as Hu.
  rewrite Hb, Ht, Hu in H. split; [|split]; [|exact Hb|exact Ht].
  rewrite H. reflexivity.
Defined.

(** Unlocking the barracks from the initial state is one session without
    a tower bought or an enemy killed, and leaves 10 gold, not 250. *)
Lemma unlock_spends_gold :
  oneSession [ClickUnlock barracks]
  /\ option_map
       (fun s => (gold s,
                  gold initial - towerCosts (towers s)
                  + bounty [ClickUnlock barracks] initial))
       (run [ClickUnlock barracks] initial)
     = Some (10, 250).
Proof. split; vm_compute; reflexivity. Qed.

(** ** Placement *)

Lemma existsb_forallb_negb {A} (p : A -> bool) l :
  existsb p l = false -> forallb (fun a => negb (p a)) l = true.
Proof.
  induction l as [|a l IH]; simpl; [reflexivity|].
  destruct (p a); simpl; [discriminate|exact IH].
Qed.

Lemma fire_all_Forall (Q : Tower.t -> Prop) now :
  (forall t v, Q t -> Q (with_lastFired v t)) ->
  forall ts s, Forall Q ts -> Forall Q (fst (mapS (fire now) ts s)).
Proof.
  intros HQ. apply mapS_Forall. intros t w Ht. unfold fire.
  destruct (_ <? _); simpl; [exact Ht|now apply HQ].
Qed.

Lemma gameLoop_towers_Forall (Q : Tower.t -> Prop) now s :
  (forall t v, Q t -> Q (with_lastFired v t)) ->
  Forall Q (towers s) -> Forall Q (towers (gameLoop now s)).
Proof.
  intros HQ H. unfold gameLoop, fireTowers.
  destruct (moveEnemies_gold (currentPath s) s) as [_ Ht].
  pose proof (fire_all_Forall Q now HQ
                (towers (moveEnemies (currentPath s) s))
                (moveEnemies (currentPath s) s)) as Hm.
  rewrite <- Ht in H. specialize (Hm H).
  destruct (mapS _ _ _) as [l s']. exact Hm.
Qed.

Lemma unlockNextMap_board s :
  towers (unlockNextMap s) = towers s
  /\ currentMap (unlockNextMap s) = currentMap s.
Proof.
  unfold unlockNextMap. destruct (_ <? _); [|now split].
  destruct (nth_error _ _); [|now split].
  destruct (negb _); now split.
Qed.

Lemma selectTower_towersClear key s :
  towersClear s ->
  towersClear (set_placementMode true (set_selectedTower (Some key) s)).
Proof. exact (fun H => H). Qed.

Lemma unlockTower_towersClear key s :
  towersClear s -> towersClear (unlockTower key s).
Proof. intros H. unfold unlockTower. now destruct (_ <=? _). Qed.

Lemma placeTower_towersClear x y now s :
  towersClear s -> towersClear (placeTower x y now s).
Proof.
  unfold towersClear, currentPath, currentMapData. intros H.
  unfold placeTower. destruct (selectedTower s) as [k|]; [|exact H].
  destruct (negb _); [exact H|].
  destruct (_ <? _); [exact H|].
  destruct (existsb _ _) eqn:E; [exact H|].
  simpl. apply Forall_app. split; [exact H|].
  constructor; [|constructor].
  apply existsb_forallb_negb in E. exact E.
Qed.

Lemma frame_towersClear now s :
  towersClear s -> towersClear (frame now s).
Proof.
  unfold towersClear, currentPath, currentMapData. intros H.
  unfold frame. destruct (_ || _); [exact H|].
  destruct (gameLoop_controls now s) as (_ & -> & _).
  apply gameLoop_towers_Forall; [|exact H].
  intros t v Ht. exact Ht.
Qed.

Lemma waveCompletion_towersClear address session s :
  towersClear s -> towersClear (waveCompletion address session s).
Proof.
  unfold towersClear, currentPath, currentMapData. intros H.
  unfold waveCompletion. destruct (_ && _); [|exact H].
  destruct (_ <=? _); [|exact H].
  unfold handleVictory. cbn [towers currentMap set_saved].
  destruct (unlockNextMap_board
              (set_xpEarned (xpEarned s + 150 + wave s * 15)
                 (set_victory true
                    (set_gameOver true (set_isPlaying false s)))))
    as [-> ->].
  exact H.
Qed.

Lemma spawnEffect_towersClear rnd s s' :
  spawnEffect rnd s = Some s' -> towersClear s -> towersClear s'.
Proof.
  unfold spawnEffect, spawnWave. intros Hs H. destruct (_ && _).
  - destruct (newEnemies _ _ _); [|discriminate].
    injection Hs as <-. exact H.
  - injection Hs as <-. exact H.
Qed.

Lemma resetGame_towers s : towers (resetGame s) = [].
Proof. reflexivity. Qed.

Lemma resetGame_towersClear s : towersClear (resetGame s).
Proof.
  unfold towersClear. rewrite resetGame_towers. apply Forall_nil.
Qed.

Lemma handle_towersClear ev s s' :
  handle ev s = Some s' -> towersClear s -> towersClear s'.
Proof.
  destruct ev; unfold handle; intros Hs H;
    try (injection Hs as <-).
  - destruct (includes _ _ _); [|exact H].
    now apply selectTower_towersClear.
  - destruct (includes _ _ _); [exact H|].
    now apply unlockTower_towersClear.
  - destruct (placementMode s); [|exact H].
    now apply placeTower_towersClear.
  - now destruct (_ && _).
  - now destruct (isPlaying s).
  - now destruct (_ && _).
  - apply resetGame_towersClear.
  - destruct (includes _ _ _); [apply resetGame_towersClear|exact H].
  - now apply frame_towersClear.
  - now apply waveCompletion_towersClear.
  - exact (spawnEffect_towersClear rnd s s' Hs H).
  - destruct (timers s); injection Hs as <-; exact H.
Qed.

Lemma reachable_towersClear s : reachable s -> towersClear s.
Proof.
  intros [evs Hr]. revert s Hr.
  assert (G : forall s0 s, towersClear s0 -> run evs s0 = Some s ->
                           towersClear s).
  { induction evs as [|ev evs IH]; simpl; intros s0 s H0 Hr.
    - injection Hr as <-. exact H0.
    - destruct (handle ev s0) as [s1|] eqn:E; [|discriminate].
      apply (IH s1 s); [|exact Hr].
      exact (handle_towersClear ev s0 s1 E H0). }
  intros s Hr. apply (G initial s); [constructor|exact Hr].
Qed.

(** What [placeTower] rejects, and what it does when it accepts. *)
Lemma placeTower_cases x y now s :
  (selectedTower s = None -> placeTower x y now s = s)
  /\ (placementMode s = false -> placeTower x y now s = s)
  /\ (forall k, selectedTower s = Some k ->
      (gold s < cost (TOWER_TYPES k) -> placeTower x y now s = s)
      /\ (existsb (tooClose x y) (currentPath s) = true ->
          placeTower x y now s = s)
      /\ (placementMode s = true -> cost (TOWER_TYPES k) <= gold s ->
          existsb (tooClose x y) (currentPath s) = false ->
          towers (placeTower x y now s)
          = towers s ++ [newTower k x y now]
          /\ gold (placeTower x y now s) = gold s - cost (TOWER_TYPES k)
          /\ placementMode (placeTower x y now s) = false)).
Proof.
  unfold placeTower. split; [|split].
  - now intros ->.
  - intros ->. now destruct (selectedTower s).
  - intros k ->. split; [|split].
    + intros H. apply Z.ltb_lt in H. rewrite H. now destruct (negb _).
    + intros ->. destruct (negb _); [reflexivity|].
      now destruct (_ <? _).
    + intros -> Hg ->. apply Z.ltb_ge in Hg. rewrite Hg. simpl.
      now repeat split.
Qed.

(** ** Damage and the fire-rate gate *)

Lemma hit_damage tower target e s :
  Enemy.id e = Enemy.id target ->
  Enemy.health (fst (hit tower target e s))
  = Enemy.health e - Z.max (Tower.damage tower - Enemy.armor e) 5
  /\ 5 <= Enemy.health e - Enemy.health (fst (hit tower target e s)).
Proof.
  intros H. unfold hit, effectiveDamage. rewrite H, String.eqb_refl.
  simpl. lia.
Qed.

Lemma struck_other tower target e :
  Enemy.id e <> Enemy.id target -> struck tower target e = e.
Proof.
  intros H. unfold struck. apply String.eqb_neq in H. now rewrite H.
Qed.

Lemma fire_closed now tower s :
  now - Tower.lastFired tower < Tower.fireRate tower ->
  fire now tower s = (tower, s).
Proof. intros H. unfold fire. apply Z.ltb_lt in H. now rewrite H. Qed.

Lemma fire_open now tower s :
  Tower.fireRate tower <= now - Tower.lastFired tower ->
  fire now tower s = (with_lastFired now tower, attack tower s).
Proof. intros H. unfold fire. apply Z.ltb_ge in H. now rewrite H. Qed.

Lemma attack_first tower s pre target post :
  enemies s = pre ++ target :: post ->
  (forall e, In e pre -> inRange tower e = false) ->
  inRange tower target = true ->
  enemies (attack tower s)
  = filter alive (map (struck tower target) (enemies s)).
Proof.
  intros He Hpre Ht.
  apply (attack_enemies tower s target (filter (inRange tower) post)).
  rewrite He. now apply filter_first.
Qed.

Lemma attack_out_of_range tower s :
  (forall e, In e (enemies s) -> inRange tower e = false) ->
  attack tower s = s.
Proof. intros H. apply attack_none. now apply filter_nil. Qed.

(** ** Victory *)

Lemma unlockNextMap_maps s :
  unlockedMaps (unlockNextMap s)
  = match nextMap (currentMap s) with
    | Some next =>
        if includes MapKey_eqb (unlockedMaps s) next then unlockedMaps s
        else unlockedMaps s ++ [next]
    | None => unlockedMaps s
    end.
Proof.
  unfold unlockNextMap.
  destruct (currentMap s); simpl;
    try (destruct (includes _ _ _); reflexivity); reflexivity.
Qed.

Lemma handleVictory_maps address session s :
  unlockedMaps (handleVictory address session s)
  = match nextMap (currentMap s) with
    | Some next =>
        if includes MapKey_eqb (unlockedMaps s) next then unlockedMaps s
        else unlockedMaps s ++ [next]
    | None => unlockedMaps s
    end.
Proof.
  unfold handleVictory. cbn [unlockedMaps set_saved].
  now rewrite unlockNextMap_maps.
Qed.

Lemma handleVictory_map address session s :
  currentMap (handleVictory address session s) = currentMap s.
Proof.
  unfold handleVictory. cbn [currentMap set_saved].
  now destruct (unlockNextMap_board
                  (set_xpEarned (xpEarned s + 150 + wave s * 15)
                     (set_victory true
                        (set_gameOver true (set_isPlaying false s)))))
    as [_ ->].
Qed.

Lemma victory_unlocks address session s next :
  nextMap (currentMap s) = Some next ->
  let s' := handleVictory address session s in
  In next (unlockedMaps s')
  /\ (NoDup (unlockedMaps s) -> NoDup (unlockedMaps s'))
  /\ (In next (unlockedMaps s) -> unlockedMaps s' = unlockedMaps s)
  /\ unlockedMaps (handleVictory address session s') = unlockedMaps s'.
Proof.
  intros Hn s'.
  pose proof (handleVictory_maps address session s) as H1.
  pose proof (handleVictory_maps address session s') as H2.
  fold s' in H1. unfold s' in H2 at 2.
  rewrite handleVictory_map in H2. fold s' in H2.
  rewrite Hn in H1, H2.
  destruct (includes MapKey_eqb (unlockedMaps s) next) eqn:E.
  - rewrite H1 in H2 |- *. rewrite E in H2.
    apply (includes_In _ MapKey_eqb_eq) in E. now repeat split.
  - assert (Hnot : ~ In next (unlockedMaps s)).
    { intros Hin. apply (includes_In _ MapKey_eqb_eq) in Hin. congruence. }
    assert (Hin : In next (unlockedMaps s')).
    { rewrite H1. apply in_app_iff. right. now left. }
    apply (includes_In _ MapKey_eqb_eq) in Hin as Hinc.
    rewrite Hinc in H2.
    split; [exact Hin|]. split; [|split; [|exact H2]].
    + intros Hnd. rewrite H1.
      apply NoDup_app; [exact Hnd|repeat constructor; auto|].
      intros a Ha [<-|[]]. contradiction.
    + intros H. contradiction.
Qed.

(** ** Spawning *)

Lemma spawnLoop_spec wave path rnd first rest : forall n i,
  path = first :: rest ->
  (forall j, (i <= j < i + n)%nat -> pickType wave (rnd j) <> None) ->
  exists es, spawnLoop wave path rnd i n = Some es
    /\ length es = n
    /\ forall j e, nth_error es j = Some e ->
         Enemy.health e
         = base_health (baseStats (Enemy.type e)) + wave * 10
         /\ Enemy.x e = (px first - Z2f (Z.of_nat (i + j) * 50))%float
         /\ Enemy.y e = py first
         /\ Enemy.pathIndex e = 0%nat.
Proof.
  induction n as [|n IH]; intros i Hp Hr; simpl.
  - exists []. split; [reflexivity|]. split; [reflexivity|].
    intros [|j] e H; discriminate H.
  - unfold newEnemy at 1.
    destruct (pickType wave (rnd i)) as [type|] eqn:Et;
      [|exfalso; apply (Hr i); [lia|exact Et]].
    rewrite Hp.
    destruct (IH (S i)) as (es & Hes & Hlen & Hall);
      [exact Hp | intros j Hj; apply Hr; lia |].
    rewrite <- Hp, Hes. eexists. split; [reflexivity|].
    split; [simpl; now rewrite Hlen|].
    intros [|j] e H; simpl in H.
    + injection H as <-. simpl. rewrite Nat.add_0_r. now repeat split.
    + destruct (Hall j e H) as (H1 & H2 & H3 & H4).
      repeat split; try assumption.
      rewrite H2. now replace (S i + j)%nat with (i + S j)%nat by lia.
Qed.

Lemma newEnemies_spec wave first rest rnd :
  (forall j, (j < Z.to_nat (wave * 2 + 5))%nat ->
             pickType wave (rnd j) <> None) ->
  exists es, newEnemies wave (first :: rest) rnd = Some es
    /\ Z.of_nat (length es) = Z.max 0 (wave * 2 + 5)
    /\ forall j e, nth_error es j = Some e ->
         Enemy.health e
         = base_health (baseStats (Enemy.type e)) + wave * 10
         /\ Enemy.x e = (px first - Z2f (Z.of_nat j * 50))%float
         /\ Enemy.y e = py first
         /\ Enemy.pathIndex e = 0%nat.
Proof.
  intros Hr. unfold newEnemies.
  destruct (spawnLoop_spec wave (first :: rest) rnd first rest
              (Z.to_nat (wave * 2 + 5)) 0 eq_refl)
    as (es & Hes & Hlen & Hall).
  { intros j Hj. apply Hr. lia. }
  exists es. split; [exact Hes|]. split; [lia|exact Hall].
Qed.

(** ** Unlocking *)

Lemma unlockTower_short k s :
  gold s < unlockCost k -> unlockTower k s = s.
Proof.
  intros H. unfold unlockTower. apply Z.leb_gt in H. now rewrite H.
Qed.

Lemma unlockTower_paid k s :
  unlockCost k <= gold s ->
  gold (unlockTower k s) = gold s - unlockCost k
  /\ unlockedTowers (unlockTower k s) = unlockedTowers s ++ [k].
Proof.
  intros H. unfold unlockTower. apply Z.leb_le in H. now rewrite H.
Qed.

Lemma unlockTower_twice k s :
  2 * unlockCost k <= gold s ->
  gold (unlockTower k (unlockTower k s)) = gold s - 2 * unlockCost k
  /\ unlockedTowers (unlockTower k (unlockTower k s))
     = unlockedTowers s ++ [k; k].
Proof.
  intros H.
  assert (Hc : 0 <= unlockCost k) by (destruct k; cbv; discriminate).
  destruct (unlockTower_paid k s ltac:(lia)) as [Hg Hu].
  destruct (unlockTower_paid k (unlockTower k s) ltac:(lia)) as [Hg' Hu'].
  rewrite Hg', Hu', Hg, Hu, <- app_assoc. split; [lia|reflexivity].
Qed.

Lemma currentPath_nonempty s :
  exists first rest, currentPath s = first :: rest.
Proof.
  unfold currentPath, currentMapData.
  destruct (currentMap s); simpl; eexists; eexists; reflexivity.
Qed.

Lemma spawnWave_spec rnd s :
  (forall j, (j < Z.to_nat (wave s * 2 + 5))%nat ->
             pickType (wave s) (rnd j) <> None) ->
  exists first rest es,
    currentPath s = first :: rest
    /\ spawnWave rnd s = Some (set_enemies (enemies s ++ es) s)
    /\ Z.of_nat (length es) = Z.max 0 (wave s * 2 + 5)
    /\ forall j e, nth_error es j = Some e ->
         Enemy.health e
         = base_health (baseStats (Enemy.type e)) + wave s * 10
         /\ Enemy.x e = (px first - Z2f (Z.of_nat j * 50))%float
         /\ Enemy.y e = py first
         /\ Enemy.pathIndex e = 0%nat.
Proof.
  intros Hr. destruct (currentPath_nonempty s) as (first & rest & Hp).
  destruct (newEnemies_spec (wave s) first rest rnd Hr)
    as (es & Hes & Hlen & Hall).
  exists first, rest, es. unfold spawnWave. rewrite Hp, Hes.
  split; [reflexivity|]. split; [reflexivity|].
  split; [exact Hlen|exact Hall].
Qed.

(** ** The combat step as a volley *)

Lemma attack_shot tower s :
  enemies (attack tower s) = shot tower (enemies s).
Proof.
  unfold shot, aim. rewrite find_hd_filter.
  destruct (filter (inRange tower) (enemies s)) as [|target rest] eqn:E.
  - now rewrite (attack_none _ _ E).
  - exact (attack_enemies tower s target rest E).
Qed.

Lemma fire_ready now tower s :
  fire now tower s
  = if ready now tower then (with_lastFired now tower, attack tower s)
    else (tower, s).
Proof.
  unfold fire, ready.
  destruct (Z.ltb_spec (now - Tower.lastFired tower) (Tower.fireRate tower))
    as [H|H].
  - apply Z.leb_gt in H. now rewrite H.
  - apply Z.leb_le in H. now rewrite H.
Qed.

Lemma fire_fst now tower s : fst (fire now tower s) = reloaded now tower.
Proof.
  rewrite fire_ready. unfold reloaded. now destruct (ready now tower).
Qed.

Lemma fire_all_enemies now ts : forall s,
  enemies (snd (mapS (fire now) ts s)) = volley now ts (enemies s).
Proof.
  induction ts as [|t ts IH]; intros s; [reflexivity|].
  cbn [mapS volley]. rewrite fire_ready.
  destruct (ready now t).
  - specialize (IH (attack t s)).
    destruct (mapS (fire now) ts (attack t s)) as [l s'].
    cbn [snd] in *. now rewrite IH, attack_shot.
  - specialize (IH s). destruct (mapS (fire now) ts s) as [l s'].
    cbn [snd] in *. exact IH.
Qed.

Lemma fireTowers_enemies now s :
  enemies (fireTowers now s) = volley now (towers s) (enemies s).
Proof.
  unfold fireTowers. pose proof (fire_all_enemies now (towers s) s) as H.
  destruct (mapS (fire now) (towers s) s) as [l s']. exact H.
Qed.

Lemma fireTowers_towers now s :
  towers (fireTowers now s) = map (reloaded now) (towers s).
Proof.
  unfold fireTowers.
  pose proof (mapS_fst_map (fire now) (reloaded now) (fire_fst now)
                (towers s) s) as H.
  destruct (mapS (fire now) (towers s) s) as [l s']. exact H.
Qed.

Lemma gameLoop_enemies now s :
  enemies (gameLoop now s)
  = volley now (towers s) (enemies (moveEnemies (currentPath s) s)).
Proof.
  unfold gameLoop. rewrite fireTowers_enemies.
  now rewrite (proj2 (moveEnemies_gold (currentPath s) s)).
Qed.

Lemma gameLoop_towers now s :
  towers (gameLoop now s) = map (reloaded now) (towers s).
Proof.
  unfold gameLoop. rewrite fireTowers_towers.
  now rewrite (proj2 (moveEnemies_gold (currentPath s) s)).
Qed.

Lemma volley_idle now ts es :
  (forall t, In t ts -> ready now t = false) -> volley now ts es = es.
Proof.
  induction ts as [|t ts IH]; intros H; [reflexivity|].
  cbn [volley]. rewrite (H t (or_introl eq_refl)).
  apply IH. intros t' Ht'. apply H. now right.
Qed.

Lemma reloaded_idle now ts :
  (forall t, In t ts -> ready now t = false) -> map (reloaded now) ts = ts.
Proof.
  induction ts as [|t ts IH]; intros H; [reflexivity|].
  cbn [map]. unfold reloaded at 1. rewrite (H t (or_introl eq_refl)).
  f_equal. apply IH. intros t' Ht'. apply H. now right.
Qed.

(** The struck target is still on the board when the hit leaves it
    alive. *)
Lemma attack_survivor tower s pre target post e :
  enemies s = pre ++ target :: post ->
  (forall e, In e pre -> inRange tower e = false) ->
  inRange tower target = true ->
  In e (enemies s) -> Enemy.id e = Enemy.id target ->
  0 < Enemy.health e - Z.max (Tower.damage tower - Enemy.armor e) 5 ->
  In (with_health
        (Enemy.health e - Z.max (Tower.damage tower - Enemy.armor e) 5) e)
     (enemies (attack tower s)).
Proof.
  intros He Hpre Ht Hin Hid Hh.
  rewrite (attack_first tower s pre target post He Hpre Ht).
  apply filter_In. split.
  - apply in_map_iff. exists e. split; [|exact Hin].
    unfold struck. now rewrite Hid, String.eqb_refl.
  - unfold alive. cbn [Enemy.health with_health]. now apply Z.ltb_lt.
Qed.

(** ** Random draws *)

(** A draw of [Math.random()] always selects an entry of [enemyTypes],
    one of the first [typeIndex + 1]. *)
Lemma pickType_draw wave r :
  0 <= wave -> (0 <=? r)%float = true -> (r <? 1)%float = true ->
  exists k type,
    0 <= k <= Z.min (wave / 3) 4
    /\ nth_error enemyTypes (Z.to_nat k) = Some type
    /\ pickType wave r = Some type.
Proof.
  intros Hw H0 H1. unfold pickType.
  change (Z.of_nat (length enemyTypes) - 1) with 4.
  assert (Hd : 0 <= wave / 3) by (apply Z.div_pos; lia).
  destruct (Binary64.floor_scaled_draw r (Z.min (wave / 3) 4 + 1) H0 H1)
    as (k & Hk & Hb); [lia|].
  rewrite Hk. replace (k <? 0) with false by (symmetry; apply Z.ltb_ge; lia).
  assert (Hc : k = 0 \/ k = 1 \/ k = 2 \/ k = 3 \/ k = 4) by lia.
  exists k.
  destruct Hc as [->|[->|[->|[->| ->]]]]; eexists;
    (split; [lia|split; reflexivity]).
Qed.

Lemma spawnWave_draws rnd s :
  0 <= wave s ->
  (forall j, (j < Z.to_nat (wave s * 2 + 5))%nat ->
             (0 <=? rnd j)%float = true /\ (rnd j <? 1)%float = true) ->
  exists first rest es,
    currentPath s = first :: rest
    /\ spawnWave rnd s = Some (set_enemies (enemies s ++ es) s)
    /\ Z.of_nat (length es) = Z.max 0 (wave s * 2 + 5)
    /\ forall j e, nth_error es j = Some e ->
         Enemy.health e
         = base_health (baseStats (Enemy.type e)) + wave s * 10
         /\ Enemy.x e = (px first - Z2f (Z.of_nat j * 50))%float
         /\ Enemy.y e = py first
         /\ Enemy.pathIndex e = 0%nat.
Proof.
  intros Hw Hr. apply spawnWave_spec. intros j Hj.
  destruct (Hr j Hj) as [H0 H1].
  destruct (pickType_draw (wave s) (rnd j) Hw H0 H1)
    as (k & type & _ & _ & Hp).
  rewrite Hp. discriminate.
Qed.

End TD1Facts.

(** * The page with a single enemy kind *)

Module TD2Facts.
Import TD2.

Lemma TowerType_eqb_eq2 a b : TowerType_eqb a b = true <-> a = b.
Proof. destruct a, b; simpl; split; intros H; congruence. Qed.

Lemma hit_fst2 tower target e s :
  fst (hit tower target e s) = struck tower target e.
Proof. unfold hit, struck. now destruct (String.eqb _ _). Qed.

Lemma attack_enemies2 tower s target rest :
  filter (inRange tower) (enemies s) = target :: rest ->
  enemies (attack tower s)
  = filter alive (map (struck tower target) (enemies s)).
Proof.
  intros H. unfold attack. rewrite H.
  pose proof (mapS_fst_map (hit tower target) (struck tower target)
                (hit_fst2 tower target) (enemies s) s) as Hm.
  destruct (mapS (hit tower target) (enemies s) s) as [l s'].
  simpl in *. now subst.
Qed.

Lemma catalog_damage_floor k : 5 <= damage (TOWER_TYPES k).
Proof. destruct k; simpl; lia. Qed.

Lemma hit_damage2 tower target e s :
  fromCatalog tower -> Enemy.id e = Enemy.id target ->
  Enemy.health (fst (hit tower target e s))
  = Enemy.health e - Z.max (Tower.damage tower - 0) 5
  /\ 5 <= Enemy.health e - Enemy.health (fst (hit tower target e s)).
Proof.
  intros Hc H. unfold hit. rewrite H, String.eqb_refl. simpl.
  pose proof (catalog_damage_floor (Tower.type tower)).
  unfold fromCatalog in Hc. lia.
Qed.

Lemma struck_other2 tower target e :
  Enemy.id e <> Enemy.id target -> struck tower target e = e.
Proof.
  intros H. unfold struck. apply String.eqb_neq in H. now rewrite H.
Qed.

Lemma fire_closed2 now tower s :
  now - Tower.lastFired tower < Tower.fireRate tower ->
  fire now tower s = (tower, s).
Proof. intros H. unfold fire. apply Z.ltb_lt in H. now rewrite H. Qed.

Lemma fire_open2 now tower s :
  Tower.fireRate tower <= now - Tower.lastFired tower ->
  fire now tower s = (with_lastFired now tower, attack tower s).
Proof. intros H. unfold fire. apply Z.ltb_ge in H. now rewrite H. Qed.

Lemma attack_first2 tower s pre target post :
  enemies s = pre ++ target :: post ->
  (forall e, In e pre -> inRange tower e = false) ->
  inRange tower target = true ->
  enemies (attack tower s)
  = filter alive (map (struck tower target) (enemies s)).
Proof.
  intros He Hpre Ht.
  apply (attack_enemies2 tower s target (filter (inRange tower) post)).
  rewrite He. now apply filter_first.
Qed.

Lemma attack_out_of_range2 tower s :
  (forall e, In e (enemies s) -> inRange tower e = false) ->
  attack tower s = s.
Proof.
  intros H. unfold attack. now rewrite (filter_nil _ _ H).
Qed.

(** ** Towers come from the catalogue *)

Lemma hit_towers2 tower target e s :
  towers (snd (hit tower target e s)) = towers s.
Proof.
  unfold hit. destruct (String.eqb _ _); [|reflexivity].
  simpl. now destruct (_ <=? 0).
Qed.

Lemma attack_towers2 tower s : towers (attack tower s) = towers s.
Proof.
  unfold attack. destruct (filter _ _) as [|target rest]; [reflexivity|].
  pose proof (mapS_world_ind (hit tower target)
                (fun w => towers w = towers s)
                (fun e w H => eq_trans (hit_towers2 tower target e w) H)
                (enemies s) s eq_refl) as Hm.
  destruct (mapS _ _ _) as [l s']. exact Hm.
Qed.

Lemma moveEnemy_towers2 e s : towers (snd (moveEnemy e s)) = towers s.
Proof.
  unfold moveEnemy, loseLife.
  destruct (nth_error _ _); [|reflexivity].
  destruct (_ <? _)%float; [|reflexivity].
  destruct (_ <? _)%nat; [reflexivity|].
  now destruct (lives s - 1 <=? 0).
Qed.

Lemma moveEnemies_towers2 s : towers (moveEnemies s) = towers s.
Proof.
  unfold moveEnemies.
  pose proof (mapS_world_ind moveEnemy (fun w => towers w = towers s)
                (fun e w H => eq_trans (moveEnemy_towers2 e w) H)
                (enemies s) s eq_refl) as Hm.
  destruct (mapS _ _ _) as [l s']. exact Hm.
Qed.

Lemma gameLoop_fromCatalog now s :
  Forall fromCatalog (towers s) ->
  Forall fromCatalog (towers (gameLoop now s)).
Proof.
  intros H. unfold gameLoop, fireTowers.
  rewrite <- moveEnemies_towers2 in H.
  pose proof (mapS_Forall (fire now) fromCatalog) as Hm.
  specialize (Hm (fun t w Ht =>
    ltac:(unfold fire; destruct (_ <? _); exact Ht))).
  specialize (Hm (towers (moveEnemies s)) (moveEnemies s) H).
  destruct (mapS _ _ _) as [l s']. exact Hm.
Qed.

Lemma handle_fromCatalog ev s :
  Forall fromCatalog (towers s) ->
  Forall fromCatalog (towers (handle ev s)).
Proof.
  intros H. destruct ev; simpl.
  - now destruct (includes _ _ _).
  - destruct (includes _ _ _); [exact H|].
    unfold unlockTower. now destruct (_ <=? _).
  - destruct (placementMode s); [|exact H].
    unfold placeTower. destruct (selectedTower s) as [k|]; [|exact H].
    destruct (negb _); [exact H|].
    destruct (_ <? _); [exact H|].
    simpl. apply Forall_app. split; [exact H|].
    constructor; [reflexivity|constructor].
  - now destruct (_ && _).
  - now destruct (isPlaying s).
  - constructor.
  - destruct (mapUnlocked _); [constructor|exact H].
  - unfold frame. destruct (_ || _); [exact H|].
    now apply gameLoop_fromCatalog.
  - unfold waveCompletion. destruct (_ && _); [|exact H].
    now destruct (_ <=? _).
  - unfold spawnEffect. now destruct (_ && _).
  - now destruct (timers s).
Qed.

Lemma run_fromCatalog evs : forall s,
  Forall fromCatalog (towers s) ->
  Forall fromCatalog (towers (run evs s)).
Proof.
  unfold run. induction evs as [|ev evs IH]; intros s H; simpl.
  - exact H.
  - apply IH. now apply handle_fromCatalog.
Qed.

(** ** Placement, victory, spawning, unlocking *)

Lemma placeTower_cases2 x y now s :
  (selectedTower s = None -> placeTower x y now s = s)
  /\ (placementMode s = false -> placeTower x y now s = s)
  /\ (forall k, selectedTower s = Some k ->
      (gold s < cost (TOWER_TYPES k) -> placeTower x y now s = s)
      /\ (placementMode s = true -> cost (TOWER_TYPES k) <= gold s ->
          towers (placeTower x y now s)
          = towers s ++ [newTower k x y now]
          /\ gold (placeTower x y now s) = gold s - cost (TOWER_TYPES k)
          /\ placementMode (placeTower x y now s) = false)).
Proof.
  unfold placeTower. split; [|split].
  - now intros ->.
  - intros ->. now destruct (selectedTower s).
  - intros k ->. split.
    + intros H. apply Z.ltb_lt in H. rewrite H. now destruct (negb _).
    + intros -> Hg. apply Z.ltb_ge in Hg. rewrite Hg. simpl.
      now repeat split.
Qed.

Lemma waveCompletion_victory2 address session s :
  lastWaveCleared s ->
  waveCompletion address session s = handleVictory address session s.
Proof.
  intros (Hp & He & Hw & Hl). unfold waveCompletion.
  rewrite Hp, He. simpl.
  apply Z.ltb_lt in Hw. apply Z.leb_le in Hl. now rewrite Hw, Hl.
Qed.

Lemma handleVictory_flags2 address session s :
  gameOver (handleVictory address session s) = true
  /\ isPlaying (handleVictory address session s) = false
  /\ xpEarned (handleVictory address session s)
     = xpEarned s + 100 + wave s * 10.
Proof. now repeat split. Qed.

Lemma spawnLoop_spec2 wave : forall n i,
  length (spawnLoop wave i n) = n
  /\ forall j e, nth_error (spawnLoop wave i n) j = Some e ->
       Enemy.health e = 20 + wave * 10
       /\ Enemy.x e
          = (px (pt 0 200) - Z2f (Z.of_nat (i + j) * 40))%float
       /\ Enemy.y e = py (pt 0 200)
       /\ Enemy.pathIndex e = 0%nat.
Proof.
  induction n as [|n IH]; intros i; simpl.
  - split; [reflexivity|]. intros [|j] e H; discriminate H.
  - destruct (IH (S i)) as [Hlen Hall]. split; [now rewrite Hlen|].
    intros [|j] e H; simpl in H.
    + injection H as <-. simpl. rewrite Nat.add_0_r. now repeat split.
    + destruct (Hall j e H) as (H1 & H2 & H3 & H4).
      repeat split; try assumption.
      rewrite H2. now replace (S i + j)%nat with (i + S j)%nat by lia.
Qed.

Lemma newEnemies_spec2 wave :
  Z.of_nat (length (newEnemies wave)) = Z.max 0 (wave * 2 + 3)
  /\ forall j e, nth_error (newEnemies wave) j = Some e ->
       Enemy.health e = 20 + wave * 10
       /\ Enemy.x e = (px (pt 0 200) - Z2f (Z.of_nat j * 40))%float
       /\ Enemy.y e = py (pt 0 200)
       /\ Enemy.pathIndex e = 0%nat.
Proof.
  unfold newEnemies.
  destruct (spawnLoop_spec2 wave (Z.to_nat (wave * 2 + 3)) 0)
    as [Hlen Hall].
  split; [lia|exact Hall].
Qed.

Lemma unlockTower_short2 k s :
  gold s < unlockCost k -> unlockTower k s = s.
Proof.
  intros H. unfold unlockTower. apply Z.leb_gt in H. now rewrite H.
Qed.

Lemma unlockTower_paid2 k s :
  unlockCost k <= gold s ->
  gold (unlockTower k s) = gold s - unlockCost k
  /\ unlockedTowers (unlockTower k s) = unlockedTowers s ++ [k].
Proof.
  intros H. unfold unlockTower. apply Z.leb_le in H. now rewrite H.
Qed.

Lemma unlockTower_twice2 k s :
  2 * unlockCost k <= gold s ->
  gold (unlockTower k (unlockTower k s)) = gold s - 2 * unlockCost k
  /\ unlockedTowers (unlockTower k (unlockTower k s))
     = unlockedTowers s ++ [k; k].
Proof.
  intros H.
  assert (Hc : 0 <= unlockCost k) by (destruct k; cbv; discriminate).
  destruct (unlockTower_paid2 k s ltac:(lia)) as [Hg Hu].
  destruct (unlockTower_paid2 k (unlockTower k s) ltac:(lia)) as [Hg' Hu'].
  rewrite Hg', Hu', Hg, Hu, <- app_assoc. split; [lia|reflexivity].
Qed.

(** ** The combat step as a volley *)

Lemma attack_shot2 tower s :
  enemies (attack tower s) = shot tower (enemies s).
Proof.
  unfold shot, aim. rewrite find_hd_filter.
  destruct (filter (inRange tower) (enemies s)) as [|target rest] eqn:E.
  - unfold attack. now rewrite E.
  - exact (attack_enemies2 tower s target rest E).
Qed.

Lemma fire_ready2 now tower s :
  fire now tower s
  = if ready now tower then (with_lastFired now tower, attack tower s)
    else (tower, s).
Proof.
  unfold fire, ready.
  destruct (Z.ltb_spec (now - Tower.lastFired tower) (Tower.fireRate tower))
    as [H|H].
  - apply Z.leb_gt in H. now rewrite H.
  - apply Z.leb_le in H. now rewrite H.
Qed.

Lemma fire_fst2 now tower s : fst (fire now tower s) = reloaded now tower.
Proof.
  rewrite fire_ready2. unfold reloaded. now destruct (ready now tower).
Qed.

Lemma fire_all_enemies2 now ts : forall s,
  enemies (snd (mapS (fire now) ts s)) = volley now ts (enemies s).
Proof.
  induction ts as [|t ts IH]; intros s; [reflexivity|].
  cbn [mapS volley]. rewrite fire_ready2.
  destruct (ready now t).
  - specialize (IH (attack t s)).
    destruct (mapS (fire now) ts (attack t s)) as [l s'].
    cbn [snd] in *. now rewrite IH, attack_shot2.
  - specialize (IH s). destruct (mapS (fire now) ts s) as [l s'].
    cbn [snd] in *. exact IH.
Qed.

Lemma fireTowers_enemies2 now s :
  enemies (fireTowers now s) = volley now (towers s) (enemies s).
Proof.
  unfold fireTowers. pose proof (fire_all_enemies2 now (towers s) s) as H.
  destruct (mapS (fire now) (towers s) s) as [l s']. exact H.
Qed.

Lemma fireTowers_towers2 now s :
  towers (fireTowers now s) = map (reloaded now) (towers s).
Proof.
  unfold fireTowers.
  pose proof (mapS_fst_map (fire now) (reloaded now) (fire_fst2 now)
                (towers s) s) as H.
  destruct (mapS (fire now) (towers s) s) as [l s']. exact H.
Qed.

Lemma gameLoop_enemies2 now s :
  enemies (gameLoop now s)
  = volley now (towers s) (enemies (moveEnemies s)).
Proof.
  unfold gameLoop. rewrite fireTowers_enemies2.
  now rewrite moveEnemies_towers2.
Qed.

Lemma gameLoop_towers2 now s :
  towers (gameLoop now s) = map (reloaded now) (towers s).
Proof.
  unfold gameLoop. rewrite fireTowers_towers2.
  now rewrite moveEnemies_towers2.
Qed.

Lemma volley_idle2 now ts es :
  (forall t, In t ts -> ready now t = false) -> volley now ts es = es.
Proof.
  induction ts as [|t ts IH]; intros H; [reflexivity|].
  cbn [volley]. rewrite (H t (or_introl eq_refl)).
  apply IH. intros t' Ht'. apply H. now right.
Qed.

Lemma reloaded_idle2 now ts :
  (forall t, In t ts -> ready now t = false) -> map (reloaded now) ts = ts.
Proof.
  induction ts as [|t ts IH]; intros H; [reflexivity|].
  cbn [map]. unfold reloaded at 1. rewrite (H t (or_introl eq_refl)).
  f_equal. apply IH. intros t' Ht'. apply H. now right.
Qed.

(** With the damage of its catalogue entry a tower takes off what the
    formula with armour 0 and floor 5 gives. *)
Lemma catalog_damage tower :
  fromCatalog tower ->
  Z.max (Tower.damage tower - 0) 5 = Tower.damage tower.
Proof.
  intros Hc. pose proof (catalog_damage_floor (Tower.type tower)).
  unfold fromCatalog in Hc. lia.
Qed.

Lemma attack_survivor2 tower s pre target post e :
  enemies s = pre ++ target :: post ->
  (forall e, In e pre -> inRange tower e = false) ->
  inRange tower target = true ->
  In e (enemies s) -> Enemy.id e = Enemy.id target ->
  0 < Enemy.health e - Tower.damage tower ->
  In (with_health (Enemy.health e - Tower.damage tower) e)
     (enemies (attack tower s)).
Proof.
  intros He Hpre Ht Hin Hid Hh.
  rewrite (attack_first2 tower s pre target post He Hpre Ht).
  apply filter_In. split.
  - apply in_map_iff. exists e. split; [|exact Hin].
    unfold struck. now rewrite Hid, String.eqb_refl.
  - unfold alive. cbn [Enemy.health with_health]. now apply Z.ltb_lt.
Qed.

End TD2Facts.

(** * The claims that span both pages *)

(** C1: a tower that attacks aims at the first enemy of the list within
    its range, and every enemy that carries the id of that enemy loses
    exactly [max (damage - armor) 5] health: the enemies after the attack
    are those of before with that much taken off, the dead removed.  The
    enemy aimed at is on the board afterwards with exactly that much less
    health when this leaves it alive, and with 5 less when its armour is
    not below the damage of the tower.  The combat step of the game loop
    is the volley of these shots, tower after tower.  On the page with a
    single enemy kind an enemy has no armour and a hit takes off the
    damage of the tower; every tower there has the damage of its
    catalogue entry, which is at least 5, so that the same formula holds
    with armour 0. *)
Theorem damage_floor :
  (forall tower target e s,
     TD1.Enemy.id e = TD1.Enemy.id target ->
     TD1.Enemy.health (fst (TD1.hit tower target e s))
     = TD1.Enemy.health e
       - Z.max (TD1.Tower.damage tower - TD1.Enemy.armor e) 5
     /\ 5 <= TD1.Enemy.health e
             - TD1.Enemy.health (fst (TD1.hit tower target e s)))
  /\ (forall tower s pre target post,
        TD1.enemies s = pre ++ target :: post ->
        (forall e, In e pre -> TD1.inRange tower e = false) ->
        TD1.inRange tower target = true ->
        TD1.enemies (TD1.attack tower s)
        = filter TD1.alive
            (map (fun e =>
                    if String.eqb (TD1.Enemy.id e) (TD1.Enemy.id target)
                    then TD1.with_health
                           (TD1.Enemy.health e
                            - Z.max (TD1.Tower.damage tower
                                     - TD1.Enemy.armor e) 5) e
                    else e)
               (TD1.enemies s))
        /\ (0 < TD1.Enemy.health target
                - Z.max (TD1.Tower.damage tower
                         - TD1.Enemy.armor target) 5 ->
            In (TD1.with_health
                  (TD1.Enemy.health target
                   - Z.max (TD1.Tower.damage tower
                            - TD1.Enemy.armor target) 5) target)
               (TD1.enemies (TD1.attack tower s)))
        /\ (TD1.Tower.damage tower <= TD1.Enemy.armor target ->
            5 < TD1.Enemy.health target ->
            In (TD1.with_health (TD1.Enemy.health target - 5) target)
               (TD1.enemies (TD1.attack tower s))))
  /\ (forall now s,
        TD1.enemies (TD1.fireTowers now s)
        = TD1.volley now (TD1.towers s) (TD1.enemies s)
        /\ TD1.enemies (TD1.gameLoop now s)
           = TD1.volley now (TD1.towers s)
               (TD1.enemies (TD1.moveEnemies (TD1.currentPath s) s)))
  /\ (forall tower target e s,
        TD2.fromCatalog tower ->
        TD2.Enemy.id e = TD2.Enemy.id target ->
        TD2.Enemy.health (fst (TD2.hit tower target e s))
        = TD2.Enemy.health e - Z.max (TD2.Tower.damage tower - 0) 5
        /\ 5 <= TD2.Enemy.health e
                - TD2.Enemy.health (fst (TD2.hit tower target e s)))
  /\ (forall tower s pre target post,
        TD2.fromCatalog tower ->
        TD2.enemies s = pre ++ target :: post ->
        (forall e, In e pre -> TD2.inRange tower e = false) ->
        TD2.inRange tower target = true ->
        TD2.enemies (TD2.attack tower s)
        = filter TD2.alive
            (map (fun e =>
                    if String.eqb (TD2.Enemy.id e) (TD2.Enemy.id target)
                    then TD2.with_health
                           (TD2.Enemy.health e
                            - Z.max (TD2.Tower.damage tower - 0) 5) e
                    else e)
               (TD2.enemies s))
        /\ (0 < TD2.Enemy.health target
                - Z.max (TD2.Tower.damage tower - 0) 5 ->
            In (TD2.with_health
                  (TD2.Enemy.health target
                   - Z.max (TD2.Tower.damage tower - 0) 5) target)
               (TD2.enemies (TD2.attack tower s))))
  /\ (forall now s,
        TD2.enemies (TD2.fireTowers now s)
        = TD2.volley now (TD2.towers s) (TD2.enemies s)
        /\ TD2.enemies (TD2.gameLoop now s)
           = TD2.volley now (TD2.towers s)
               (TD2.enemies (TD2.moveEnemies s)))
  /\ (forall evs,
        Forall TD2.fromCatalog (TD2.towers (TD2.run evs TD2.initial))).
Proof.
  split; [exact TD1Facts.hit_damage|].
  split.
  { intros tower s pre target post He Hpre Ht.
    assert (Hin : In target (TD1.enemies s))
      by (rewrite He; apply in_elt).
    split; [exact (TD1Facts.attack_first tower s pre target post
                     He Hpre Ht)|].
    split.
    - intros Hh.
      exact (TD1Facts.attack_survivor tower s pre target post target
               He Hpre Ht Hin eq_refl Hh).
    - intros Harm Hh.
      replace 5 with (Z.max (TD1.Tower.damage tower
                             - TD1.Enemy.armor target) 5) at 1 by lia.
      apply (TD1Facts.attack_survivor tower s pre target post target
               He Hpre Ht Hin eq_refl).
      lia. }
  split.
  { intros now s. split;
      [apply TD1Facts.fireTowers_enemies|apply TD1Facts.gameLoop_enemies]. }
  split; [exact TD2Facts.hit_damage2|].
  split.
  { intros tower s pre target post Hc He Hpre Ht.
    assert (Hin : In target (TD2.enemies s))
      by (rewrite He; apply in_elt).
    rewrite (TD2Facts.catalog_damage tower Hc).
    split; [exact (TD2Facts.attack_first2 tower s pre target post
                     He Hpre Ht)|].
    intros Hh.
    exact (TD2Facts.attack_survivor2 tower s pre target post target
             He Hpre Ht Hin eq_refl Hh). }
  split.
  { intros now s. split;
      [apply TD2Facts.fireTowers_enemies2
      |apply TD2Facts.gameLoop_enemies2]. }
  intros evs. apply TD2Facts.run_fromCatalog. constructor.
Qed.

Lemma damage_floor_witness :
  TD1.Enemy.health
    (fst (TD1.hit TD1.sentry TD1.wyrm TD1.wyrm TD1.initial)) = 155
  /\ map TD1.Enemy.health
       (TD1.enemies (TD1.attack TD1.sentry TD1.wyrmArriving))
     = [40; 155; 40]
  /\ In (TD1.with_health 155 TD1.wyrm)
       (TD1.enemies (TD1.attack TD1.sentry TD1.wyrmArriving))
  /\ TD2.Enemy.health
       (fst (TD2.hit TD2.sentry (TD2.arriving 0 30) (TD2.arriving 0 30)
               TD2.initial)) = 20
  /\ map TD2.Enemy.health
       (TD2.enemies (TD2.attack TD2.sentry TD2.threeArriving))
     = [30; 20; 30]
  /\ In (TD2.with_health 20 (TD2.arriving 1 30))
       (TD2.enemies (TD2.attack TD2.sentry TD2.threeArriving)).
Proof.
  destruct damage_floor as (H1 & H2 & _ & H4 & H5 & _).
  destruct (H2 TD1.sentry TD1.wyrmArriving [TD1.arriving 0 200] TD1.wyrm
              [TD1.arriving 1 4] eq_refl) as (Ha & _ & Hfloor);
    [intros e [<-|[]]; reflexivity | reflexivity |].
  destruct (H5 TD2.sentry TD2.threeArriving [TD2.arriving 0 200]
              (TD2.arriving 1 30) [TD2.arriving 2 4] eq_refl eq_refl)
    as (Hb & Hlive);
    [intros e [<-|[]]; reflexivity | reflexivity |].
  split.
  { destruct (H1 TD1.sentry TD1.wyrm TD1.wyrm TD1.initial eq_refl)
      as [H _].
    rewrite H. reflexivity. }
  split; [rewrite Ha; reflexivity|].
  split; [apply Hfloor; vm_compute; [discriminate|reflexivity]|].
  split.
  { destruct (H4 TD2.sentry (TD2.arriving 0 30) (TD2.arriving 0 30)
                TD2.initial eq_refl eq_refl) as [H _].
    rewrite H. reflexivity. }
  split; [rewrite Hb; reflexivity|].
  apply Hlive. reflexivity.
Defined.

(** C6: in the combat step of the game loop the towers take their turn
    in list order.  A tower whose interval has not elapsed does nothing
    and keeps its [lastFired]; a tower whose interval has elapsed takes
    [lastFired = now] whether or not an enemy is in range, leaves the
    enemies alone when none is, and otherwise aims at the first enemy of
    the list that is in range, nearer ones further down the list
    notwithstanding: the enemies are those of before with the hit applied
    to the ones that carry the id of that enemy, the dead removed.  The
    towers after the step are the towers before it with [lastFired]
    renewed where the interval had elapsed, and the enemies after it are
    what the volley of the ready towers leaves. *)
Theorem fire_rate_gate :
  (forall now tower s,
     (now - TD1.Tower.lastFired tower < TD1.Tower.fireRate tower ->
      TD1.fire now tower s = (tower, s))
     /\ (TD1.Tower.fireRate tower <= now - TD1.Tower.lastFired tower ->
         TD1.Tower.lastFired (fst (TD1.fire now tower s)) = now
         /\ ((forall e, In e (TD1.enemies s) ->
                        TD1.inRange tower e = false) ->
             snd (TD1.fire now tower s) = s)
         /\ (forall pre target post,
               TD1.enemies s = pre ++ target :: post ->
               (forall e, In e pre -> TD1.inRange tower e = false) ->
               TD1.inRange tower target = true ->
               TD1.enemies (snd (TD1.fire now tower s))
               = filter TD1.alive
                   (map (TD1.struck tower target) (TD1.enemies s)))))
  /\ (forall now s,
        TD1.towers (TD1.fireTowers now s)
        = map (TD1.reloaded now) (TD1.towers s)
        /\ TD1.enemies (TD1.fireTowers now s)
           = TD1.volley now (TD1.towers s) (TD1.enemies s)
        /\ TD1.towers (TD1.gameLoop now s)
           = map (TD1.reloaded now) (TD1.towers s)
        /\ TD1.enemies (TD1.gameLoop now s)
           = TD1.volley now (TD1.towers s)
               (TD1.enemies (TD1.moveEnemies (TD1.currentPath s) s))
        /\ ((forall t, In t (TD1.towers s) ->
               now - TD1.Tower.lastFired t < TD1.Tower.fireRate t) ->
            TD1.towers (TD1.fireTowers now s) = TD1.towers s
            /\ TD1.enemies (TD1.fireTowers now s) = TD1.enemies s)
        /\ (forall tower,
              TD1.towers s = [tower] ->
              TD1.Tower.fireRate tower
              <= now - TD1.Tower.lastFired tower ->
              TD1.towers (TD1.fireTowers now s)
              = [TD1.with_lastFired now tower]
              /\ ((forall e, In e (TD1.enemies s) ->
                             TD1.inRange tower e = false) ->
                  TD1.enemies (TD1.fireTowers now s) = TD1.enemies s)
              /\ (forall pre target post,
                    TD1.enemies s = pre ++ target :: post ->
                    (forall e, In e pre ->
                               TD1.inRange tower e = false) ->
                    TD1.inRange tower target = true ->
                    TD1.enemies (TD1.fireTowers now s)
                    = filter TD1.alive
                        (map (TD1.struck tower target)
                           (TD1.enemies s)))))
  /\ (forall now tower s,
        (now - TD2.Tower.lastFired tower < TD2.Tower.fireRate tower ->
         TD2.fire now tower s = (tower, s))
        /\ (TD2.Tower.fireRate tower <= now - TD2.Tower.lastFired tower ->
            TD2.Tower.lastFired (fst (TD2.fire now tower s)) = now
            /\ ((forall e, In e (TD2.enemies s) ->
                           TD2.inRange tower e = false) ->
                snd (TD2.fire now tower s) = s)
            /\ (forall pre target post,
                  TD2.enemies s = pre ++ target :: post ->
                  (forall e, In e pre -> TD2.inRange tower e = false) ->
                  TD2.inRange tower target = true ->
                  TD2.enemies (snd (TD2.fire now tower s))
                  = filter TD2.alive
                      (map (TD2.struck tower target) (TD2.enemies s)))))
  /\ (forall now s,
        TD2.towers (TD2.fireTowers now s)
        = map (TD2.reloaded now) (TD2.towers s)
        /\ TD2.enemies (TD2.fireTowers now s)
           = TD2.volley now (TD2.towers s) (TD2.enemies s)
        /\ TD2.towers (TD2.gameLoop now s)
           = map (TD2.reloaded now) (TD2.towers s)
        /\ TD2.enemies (TD2.gameLoop now s)
           = TD2.volley now (TD2.towers s)
               (TD2.enemies (TD2.moveEnemies s))
        /\ ((forall t, In t (TD2.towers s) ->
               now - TD2.Tower.lastFired t < TD2.Tower.fireRate t) ->
            TD2.towers (TD2.fireTowers now s) = TD2.towers s
            /\ TD2.enemies (TD2.fireTowers now s) = TD2.enemies s)
        /\ (forall tower,
              TD2.towers s = [tower] ->
              TD2.Tower.fireRate tower
              <= now - TD2.Tower.lastFired tower ->
              TD2.towers (TD2.fireTowers now s)
              = [TD2.with_lastFired now tower]
              /\ ((forall e, In e (TD2.enemies s) ->
                             TD2.inRange tower e = false) ->
                  TD2.enemies (TD2.fireTowers now s) = TD2.enemies s)
              /\ (forall pre target post,
                    TD2.enemies s = pre ++ target :: post ->
                    (forall e, In e pre ->
                               TD2.inRange tower e = false) ->
                    TD2.inRange tower target = true ->
                    TD2.enemies (TD2.fireTowers now s)
                    = filter TD2.alive
                        (map (TD2.struck tower target)
                           (TD2.enemies s))))).
Proof.
  split.
  { intros now tower s. split; [apply TD1Facts.fire_closed|].
    intros Hopen. rewrite (TD1Facts.fire_open _ _ _ Hopen). simpl.
    split; [reflexivity|]. split.
    - apply TD1Facts.attack_out_of_range.
    - apply TD1Facts.attack_first. }
  split.
  { intros now s.
    split; [apply TD1Facts.fireTowers_towers|].
    split; [apply TD1Facts.fireTowers_enemies|].
    split; [apply TD1Facts.gameLoop_towers|].
    split; [apply TD1Facts.gameLoop_enemies|].
    split.
    - intros Hidle.
      assert (Hr : forall t, In t (TD1.towers s) ->
                     TD1.ready now t = false).
      { intros t Ht. apply Z.leb_gt. now apply Hidle. }
      rewrite TD1Facts.fireTowers_towers, TD1Facts.fireTowers_enemies.
      split; [now apply TD1Facts.reloaded_idle
             |now apply TD1Facts.volley_idle].
    - intros tower Hts Hopen.
      assert (Hr : TD1.ready now tower = true) by now apply Z.leb_le.
      rewrite TD1Facts.fireTowers_towers, TD1Facts.fireTowers_enemies.
      rewrite Hts. cbn [map TD1.volley]. unfold TD1.reloaded.
      rewrite Hr. split; [reflexivity|].
      rewrite <- TD1Facts.attack_shot. split.
      + intros Hout. now rewrite TD1Facts.attack_out_of_range.
      + apply TD1Facts.attack_first. }
  split.
  { intros now tower s. split; [apply TD2Facts.fire_closed2|].
    intros Hopen. rewrite (TD2Facts.fire_open2 _ _ _ Hopen). simpl.
    split; [reflexivity|]. split.
    - apply TD2Facts.attack_out_of_range2.
    - apply TD2Facts.attack_first2. }
  intros now s.
  split; [apply TD2Facts.fireTowers_towers2|].
  split; [apply TD2Facts.fireTowers_enemies2|].
  split; [apply TD2Facts.gameLoop_towers2|].
  split; [apply TD2Facts.gameLoop_enemies2|].
  split.
  - intros Hidle.
    assert (Hr : forall t, In t (TD2.towers s) ->
                   TD2.ready now t = false).
    { intros t Ht. apply Z.leb_gt. now apply Hidle. }
    rewrite TD2Facts.fireTowers_towers2, TD2Facts.fireTowers_enemies2.
    split; [now apply TD2Facts.reloaded_idle2
           |now apply TD2Facts.volley_idle2].
  - intros tower Hts Hopen.
    assert (Hr : TD2.ready now tower = true) by now apply Z.leb_le.
    rewrite TD2Facts.fireTowers_towers2, TD2Facts.fireTowers_enemies2.
    rewrite Hts. cbn [map TD2.volley]. unfold TD2.reloaded.
    rewrite Hr. split; [reflexivity|].
    rewrite <- TD2Facts.attack_shot2. split.
    + intros Hout. now rewrite TD2Facts.attack_out_of_range2.
    + apply TD2Facts.attack_first2.
Qed.

Lemma fire_rate_gate_witness :
  TD1.fire 500 TD1.sentry TD1.wyrmArriving
  = (TD1.sentry, TD1.wyrmArriving)
  /\ map TD1.Enemy.health
       (TD1.enemies (snd (TD1.fire 1000 TD1.sentry TD1.wyrmArriving)))
     = [40; 155; 40]
  /\ TD1.fireTowers 500 TD1.wyrmArriving = TD1.wyrmArriving
  /\ map TD1.Tower.lastFired
       (TD1.towers (TD1.fireTowers 1000 TD1.wyrmArriving)) = [1000]
  /\ map TD1.Enemy.health
       (TD1.enemies (TD1.fireTowers 1000 TD1.wyrmArriving))
     = [40; 155; 40]
  /\ TD2.fire 500 TD2.sentry TD2.threeArriving
     = (TD2.sentry, TD2.threeArriving)
  /\ map TD2.Tower.lastFired
       (TD2.towers (TD2.fireTowers 1000 TD2.threeArriving)) = [1000]
  /\ map TD2.Enemy.health
       (TD2.enemies (TD2.fireTowers 1000 TD2.threeArriving))
     = [30; 20; 30].
Proof.
  destruct fire_rate_gate as (F1 & S1 & F2 & S2).
  destruct (F1 500 TD1.sentry TD1.wyrmArriving) as [Hclosed1 _].
  destruct (F1 1000 TD1.sentry TD1.wyrmArriving) as [_ Hopen1].
  destruct Hopen1 as (_ & _ & Hfirst1); [vm_compute; discriminate|].
  destruct (S1 500 TD1.wyrmArriving) as (_ & _ & _ & _ & Hidle1 & _).
  destruct Hidle1 as [Ht1 He1];
    [intros t [<-|[]]; reflexivity|].
  destruct (S1 1000 TD1.wyrmArriving) as (_ & _ & _ & _ & _ & Hone1).
  destruct (Hone1 TD1.sentry eq_refl) as (Hl1 & _ & Hs1);
    [vm_compute; discriminate|].
  destruct (F2 500 TD2.sentry TD2.threeArriving) as [Hclosed2 _].
  destruct (S2 1000 TD2.threeArriving) as (_ & _ & _ & _ & _ & Hone2).
  destruct (Hone2 TD2.sentry eq_refl) as (Hl2 & _ & Hs2);
    [vm_compute; discriminate|].
  split; [apply Hclosed1; reflexivity|].
  split.
  { rewrite (Hfirst1 [TD1.arriving 0 200] TD1.wyrm [TD1.arriving 1 4]);
      [reflexivity | reflexivity | intros e [<-|[]]; reflexivity
      | reflexivity]. }
  split; [reflexivity|].
  split; [rewrite Hl1; reflexivity|].
  split.
  { rewrite (Hs1 [TD1.arriving 0 200] TD1.wyrm [TD1.arriving 1 4]);
      [reflexivity | reflexivity | intros e [<-|[]]; reflexivity
      | reflexivity]. }
  split; [apply Hclosed2; reflexivity|].
  split; [rewrite Hl2; reflexivity|].
  rewrite (Hs2 [TD2.arriving 0 200] (TD2.arriving 1 30)
             [TD2.arriving 2 4]);
    [reflexivity | reflexivity | intros e [<-|[]]; reflexivity
    | reflexivity].
Defined.

(** C10: with less gold than the unlock price (three times the catalogue
    cost on one page, five times on the other) [unlockTower] changes
    nothing; otherwise it takes the price and appends the type to the
    unlocked list without looking whether it is there already, so that a
    second call pays again and leaves the type twice in the list. *)
Theorem unlock_unchecked :
  (forall k s,
     TD1.unlockCost k = TD1.cost (TD1.TOWER_TYPES k) * 3
     /\ (TD1.gold s < TD1.unlockCost k -> TD1.unlockTower k s = s)
     /\ (TD1.unlockCost k <= TD1.gold s ->
         TD1.gold (TD1.unlockTower k s) = TD1.gold s - TD1.unlockCost k
         /\ TD1.unlockedTowers (TD1.unlockTower k s)
            = TD1.unlockedTowers s ++ [k])
     /\ (2 * TD1.unlockCost k <= TD1.gold s ->
         TD1.gold (TD1.unlockTower k (TD1.unlockTower k s))
         = TD1.gold s - 2 * TD1.unlockCost k
         /\ TD1.unlockedTowers (TD1.unlockTower k (TD1.unlockTower k s))
            = TD1.unlockedTowers s ++ [k; k]))
  /\ (forall k s,
        TD2.unlockCost k = TD2.cost (TD2.TOWER_TYPES k) * 5
        /\ (TD2.gold s < TD2.unlockCost k -> TD2.unlockTower k s = s)
        /\ (TD2.unlockCost k <= TD2.gold s ->
            TD2.gold (TD2.unlockTower k s)
            = TD2.gold s - TD2.unlockCost k
            /\ TD2.unlockedTowers (TD2.unlockTower k s)
               = TD2.unlockedTowers s ++ [k])
        /\ (2 * TD2.unlockCost k <= TD2.gold s ->
            TD2.gold (TD2.unlockTower k (TD2.unlockTower k s))
            = TD2.gold s - 2 * TD2.unlockCost k
            /\ TD2.unlockedTowers
                 (TD2.unlockTower k (TD2.unlockTower k s))
               = TD2.unlockedTowers s ++ [k; k])).
Proof.
  split; intros k s; (split; [reflexivity|]).
  - split; [apply TD1Facts.unlockTower_short|].
    split; [apply TD1Facts.unlockTower_paid
           |apply TD1Facts.unlockTower_twice].
  - split; [apply TD2Facts.unlockTower_short2|].
    split; [apply TD2Facts.unlockTower_paid2
           |apply TD2Facts.unlockTower_twice2].
Qed.

Lemma unlock_unchecked_witness :
  TD1.gold (TD1.unlockTower TD1.archer
              (TD1.unlockTower TD1.archer (TD1.set_gold 400 TD1.initial)))
  = 100
  /\ TD1.unlockedTowers
       (TD1.unlockTower TD1.archer
          (TD1.unlockTower TD1.archer (TD1.set_gold 400 TD1.initial)))
     = [TD1.archer; TD1.cannon; TD1.archer; TD1.archer]
  /\ TD1.unlockTower TD1.tesla TD1.initial = TD1.initial.
Proof.
  destruct unlock_unchecked as [H _].
  destruct (H TD1.archer (TD1.set_gold 400 TD1.initial))
    as (_ & _ & _ & Htwice).
  destruct (H TD1.tesla TD1.initial) as (_ & Hshort & _).
  destruct Htwice as [Hg Hu]; [vm_compute; discriminate|].
  split; [rewrite Hg; reflexivity|].
  split; [rewrite Hu; reflexivity|].
  apply Hshort. reflexivity.
Defined.

(** X24: on the page with several maps [placeTower]
    rejects when no tower type is selected, when placement mode is not
    armed, when gold is below the cost, and when the position is closer
    than 30 units to a waypoint of the current map; otherwise it appends
    the tower, takes the cost and disarms placement mode; in every
    reachable state every tower on the board is at least 30 units from
    every waypoint of the current map.  On the other page [placeTower]
    rejects in the first three cases only and accepts any position. *)
Theorem placement_clearance :
  (forall s, TD1.reachable s ->
     Forall (fun t => TD1.clearOfWaypoints (TD1.currentPath s) t = true)
       (TD1.towers s))
  /\ (forall x y now s,
        (TD1.selectedTower s = None -> TD1.placeTower x y now s = s)
        /\ (TD1.placementMode s = false -> TD1.placeTower x y now s = s)
        /\ (forall k, TD1.selectedTower s = Some k ->
            (TD1.gold s < TD1.cost (TD1.TOWER_TYPES k) ->
             TD1.placeTower x y now s = s)
            /\ (existsb (TD1.tooClose x y) (TD1.currentPath s) = true ->
                TD1.placeTower x y now s = s)
            /\ (TD1.placementMode s = true ->
                TD1.cost (TD1.TOWER_TYPES k) <= TD1.gold s ->
                existsb (TD1.tooClose x y) (TD1.currentPath s) = false ->
                TD1.towers (TD1.placeTower x y now s)
                = TD1.towers s ++ [TD1.newTower k x y now]
                /\ TD1.gold (TD1.placeTower x y now s)
                   = TD1.gold s - TD1.cost (TD1.TOWER_TYPES k)
                /\ TD1.placementMode (TD1.placeTower x y now s) = false)))
  /\ (forall x y now s,
        (TD2.selectedTower s = None -> TD2.placeTower x y now s = s)
        /\ (TD2.placementMode s = false -> TD2.placeTower x y now s = s)
        /\ (forall k, TD2.selectedTower s = Some k ->
            (TD2.gold s < TD2.cost (TD2.TOWER_TYPES k) ->
             TD2.placeTower x y now s = s)
            /\ (TD2.placementMode s = true ->
                TD2.cost (TD2.TOWER_TYPES k) <= TD2.gold s ->
                TD2.towers (TD2.placeTower x y now s)
                = TD2.towers s ++ [TD2.newTower k x y now]
                /\ TD2.gold (TD2.placeTower x y now s)
                   = TD2.gold s - TD2.cost (TD2.TOWER_TYPES k)
                /\ TD2.placementMode (TD2.placeTower x y now s) = false))).
Proof.
  split; [exact TD1Facts.reachable_towersClear|].
  split; [exact TD1Facts.placeTower_cases|exact TD2Facts.placeTower_cases2].
Qed.

Lemma placement_clearance_witness :
  TD1.placeTower 10 170 17
    (TD1.set_placementMode true TD1.initial)
  = TD1.set_placementMode true TD1.initial
  /\ Forall (fun t => TD1.clearOfWaypoints
                        (TD1.path (TD1.MAPS TD1.greenlands)) t = true)
       (TD1.towers
          (TD1.placeTower 60 140 17
             (TD1.set_placementMode true TD1.initial))).
Proof.
  destruct placement_clearance as (Hinv & Hcases & _). split.
  - destruct (Hcases 10%float 170%float 17
                (TD1.set_placementMode true TD1.initial))
      as (_ & _ & Hk).
    destruct (Hk TD1.archer eq_refl) as (_ & Hclose & _).
    apply Hclose. reflexivity.
  - apply (Hinv (TD1.placeTower 60 140 17
                   (TD1.set_placementMode true TD1.initial))).
    exists [TD1.ClickTowerCard TD1.archer; TD1.ClickBoard 60 140 17].
    reflexivity.
Defined.

(** C5: an archer tower placed at (60, 180) on Greenlands is accepted,
    although the check under the comment "too close to path" is meant to
    keep towers off the path: it is 60 units from the two nearest
    waypoints, the only points the loop looks at, and it stands on the
    first segment of the path, at distance 0. *)
Lemma tower_on_path :
  option_map
    (fun s => map (fun t => (TD1.Tower.x t, TD1.Tower.y t,
                             TD1.nearPath (TD1.currentPath s)
                               (TD1.Tower.x t) (TD1.Tower.y t),
                             TD1.segmentDistance
                               (TD1.Tower.x t) (TD1.Tower.y t)
                               (TD1.pt 0 180) (TD1.pt 120 180)))
                (TD1.towers s))
    (TD1.run [TD1.ClickTowerCard TD1.archer; TD1.ClickBoard 60 180 17]
       TD1.initial)
  = Some [(60%float, 180%float, true, 0%float)].
Proof. vm_compute. reflexivity. Qed.

(** C8, as the code has it: when the wave-completion effect finds the
    session playing with no enemy left and the wave at or past the wave
    count of the map, the session is over and stopped and the experience
    is the fixed bonus plus the per-wave bonus plus what was earned
    before (150 + 15 per wave on one page, 100 + 10 per wave on the
    other).  On the page with several maps the victory flag is set and
    the next map of the catalogue is in the unlocked list afterwards,
    added only if it was missing, so that a repeated victory adds
    nothing.  The other page keeps no list of unlocked maps. *)
Theorem victory_transition :
  (forall address session s,
     TD1.lastWaveCleared s ->
     let s' := TD1.waveCompletion address session s in
     TD1.victory s' = true /\ TD1.gameOver s' = true
     /\ TD1.isPlaying s' = false
     /\ TD1.xpEarned s' = 150 + TD1.wave s * 15 + TD1.xpEarned s
     /\ forall next, TD1.nextMap (TD1.currentMap s) = Some next ->
          In next (TD1.unlockedMaps s')
          /\ (NoDup (TD1.unlockedMaps s) -> NoDup (TD1.unlockedMaps s'))
          /\ (In next (TD1.unlockedMaps s) ->
              TD1.unlockedMaps s' = TD1.unlockedMaps s)
          /\ TD1.unlockedMaps (TD1.handleVictory address session s')
             = TD1.unlockedMaps s')
  /\ (forall address session s,
        TD2.lastWaveCleared s ->
        let s' := TD2.waveCompletion address session s in
        TD2.gameOver s' = true /\ TD2.isPlaying s' = false
        /\ TD2.xpEarned s' = 100 + TD2.wave s * 10 + TD2.xpEarned s).
Proof.
  split; intros address session s Hc; cbv zeta.
  - rewrite (TD1Facts.waveCompletion_victory _ _ _ Hc).
    destruct (TD1Facts.handleVictory_flags address session s)
      as (Hv & Hg & Hp & Hx).
    repeat (split; [assumption || lia|]).
    intros next Hn.
    exact (TD1Facts.victory_unlocks address session s next Hn).
  - rewrite (TD2Facts.waveCompletion_victory2 _ _ _ Hc).
    destruct (TD2Facts.handleVictory_flags2 address session s)
      as (Hg & Hp & Hx).
    repeat (split; [assumption || lia|]). lia.
Qed.

Lemma victory_transition_witness :
  TD1.xpEarned (TD1.waveCompletion None true (TD1.cleared 35)) = 335
  /\ TD1.unlockedMaps (TD1.waveCompletion None true (TD1.cleared 35))
     = [TD1.greenlands; TD1.volcano]
  /\ TD2.xpEarned (TD2.waveCompletion None true (TD2.cleared 35)) = 235.
Proof.
  destruct victory_transition as [H1 H2].
  assert (Hc1 : TD1.lastWaveCleared (TD1.cleared 35)).
  { unfold TD1.lastWaveCleared. simpl. repeat split; lia. }
  assert (Hc2 : TD2.lastWaveCleared (TD2.cleared 35)).
  { unfold TD2.lastWaveCleared. simpl. repeat split; lia. }
  destruct (H1 None true (TD1.cleared 35) Hc1) as (_ & _ & _ & Hx & _).
  destruct (H2 None true (TD2.cleared 35) Hc2) as (_ & _ & Hx2).
  split; [rewrite Hx; reflexivity|].
  split; [reflexivity|rewrite Hx2; reflexivity].
Defined.

(** On the page with one path a victory on the forest leaves the desert
    as locked as the catalogue has it: its button stays disabled, and a
    click on it after the victory and a reset changes nothing. *)
Lemma victory_unlocks_no_map :
  let s' := TD2.waveCompletion None true (TD2.cleared 35) in
  TD2.gameOver s' = true
  /\ TD2.mapUnlocked (TD2.MAPS TD2.desert) = false
  /\ TD2.handle (TD2.ClickMap TD2.desert) (TD2.resetGame s')
     = TD2.resetGame s'.
Proof. vm_compute. repeat split. Qed.

(** C9: for a wave number of at least 1 the spawner returns and appends
    exactly [wave * 2 + 5] enemies on one page and [wave * 2 + 3] on the
    other; each has the base health of its type (20 on the page with a
    single kind) plus ten per wave, stands at the height of the first
    waypoint, heads for it, and the enemy of index [j] is 50 (respectively
    40) units times [j] to the left of it.  The random draws are those of
    [Math.random]: floats [r] with [0 <= r < 1], each of which selects an
    entry of the type table.  In particular wave 1 of the first page
    spawns 7 enemies, each with its base health plus 10. *)
Theorem spawn_roster :
  (forall rnd s,
     1 <= TD1.wave s ->
     (forall j, (j < Z.to_nat (TD1.wave s * 2 + 5))%nat ->
                (0 <=? rnd j)%float = true /\ (rnd j <? 1)%float = true) ->
     exists first rest es,
       TD1.currentPath s = first :: rest
       /\ TD1.spawnWave rnd s
          = Some (TD1.set_enemies (TD1.enemies s ++ es) s)
       /\ Z.of_nat (length es) = TD1.wave s * 2 + 5
       /\ (TD1.wave s = 1 -> length es = 7%nat)
       /\ forall j e, nth_error es j = Some e ->
            TD1.Enemy.health e
            = TD1.base_health (TD1.baseStats (TD1.Enemy.type e))
              + TD1.wave s * 10
            /\ TD1.Enemy.x e = (px first - Z2f (Z.of_nat j * 50))%float
            /\ TD1.Enemy.y e = py first
            /\ TD1.Enemy.pathIndex e = 0%nat)
  /\ (forall wave r,
        0 <= wave ->
        (0 <=? r)%float = true -> (r <? 1)%float = true ->
        exists k type,
          0 <= k <= Z.min (wave / 3) 4
          /\ nth_error TD1.enemyTypes (Z.to_nat k) = Some type
          /\ TD1.pickType wave r = Some type)
  /\ (forall s,
        1 <= TD2.wave s ->
        exists first rest es,
          TD2.ENEMY_PATH = first :: rest
          /\ TD2.spawnWave s = TD2.set_enemies (TD2.enemies s ++ es) s
          /\ Z.of_nat (length es) = TD2.wave s * 2 + 3
          /\ forall j e, nth_error es j = Some e ->
               TD2.Enemy.health e = 20 + TD2.wave s * 10
               /\ TD2.Enemy.x e
                  = (px first - Z2f (Z.of_nat j * 40))%float
               /\ TD2.Enemy.y e = py first
               /\ TD2.Enemy.pathIndex e = 0%nat).
Proof.
  split; [|split].
  - intros rnd s Hw Hr.
    destruct (TD1Facts.spawnWave_draws rnd s ltac:(lia) Hr)
      as (first & rest & es & Hp & Hs & Hlen & Hall).
    exists first, rest, es.
    split; [exact Hp|]. split; [exact Hs|].
    split; [lia|]. split; [intros H1; rewrite H1 in Hlen; simpl in Hlen; lia|].
    exact Hall.
  - exact TD1Facts.pickType_draw.
  - intros s Hw.
    destruct (TD2Facts.newEnemies_spec2 (TD2.wave s)) as [Hlen Hall].
    eexists. eexists. exists (TD2.newEnemies (TD2.wave s)).
    split; [reflexivity|]. split; [reflexivity|].
    split; [lia|exact Hall].
Qed.

Lemma spawn_roster_witness :
  (exists es,
     TD1.spawnWave TD1.half (TD1.startGame TD1.initial)
     = Some (TD1.set_enemies es (TD1.startGame TD1.initial))
     /\ length es = 7%nat
     /\ map TD1.Enemy.health es = [40; 40; 40; 40; 40; 40; 40])
  /\ TD1.pickType 7 0.99 = Some TD1.troll
  /\ exists es,
       TD2.spawnWave (TD2.startGame TD2.initial)
       = TD2.set_enemies es (TD2.startGame TD2.initial)
       /\ length es = 5%nat.
Proof.
  destruct spawn_roster as (H & Hpick & H2).
  split; [|split].
  - destruct (H TD1.half (TD1.startGame TD1.initial))
      as (first & rest & es & Hp & Hs & Hlen & H7 & Hall).
    + vm_compute. discriminate.
    + intros j _. split; reflexivity.
    + exists es. split; [exact Hs|]. split; [apply H7; reflexivity|].
      assert (E : TD1.spawnWave TD1.half (TD1.startGame TD1.initial)
                  = Some (TD1.set_enemies
                            (TD1.enemies (TD1.startGame TD1.initial) ++ es)
                            (TD1.startGame TD1.initial))) by exact Hs.
      vm_compute in E. injection E as E. rewrite <- E. reflexivity.
  - destruct (Hpick 7 0.99%float) as (k & type & Hk & Hn & Hp);
      [lia | reflexivity | reflexivity |].
    pose proof Hp as E. vm_compute in E. rewrite Hp. symmetry. exact E.
  - destruct (H2 (TD2.startGame TD2.initial))
      as (first & rest & es & Hp & Hs & Hlen & Hall).
    + vm_compute. discriminate.
    + exists es. split; [exact Hs|].
      assert (Hw : TD2.wave (TD2.startGame TD2.initial) = 1)
        by reflexivity.
      rewrite Hw in Hlen. lia.
Defined.

(** * Further properties of the page with armoured enemies *)

Lemma mapS_map_fixed {A W B : Type} (f : A -> W -> A * W) (g : A -> B) :
  (forall a w, g (fst (f a w)) = g a) ->
  forall l w, map g (fst (mapS f l w)) = map g l.
Proof.
  intros Hf l. induction l as [|a l IH]; intros w; simpl; [reflexivity|].
  specialize (Hf a w). destruct (f a w) as [a' w1].
  specialize (IH w1). destruct (mapS f l w1) as [r w2].
  simpl in *. now rewrite Hf, IH.
Qed.

Lemma Forall_filter {A} (P : A -> Prop) (p : A -> bool) l :
  Forall P l -> Forall (fun a => P a /\ p a = true) (filter p l).
Proof.
  induction 1 as [|a l Ha Hl IH]; simpl; [constructor|].
  destruct (p a) eqn:E; [constructor; auto|exact IH].
Qed.

Lemma NoDup_map_injective {A B} (f : A -> B) l :
  (forall a b, f a = f b -> a = b) -> NoDup l -> NoDup (map f l).
Proof.
  intros Hf. induction 1 as [|a l Ha Hl IH]; simpl; constructor; auto.
  intros Hin. apply in_map_iff in Hin as (b & Hb & Hin).
  apply Hf in Hb. subst. contradiction.
Qed.

Module TD1More.
Import TD1 TD1Facts.

(** ** Towers are never moved *)

(** X1: The game loop leaves the towers as they are but for [lastFired]:
    none is added, removed, moved or changed in type, damage, range or
    fire rate. *)
Theorem gameLoop_keeps_emplacements (now : Z) (s : World) :
  map emplacement (towers (gameLoop now s)) = map emplacement (towers s).
Proof.
  unfold gameLoop, fireTowers.
  destruct (moveEnemies_gold (currentPath s) s) as [_ Ht].
  pose proof (mapS_map_fixed (fire now) emplacement) as Hm.
  specialize (Hm (fun t w =>
    ltac:(unfold fire; destruct (_ <? _); reflexivity))).
  specialize (Hm (towers (moveEnemies (currentPath s) s))
                (moveEnemies (currentPath s) s)).
  destruct (mapS _ _ _) as [l s']. simpl in *. now rewrite Hm, Ht.
Qed.

(** ** Waypoint indices *)

(** X2: The movement step never lowers the waypoint index of an enemy, raises
    it by at most one, and keeps an index that is inside the path inside
    the path. *)
Theorem moveEnemy_pathIndex (path : list Point) (e : Enemy.t) (s : World) :
  let e' := fst (moveEnemy path e s) in
  (Enemy.pathIndex e <= Enemy.pathIndex e' <= Enemy.pathIndex e + 1)%nat
  /\ ((Enemy.pathIndex e < length path)%nat ->
      (Enemy.pathIndex e' < length path)%nat).
Proof.
  unfold moveEnemy.
  destruct (nth_error _ _); [|simpl; lia].
  destruct (_ <? _)%float; [|simpl; lia].
  destruct (Enemy.pathIndex e <? length path - 1)%nat eqn:E;
    simpl; [|lia].
  apply Nat.ltb_lt in E. lia.
Qed.

Lemma moveEnemy_pathIndex_witness :
  Enemy.pathIndex
    (fst (moveEnemy (path (MAPS greenlands)) (arriving 0 3) initial))
  = 7%nat.
Proof.
  destruct (moveEnemy_pathIndex (path (MAPS greenlands)) (arriving 0 3)
              initial) as [H1 H2].
  assert (H : (Enemy.pathIndex (arriving 0 3)
               < length (path (MAPS greenlands)))%nat)
    by (vm_compute; lia).
  specialize (H2 H). simpl in H1, H2 |- *. lia.
Defined.


(** ** Soundness of the reachable states *)

Lemma soundEnemy_tame path e : soundEnemy path e -> tameEnemy path e.
Proof. unfold soundEnemy, tameEnemy. intros (H1 & H2 & H3). lia. Qed.

Lemma tame_alive_sound path l :
  Forall (tameEnemy path) l -> Forall (soundEnemy path) (filter alive l).
Proof.
  intros H. apply Forall_filter with (p := alive) in H.
  eapply Forall_impl; [|exact H].
  intros e [(H1 & H2 & H3 & H4) Ha]. unfold alive in Ha.
  apply Z.ltb_lt in Ha. unfold soundEnemy. lia.
Qed.

Lemma moveEnemy_tame path e s :
  tameEnemy path e -> tameEnemy path (fst (moveEnemy path e s)).
Proof.
  intros (H1 & H2 & H3 & H4). unfold moveEnemy.
  destruct (nth_error _ _); [|now repeat split].
  destruct (_ <? _)%float; [|now repeat split].
  destruct (Enemy.pathIndex e <? length path - 1)%nat eqn:E;
    unfold tameEnemy; simpl; [|lia].
  apply Nat.ltb_lt in E. lia.
Qed.

Lemma loseLife_score s : soundScore s -> soundScore (loseLife s).
Proof.
  unfold soundScore, loseLife. intros (H1 & H2 & H3 & H4 & H5).
  destruct (lives s - 1 <=? 0) eqn:E; simpl.
  - apply Z.leb_le in E. repeat split; try lia; try discriminate.
  - apply Z.leb_gt in E. repeat split; try lia; try exact H1.
Qed.

Lemma moveEnemy_score path e s :
  soundScore s -> soundScore (snd (moveEnemy path e s)).
Proof.
  intros H. unfold moveEnemy.
  destruct (nth_error _ _); [|exact H].
  destruct (_ <? _)%float; [|exact H].
  destruct (_ <? _)%nat; [exact H|].
  now apply loseLife_score.
Qed.

Lemma moveEnemies_enemies path s :
  enemies (moveEnemies path s)
  = filter alive (fst (mapS (moveEnemy path) (enemies s) s)).
Proof. unfold moveEnemies. now destruct (mapS _ _ _). Qed.

Lemma moveEnemies_score path s :
  soundScore s -> soundScore (moveEnemies path s).
Proof.
  intros H. unfold moveEnemies.
  pose proof (mapS_world_ind (moveEnemy path) soundScore
                (moveEnemy_score path) (enemies s) s H) as Hm.
  destruct (mapS _ _ _) as [l s']. exact Hm.
Qed.

Lemma currentPath_eq s s' :
  currentMap s' = currentMap s -> currentPath s' = currentPath s.
Proof. unfold currentPath, currentMapData. now intros ->. Qed.

Lemma moveEnemies_sound s :
  soundWorld s -> soundWorld (moveEnemies (currentPath s) s).
Proof.
  intros (H1 & H2 & H3 & H4 & H5 & H6).
  pose proof (moveEnemies_score (currentPath s) s
                (conj H1 (conj H2 (conj H3 (conj H4 H5)))))
    as (G1 & G2 & G3 & G4 & G5).
  unfold soundWorld. repeat (split; [assumption|]).
  destruct (moveEnemies_controls (currentPath s) s) as (_ & Hm & _).
  rewrite (currentPath_eq _ _ Hm), moveEnemies_enemies. apply tame_alive_sound.
  apply mapS_Forall.
  - intros e w. apply moveEnemy_tame.
  - eapply Forall_impl; [|exact H6]. apply soundEnemy_tame.
Qed.

Lemma struck_tame path tower target e :
  tameEnemy path e -> tameEnemy path (struck tower target e).
Proof.
  intros (H1 & H2 & H3 & H4). unfold struck.
  destruct (String.eqb _ _); [|now repeat split].
  unfold tameEnemy, effectiveDamage. simpl. lia.
Qed.

Lemma rewards_nonneg path l :
  Forall (soundEnemy path) l -> 0 <= rewards l.
Proof.
  unfold rewards. induction 1 as [|e l (He & _) Hl IH]; simpl; lia.
Qed.

Lemma Forall_filter_sub {A} (P : A -> Prop) (p : A -> bool) l :
  Forall P l -> Forall P (filter p l).
Proof.
  intros H. apply Forall_forall. intros a Ha.
  apply filter_In in Ha as [Ha _].
  now apply (proj1 (Forall_forall P l) H).
Qed.

Lemma attack_sound tower s : soundWorld s -> soundWorld (attack tower s).
Proof.
  intros (H1 & H2 & H3 & H4 & H5 & H6).
  destruct (attack_outcome tower s s (sameOutcome_refl s))
    as (Gl & Gg & Gp).
  destruct (attack_controls tower s s (sameControls_refl s))
    as (Gw & Gm & _).
  pose proof (attack_gold tower s) as Hgold.
  assert (Hk : 0 <= rewards (killedBy tower s)).
  { unfold killedBy. destruct (filter (inRange tower) (enemies s));
      [unfold rewards; simpl; lia|].
    apply (rewards_nonneg (currentPath s)). now apply Forall_filter_sub. }
  unfold soundWorld.
  rewrite (currentPath_eq _ _ Gm), Gl, Gg, Gp, Gw, Hgold.
  repeat (split; [assumption || lia|]).
  destruct (filter (inRange tower) (enemies s)) as [|target rest] eqn:E.
  - rewrite (attack_none tower s E). exact H6.
  - rewrite (attack_enemies tower s target rest E).
    apply tame_alive_sound. apply Forall_map.
    eapply Forall_impl; [|exact H6].
    intros e He. apply struck_tame. now apply soundEnemy_tame.
Qed.

Lemma fire_sound now tower s :
  soundWorld s -> soundWorld (snd (fire now tower s)).
Proof.
  intros H. unfold fire. destruct (_ <? _); simpl; [exact H|].
  now apply attack_sound.
Qed.

Lemma set_towers_sound ts s : soundWorld s -> soundWorld (set_towers ts s).
Proof. exact (fun H => H). Qed.

Lemma fireTowers_sound now s : soundWorld s -> soundWorld (fireTowers now s).
Proof.
  intros H. unfold fireTowers.
  pose proof (mapS_world_ind (fire now) soundWorld
                (fire_sound now) (towers s) s H) as Hm.
  destruct (mapS _ _ _) as [l s']. now apply set_towers_sound.
Qed.

Lemma gameLoop_sound now s : soundWorld s -> soundWorld (gameLoop now s).
Proof.
  intros H. unfold gameLoop. now apply fireTowers_sound, moveEnemies_sound.
Qed.

Lemma frame_sound now s : soundWorld s -> soundWorld (frame now s).
Proof.
  intros H. unfold frame. destruct (_ || _); [exact H|].
  now apply gameLoop_sound.
Qed.

Lemma newEnemy_sound wave path r i e :
  0 < wave -> newEnemy wave path r i = Some e -> soundEnemy path e.
Proof.
  intros Hw. unfold newEnemy.
  destruct (pickType wave r) as [type|]; [|discriminate].
  destruct path as [|first rest]; [discriminate|].
  intros H. injection H as <-. unfold soundEnemy.
  cbn [Enemy.reward Enemy.health Enemy.maxHealth Enemy.pathIndex length].
  destruct type; cbn [baseStats base_health base_reward]; lia.
Qed.

Lemma spawnLoop_sound wave path rnd : forall n i es,
  0 < wave -> spawnLoop wave path rnd i n = Some es ->
  Forall (soundEnemy path) es.
Proof.
  induction n as [|n IH]; intros i es Hw; simpl.
  - intros H. injection H as <-. constructor.
  - destruct (newEnemy wave path (rnd i) i) as [e|] eqn:Ee; [|discriminate].
    destruct (spawnLoop wave path rnd (S i) n) as [es'|] eqn:Es;
      [|discriminate].
    intros H. injection H as <-. constructor.
    + exact (newEnemy_sound _ _ _ _ _ Hw Ee).
    + exact (IH (S i) es' Hw Es).
Qed.

Lemma spawnEffect_sound rnd s s' :
  spawnEffect rnd s = Some s' -> soundWorld s -> soundWorld s'.
Proof.
  unfold spawnEffect, spawnWave, newEnemies.
  intros Hs H.
  destruct (0 <? wave s) eqn:Ew; simpl in Hs;
    [|injection Hs as <-; exact H].
  destruct (isPlaying s); [|injection Hs as <-; exact H].
  destruct (spawnLoop _ _ _ _ _) as [es|] eqn:Es; [|discriminate].
  injection Hs as <-. apply Z.ltb_lt in Ew.
  destruct H as (H1 & H2 & H3 & H4 & H5 & H6).
  unfold soundWorld. repeat (split; [assumption|]).
  apply Forall_app. split; [exact H6|].
  exact (spawnLoop_sound _ _ _ _ _ _ Ew Es).
Qed.

Lemma placeTower_sound x y now s :
  soundWorld s -> soundWorld (placeTower x y now s).
Proof.
  intros H. unfold placeTower.
  destruct (selectedTower s) as [k|]; [|exact H].
  destruct (negb _); [exact H|].
  destruct (gold s <? cost (TOWER_TYPES k)) eqn:E; [exact H|].
  destruct (existsb _ _); [exact H|].
  apply Z.ltb_ge in E. destruct H as (H1 & H2 & H3 & H4 & H5 & H6).
  unfold soundWorld. simpl. repeat (split; [assumption || lia|]).
  exact H6.
Qed.

Lemma unlockTower_sound k s :
  soundWorld s -> soundWorld (unlockTower k s).
Proof.
  intros H. unfold unlockTower.
  destruct (unlockCost k <=? gold s) eqn:E; [|exact H].
  apply Z.leb_le in E. destruct H as (H1 & H2 & H3 & H4 & H5 & H6).
  unfold soundWorld. simpl. repeat (split; [assumption || lia|]).
  exact H6.
Qed.

Lemma resetGame_enemies s : enemies (resetGame s) = [].
Proof. reflexivity. Qed.

Lemma resetGame_sound s : soundWorld (resetGame s).
Proof.
  unfold soundWorld. rewrite resetGame_enemies.
  change (gameOver (resetGame s)) with false.
  change (lives (resetGame s)) with 20.
  change (wave (resetGame s)) with 0.
  change (gold (resetGame s)) with 250.
  repeat split; try lia; try discriminate. constructor.
Qed.

Lemma unlockNextMap_sound s :
  soundWorld s -> soundWorld (unlockNextMap s).
Proof.
  intros H. unfold unlockNextMap. destruct (_ <? _); [|exact H].
  destruct (nth_error _ _); [|exact H].
  destruct (negb _); exact H.
Qed.

Lemma waveCompletion_sound address session s :
  soundWorld s -> soundWorld (waveCompletion address session s).
Proof.
  intros H. unfold waveCompletion. destruct (_ && _); [|exact H].
  destruct (_ <=? _); [|exact H].
  unfold handleVictory.
  set (s2 := set_xpEarned _ _).
  assert (H2 : soundWorld s2).
  { destruct H as (H1 & H2 & H3 & H4 & H5 & H6).
    unfold soundWorld, s2. simpl.
    repeat split; try assumption; try discriminate. }
  exact (unlockNextMap_sound s2 H2).
Qed.

Lemma startGame_sound s :
  gameOver s = false -> soundWorld s -> soundWorld (startGame s).
Proof.
  intros Hg (H1 & H2 & H3 & H4 & H5 & H6). unfold soundWorld. simpl.
  repeat split; try assumption; try lia. intros H. congruence.
Qed.

Lemma resume_sound s :
  gameOver s = false -> soundWorld s -> soundWorld (set_isPlaying true s).
Proof.
  intros Hg (H1 & H2 & H3 & H4 & H5 & H6). unfold soundWorld. simpl.
  repeat split; try assumption. intros H. congruence.
Qed.

Lemma pause_sound s : soundWorld s -> soundWorld (set_isPlaying false s).
Proof.
  intros (H1 & H2 & H3 & H4 & H5 & H6). unfold soundWorld. simpl.
  repeat split; assumption.
Qed.

Lemma waveTimer_sound n s :
  soundWorld s -> soundWorld (waveTimer (set_timers n s)).
Proof.
  intros (H1 & H2 & H3 & H4 & H5 & H6). unfold soundWorld. simpl.
  repeat split; try assumption. lia.
Qed.

Lemma handle_sound ev s s' :
  handle ev s = Some s' -> soundWorld s -> soundWorld s'.
Proof.
  destruct ev; unfold handle; intros Hs H; try (injection Hs as <-).
  - now destruct (includes _ _ _).
  - destruct (includes _ _ _); [exact H|]. now apply unlockTower_sound.
  - destruct (placementMode s); [|exact H]. now apply placeTower_sound.
  - destruct (isPlaying s); simpl; [exact H|].
    destruct (gameOver s) eqn:Eg; simpl; [exact H|].
    destruct (wave s =? 0); [|exact H]. now apply startGame_sound.
  - destruct (isPlaying s); [|exact H]. now apply pause_sound.
  - destruct (isPlaying s); simpl; [exact H|].
    destruct (0 <? wave s); simpl; [|exact H].
    destruct (gameOver s) eqn:Eg; simpl; [exact H|].
    now apply resume_sound.
  - apply resetGame_sound.
  - destruct (includes _ _ _); [apply resetGame_sound|exact H].
  - now apply frame_sound.
  - now apply waveCompletion_sound.
  - exact (spawnEffect_sound rnd s s' Hs H).
  - destruct (timers s); injection Hs as <-; [exact H|].
    now apply waveTimer_sound.
Qed.

Lemma initial_sound : soundWorld initial.
Proof.
  unfold soundWorld. simpl. repeat split; try lia; try discriminate.
  constructor.
Qed.

Lemma run_sound evs : forall s s',
  run evs s = Some s' -> soundWorld s -> soundWorld s'.
Proof.
  induction evs as [|ev evs IH]; simpl; intros s s' Hr H.
  - injection Hr as <-. exact H.
  - destruct (handle ev s) as [s1|] eqn:E; [|discriminate].
    exact (IH s1 s' Hr (handle_sound ev s s1 E H)).
Qed.

Lemma reachable_sound s : reachable s -> soundWorld s.
Proof. intros [evs Hr]. exact (run_sound evs initial s Hr initial_sound). Qed.


(** X3: In every reachable state gold is at least zero: towers and unlocks
    are only sold to a player who can pay, and rewards are never
    negative. *)
Theorem gold_never_negative (s : World) : reachable s -> 0 <= gold s.
Proof. intros H. apply (reachable_sound s H). Qed.

Lemma gold_never_negative_witness :
  exists s, run (skirmish 200) initial = Some s /\ 0 <= gold s.
Proof.
  destruct (run (skirmish 200) initial) as [s|] eqn:E;
    [|vm_compute in E; discriminate E].
  exists s. split; [reflexivity|].
  apply gold_never_negative. exists (skirmish 200). exact E.
Defined.

(** X4: In every reachable state a game that is over is not playing, a game
    that is not over has at least one life left, and lives never exceed
    the initial 20. *)
Theorem game_over_stops_play (s : World) :
  reachable s ->
  (gameOver s = true -> isPlaying s = false)
  /\ (gameOver s = false -> 0 < lives s)
  /\ lives s <= 20.
Proof.
  intros H. destruct (reachable_sound s H) as (H1 & H2 & H3 & _).
  now repeat split.
Qed.

Lemma game_over_stops_play_witness :
  exists s, run (undefended None 740) initial = Some s
            /\ gameOver s = true /\ isPlaying s = false.
Proof.
  destruct (run (undefended None 740) initial) as [s|] eqn:E;
    [|vm_compute in E; discriminate E].
  exists s. split; [reflexivity|].
  assert (Hg : option_map gameOver (run (undefended None 740) initial)
               = Some true) by (vm_compute; reflexivity).
  rewrite E in Hg. injection Hg as Hg. split; [exact Hg|].
  apply (game_over_stops_play s); [|exact Hg].
  exists (undefended None 740). exact E.
Defined.

(** X5: In every reachable state every enemy on the board has health above
    zero and at most its maximum, a reward that is not negative, and a
    waypoint index inside the path of the current map: the branch of the
    movement step for a missing waypoint is never taken. *)
Theorem enemies_stay_sound (s : World) :
  reachable s -> Forall (soundEnemy (currentPath s)) (enemies s).
Proof. intros H. apply (reachable_sound s H). Qed.

Lemma enemies_stay_sound_witness :
  exists s, run (skirmish 200) initial = Some s
            /\ Forall (soundEnemy (currentPath s)) (enemies s).
Proof.
  destruct (run (skirmish 200) initial) as [s|] eqn:E;
    [|vm_compute in E; discriminate E].
  exists s. split; [reflexivity|].
  apply enemies_stay_sound. exists (skirmish 200). exact E.
Defined.

(** ** The wave counter and the end of the game *)

Lemma unlockNextMap_wave s :
  wave (unlockNextMap s) = wave s
  /\ gameOver (unlockNextMap s) = gameOver s.
Proof.
  unfold unlockNextMap. destruct (_ <? _); [|now split].
  destruct (nth_error _ _); [|now split].
  destruct (negb _); now split.
Qed.

Lemma waveCompletion_wave address session s :
  wave (waveCompletion address session s) = wave s
  /\ (gameOver s = true ->
      gameOver (waveCompletion address session s) = true).
Proof.
  unfold waveCompletion. destruct (_ && _); [|now split].
  destruct (_ <=? _); [|now split].
  unfold handleVictory. cbn [wave gameOver set_saved].
  destruct (unlockNextMap_wave
              (set_xpEarned (xpEarned s + 150 + wave s * 15)
                 (set_victory true
                    (set_gameOver true (set_isPlaying false s)))))
    as [-> ->].
  now split.
Qed.

Lemma spawnEffect_wave rnd s s' :
  spawnEffect rnd s = Some s' ->
  wave s' = wave s /\ gameOver s' = gameOver s.
Proof.
  unfold spawnEffect, spawnWave. destruct (_ && _).
  - destruct (newEnemies _ _ _); [|discriminate].
    intros H. injection H as <-. now split.
  - intros H. injection H as <-. now split.
Qed.

Lemma handle_wave ev s s' :
  resets ev = false -> handle ev s = Some s' ->
  wave s <= wave s' /\ (gameOver s = true -> gameOver s' = true).
Proof.
  destruct ev; unfold handle, resets; intros Hr Hs;
    try discriminate Hr; try (injection Hs as <-).
  - destruct (includes _ _ _); split; auto; simpl; lia.
  - destruct (includes _ _ _); [split; auto; lia|].
    unfold unlockTower. destruct (_ <=? _); split; auto; simpl; lia.
  - destruct (placementMode s); [|split; auto; lia].
    unfold placeTower. destruct (selectedTower s); [|split; auto; lia].
    destruct (negb _); [split; auto; lia|].
    destruct (_ <? _); [split; auto; lia|].
    destruct (existsb _ _); split; auto; simpl; lia.
  - destruct (isPlaying s); simpl; [split; auto; lia|].
    destruct (gameOver s) eqn:Eg; simpl; [split; auto; lia|].
    destruct (wave s =? 0) eqn:E; [|split; auto; lia].
    apply Z.eqb_eq in E. simpl. split; [lia|discriminate].
  - destruct (isPlaying s); split; auto; simpl; lia.
  - destruct (isPlaying s); simpl; [split; auto; lia|].
    destruct (0 <? wave s); simpl; [|split; auto; lia].
    destruct (gameOver s) eqn:Eg; simpl; split; auto; lia.
  - unfold frame. destruct (isPlaying s); simpl; [|split; auto; lia].
    destruct (gameOver s) eqn:Eg; simpl; [split; auto; lia|].
    destruct (gameLoop_controls now s) as (-> & _).
    split; [lia|discriminate].
  - destruct (waveCompletion_wave address session s) as [-> Hg].
    split; [lia|exact Hg].
  - destruct (spawnEffect_wave rnd s s' Hs) as [-> ->].
    split; auto; lia.
  - destruct (timers s); injection Hs as <-; simpl; split; auto; lia.
Qed.

(** X6: Within one session (no reset, no change of map) the wave number never
    goes down, and a game that is over stays over: only a reset or a
    change of map starts a new game. *)
Theorem session_runs_forward (evs : list Event) (s s' : World) :
  oneSession evs -> run evs s = Some s' ->
  wave s <= wave s' /\ (gameOver s = true -> gameOver s' = true).
Proof.
  unfold oneSession. revert s.
  induction evs as [|ev evs IH]; intros s Ho Hr; simpl in *.
  - injection Hr as <-. split; [lia|auto].
  - apply andb_prop in Ho as [Hev Ho]. apply negb_true_iff in Hev.
    destruct (handle ev s) as [s1|] eqn:E; [|discriminate].
    destruct (handle_wave ev s s1 Hev E) as [H1 H2].
    destruct (IH s1 Ho Hr) as [H3 H4]. split; [lia|auto].
Qed.

Lemma session_runs_forward_witness :
  exists s, run (undefended None 740) initial = Some s /\ 0 <= wave s.
Proof.
  destruct (run (undefended None 740) initial) as [s|] eqn:E;
    [|vm_compute in E; discriminate E].
  exists s. split; [reflexivity|].
  apply (session_runs_forward (undefended None 740) initial s);
    [vm_compute; reflexivity|exact E].
Defined.

(** ** The number of enemies *)

Lemma filter_length_le {A} (p : A -> bool) l :
  (length (filter p l) <= length l)%nat.
Proof. induction l as [|a l IH]; simpl; [lia|]. destruct (p a); simpl; lia. Qed.

Lemma moveEnemies_count path s :
  (length (enemies (moveEnemies path s)) <= length (enemies s))%nat.
Proof.
  rewrite moveEnemies_enemies.
  pose proof (filter_length_le alive
                (fst (mapS (moveEnemy path) (enemies s) s))).
  rewrite mapS_length in H. exact H.
Qed.

Lemma attack_count tower s :
  (length (enemies (attack tower s)) <= length (enemies s))%nat.
Proof.
  destruct (filter (inRange tower) (enemies s)) as [|target rest] eqn:E.
  - rewrite (attack_none tower s E). lia.
  - rewrite (attack_enemies tower s target rest E).
    pose proof (filter_length_le alive
                  (map (struck tower target) (enemies s))).
    rewrite length_map in H. exact H.
Qed.

Lemma fire_count now tower (n : nat) s :
  (length (enemies s) <= n)%nat ->
  (length (enemies (snd (fire now tower s))) <= n)%nat.
Proof.
  intros H. unfold fire. destruct (_ <? _); simpl; [exact H|].
  pose proof (attack_count tower s). lia.
Qed.

(** X7: An animation frame never adds an enemy: only the spawner does. *)
Theorem frame_never_adds_enemies (now : Z) (s : World) :
  (length (enemies (frame now s)) <= length (enemies s))%nat.
Proof.
  unfold frame. destruct (_ || _); [lia|].
  unfold gameLoop, fireTowers.
  pose proof (moveEnemies_count (currentPath s) s) as Hm.
  pose proof (mapS_world_ind (fire now)
                (fun w => (length (enemies w)
                           <= length (enemies s))%nat)
                (fun t w => fire_count now t (length (enemies s)) w)
                (towers (moveEnemies (currentPath s) s))
                (moveEnemies (currentPath s) s) Hm) as Hf.
  destruct (mapS _ _ _) as [l s']. exact Hf.
Qed.


(** ** Kills *)

Section KillCounter.
(** A counter [c] that a kill raises by [q] and nothing else in the game
    loop touches. *)
Variables (c : World -> Z) (q : Z).
Hypothesis c_hit : forall tower target e s,
  c (snd (hit tower target e s))
  = c s + (if slain tower target e then q else 0).
Hypothesis c_loseLife : forall s, c (loseLife s) = c s.
Hypothesis c_set_enemies : forall es s, c (set_enemies es s) = c s.
Hypothesis c_set_towers : forall ts s, c (set_towers ts s) = c s.

Lemma count_filter (p : Enemy.t -> bool) l :
  fold_right Z.add 0 (map (fun e => if p e then q else 0) l)
  = q * Z.of_nat (length (filter p l)).
Proof.
  induction l as [|e l IH]; simpl; [lia|].
  destruct (p e); simpl length; lia.
Qed.

Lemma attack_counter tower s :
  c (attack tower s) = c s + q * Z.of_nat (length (killedBy tower s)).
Proof.
  unfold attack, killedBy.
  destruct (filter _ _) as [|target rest]; [simpl; lia|].
  pose proof (mapS_world_sum (hit tower target) c
                (fun e => if slain tower target e then q else 0)
                (c_hit tower target) (enemies s) s) as Hm.
  rewrite count_filter in Hm.
  destruct (mapS _ _ _) as [l s']. rewrite c_set_enemies. exact Hm.
Qed.

Lemma fire_all_counter now ts : forall s,
  c (snd (mapS (fire now) ts s))
  = c s + q * Z.of_nat (length (killedByTowers now ts s)).
Proof.
  induction ts as [|t ts IH]; intros s; simpl; [lia|].
  unfold fire at 1.
  destruct (now - Tower.lastFired t <? Tower.fireRate t).
  - specialize (IH s). destruct (mapS _ ts s). simpl in *. exact IH.
  - specialize (IH (attack t s)). destruct (mapS _ ts (attack t s)).
    simpl in *. rewrite IH, attack_counter, length_app. lia.
Qed.

Lemma moveEnemies_counter path s : c (moveEnemies path s) = c s.
Proof.
  unfold moveEnemies.
  assert (Hstep : forall e w, c w = c s ->
                              c (snd (moveEnemy path e w)) = c s).
  { intros e w Hw. unfold moveEnemy.
    destruct (nth_error _ _); [|exact Hw].
    destruct (_ <? _)%float; [|exact Hw].
    destruct (_ <? _)%nat; [exact Hw|].
    simpl. now rewrite c_loseLife. }
  pose proof (mapS_world_ind (moveEnemy path) (fun w => c w = c s)
                Hstep (enemies s) s eq_refl) as Hm.
  destruct (mapS _ _ _) as [l s']. now rewrite c_set_enemies.
Qed.

Lemma gameLoop_counter now s :
  c (gameLoop now s)
  = c s + q * Z.of_nat (length (killedInLoop now s)).
Proof.
  unfold gameLoop, fireTowers, killedInLoop.
  pose proof (fire_all_counter now
                (towers (moveEnemies (currentPath s) s))
                (moveEnemies (currentPath s) s)) as Hm.
  destruct (mapS _ _ _) as [l s']. rewrite c_set_towers.
  simpl in Hm. rewrite Hm, moveEnemies_counter. reflexivity.
Qed.

End KillCounter.

Lemma loseLife_counters s :
  xpEarned (loseLife s) = xpEarned s
  /\ killCount (loseLife s) = killCount s
  /\ totalKills (loseLife s) = totalKills s.
Proof. unfold loseLife. now destruct (_ <=? 0). Qed.

(** X8: One run of the game loop pays, for every enemy a tower brings to
    zero health or below, its reward in gold and 5 experience, and counts
    it once in both kill counters; an enemy that leaves the board at the
    end of the path pays nothing. *)
Theorem gameLoop_pays_per_kill (now : Z) (s : World) :
  let kills := killedInLoop now s in
  gold (gameLoop now s) = gold s + rewards kills
  /\ xpEarned (gameLoop now s) = xpEarned s + 5 * Z.of_nat (length kills)
  /\ killCount (gameLoop now s) = killCount s + Z.of_nat (length kills)
  /\ totalKills (gameLoop now s)
     = totalKills s + Z.of_nat (length kills).
Proof.
  cbv zeta. split; [apply gameLoop_gold|].
  split; [|split].
  - apply (gameLoop_counter xpEarned 5); try reflexivity.
    + intros tower target e w. unfold hit, slain.
      destruct (String.eqb _ _); simpl; [|lia].
      destruct (_ <=? 0); simpl; lia.
    + intros w. apply loseLife_counters.
  - rewrite (gameLoop_counter killCount 1); try reflexivity; [lia| |].
    + intros tower target e w. unfold hit, slain.
      destruct (String.eqb _ _); simpl; [|lia].
      destruct (_ <=? 0); simpl; lia.
    + intros w. apply loseLife_counters.
  - rewrite (gameLoop_counter totalKills 1); try reflexivity; [lia| |].
    + intros tower target e w. unfold hit, slain.
      destruct (String.eqb _ _); simpl; [|lia].
      destruct (_ <=? 0); simpl; lia.
    + intros w. apply loseLife_counters.
Qed.

(** ** One shot, one enemy *)

(** X9: When no other enemy carries the id of the target, a shot changes the
    target alone: the enemies before and after it in the list are left as
    they are. *)
Theorem attack_hits_only_target
  (tower : Tower.t) (s : World) (pre post : list Enemy.t)
  (target : Enemy.t) :
  enemies s = pre ++ target :: post ->
  (forall e, In e pre -> inRange tower e = false) ->
  inRange tower target = true ->
  (forall e, In e (pre ++ post) -> Enemy.id e <> Enemy.id target) ->
  enemies (attack tower s)
  = filter alive
      (pre ++ with_health
                (Enemy.health target - effectiveDamage tower target)
                target :: post).
Proof.
  intros He Hpre Ht Hid.
  rewrite (attack_first tower s pre target post He Hpre Ht), He.
  rewrite map_app. simpl map. f_equal. f_equal; [|f_equal].
  - rewrite <- (map_id pre) at 2. apply map_ext_in.
    intros e Hin. apply struck_other, Hid, in_app_iff. now left.
  - unfold struck. now rewrite String.eqb_refl.
  - rewrite <- (map_id post) at 2. apply map_ext_in.
    intros e Hin. apply struck_other, Hid, in_app_iff. now right.
Qed.

Lemma attack_hits_only_target_witness :
  map Enemy.health (enemies (attack sentry twoArriving)) = [25; 40].
Proof.
  rewrite (attack_hits_only_target sentry twoArriving []
             [arriving 1 4] (arriving 0 30)).
  - reflexivity.
  - reflexivity.
  - intros e [].
  - reflexivity.
  - intros e [<-|[]]. vm_compute. discriminate.
Defined.

(** ** Enemy ids *)

Lemma to_int_not_nil z :
  Z.to_int z <> Decimal.Pos Decimal.Nil
  /\ Z.to_int z <> Decimal.Neg Decimal.Nil.
Proof.
  split; intros H; pose proof (f_equal Z.of_int H) as H';
    rewrite DecimalZ.of_to in H'; simpl in H'; subst z;
    vm_compute in H; discriminate H.
Qed.

Lemma showZ_inj a b : showZ a = showZ b -> a = b.
Proof.
  unfold showZ. intros H. apply DecimalZ.to_int_inj.
  apply (f_equal NilZero.int_of_string) in H.
  destruct (to_int_not_nil a) as [Ha1 Ha2].
  destruct (to_int_not_nil b) as [Hb1 Hb2].
  rewrite !NilZero.isi in H by assumption. now injection H.
Qed.

Lemma append_cancel (p a b : string) :
  (p ++ a)%string = (p ++ b)%string -> a = b.
Proof.
  induction p as [|ch p IH]; simpl; [exact (fun H => H)|].
  intros H. injection H as H. now apply IH.
Qed.

Lemma enemyId_inj wave i j : enemyId wave i = enemyId wave j -> i = j.
Proof.
  unfold enemyId. intros H.
  apply (append_cancel "enemy-") in H.
  apply append_cancel in H. apply (append_cancel "-") in H.
  apply showZ_inj in H. lia.
Qed.

Lemma spawnLoop_ids wave path rnd : forall n i es,
  spawnLoop wave path rnd i n = Some es ->
  map Enemy.id es = map (enemyId wave) (seq i n).
Proof.
  induction n as [|n IH]; intros i es; simpl.
  - intros H. injection H as <-. reflexivity.
  - unfold newEnemy at 1.
    destruct (pickType wave (rnd i)) as [type|]; [|discriminate].
    destruct path as [|first rest]; [discriminate|].
    destruct (spawnLoop wave (first :: rest) rnd (S i) n) as [es'|] eqn:Es;
      [|discriminate].
    intros H. injection H as <-. simpl. f_equal. exact (IH (S i) es' Es).
Qed.

(** X10: The enemies of one spawn carry pairwise different ids, the id of the
    enemy of index [i] being "enemy-<wave>-<i>". *)
Theorem spawned_ids_distinct
  (wave : Z) (path : list Point) (rnd : nat -> float)
  (es : list Enemy.t) :
  newEnemies wave path rnd = Some es ->
  NoDup (map Enemy.id es)
  /\ forall i e, nth_error es i = Some e -> Enemy.id e = enemyId wave i.
Proof.
  unfold newEnemies. intros H.
  pose proof (spawnLoop_ids _ _ _ _ _ _ H) as Hids. split.
  - rewrite Hids. apply NoDup_map_injective; [|apply seq_NoDup].
    intros i j. apply enemyId_inj.
  - intros i e He.
    apply (map_nth_error Enemy.id) in He. rewrite Hids in He.
    assert (Hlt : (i < length (seq 0 (Z.to_nat (wave * 2 + 5))))%nat).
    { rewrite <- (length_map (enemyId wave)).
      apply nth_error_Some. congruence. }
    rewrite length_seq in Hlt.
    rewrite (map_nth_error (enemyId wave) i (seq 0 (Z.to_nat (wave * 2 + 5)))
               (d := i)) in He.
    + now injection He.
    + rewrite nth_error_nth' with (d := 0%nat);
        [|now rewrite length_seq].
      now rewrite seq_nth.
Qed.

Lemma spawned_ids_distinct_witness :
  exists es, newEnemies 1 (path (MAPS greenlands)) half = Some es
             /\ NoDup (map Enemy.id es).
Proof.
  destruct (newEnemies 1 (path (MAPS greenlands)) half) as [es|] eqn:E;
    [|vm_compute in E; discriminate E].
  exists es. split; [reflexivity|].
  apply (spawned_ids_distinct 1 (path (MAPS greenlands)) half es E).
Defined.

(** ** What is recorded *)

Lemma handle_saved ev s s' :
  handle ev s = Some s' ->
  exists rows, saved s' = saved s ++ rows /\ Forall recordsWin rows.
Proof.
  assert (Same : forall w, saved w = saved s ->
            exists rows, saved w = saved s ++ rows
                         /\ Forall recordsWin rows).
  { intros w Hw. exists []. rewrite app_nil_r. now split. }
  destruct ev; unfold handle; intros Hs; try (injection Hs as <-).
  - apply Same. now destruct (includes _ _ _).
  - apply Same. destruct (includes _ _ _); [reflexivity|].
    unfold unlockTower. now destruct (_ <=? _).
  - apply Same. destruct (placementMode s); [|reflexivity].
    unfold placeTower. destruct (selectedTower s); [|reflexivity].
    destruct (negb _); [reflexivity|].
    destruct (_ <? _); [reflexivity|].
    now destruct (existsb _ _).
  - apply Same. now destruct (_ && _).
  - apply Same. now destruct (isPlaying s).
  - apply Same. now destruct (_ && _).
  - apply Same. reflexivity.
  - apply Same. now destruct (includes _ _ _).
  - apply Same. apply frame_saved.
  - unfold waveCompletion. destruct (_ && _); [|now apply Same].
    destruct (_ <=? _); [|now apply Same].
    eexists. split; [apply handleVictory_saved|].
    apply Forall_forall. intros i Hi.
    exact (saveVictory_win _ _ _ _ _ Hi).
  - apply Same. unfold spawnEffect, spawnWave in Hs. destruct (_ && _).
    + destruct (newEnemies _ _ _); [|discriminate].
      now injection Hs as <-.
    + now injection Hs as <-.
  - apply Same. destruct (timers s); now injection Hs as <-.
Qed.

(** X11: Whatever the player does, the rows sent to the backend are only ever
    added to, and every row sent records a win: this page never reports
    a loss. *)
Theorem only_wins_recorded (evs : list Event) (s s' : World) :
  run evs s = Some s' ->
  exists rows, saved s' = saved s ++ rows /\ Forall recordsWin rows.
Proof.
  revert s. induction evs as [|ev evs IH]; intros s Hr; simpl in Hr.
  - injection Hr as <-. exists []. rewrite app_nil_r. now split.
  - destruct (handle ev s) as [s1|] eqn:E; [|discriminate].
    destruct (handle_saved ev s s1 E) as (r1 & H1 & F1).
    destruct (IH s1 Hr) as (r2 & H2 & F2).
    exists (r1 ++ r2). rewrite H2, H1, app_assoc. split; [reflexivity|].
    apply Forall_app. now split.
Qed.

Lemma only_wins_recorded_witness :
  exists rows,
    saved (waveCompletion (Some "0xA11CE"%string) true (cleared 35))
    = saved (cleared 35) ++ rows
    /\ Forall recordsWin rows.
Proof.
  apply (only_wins_recorded
           [WaveCompletionEffect (Some "0xA11CE"%string) true]).
  reflexivity.
Defined.

End TD1More.

(** * Further properties of the page with a single enemy kind *)

Module TD2More.
Import TD2 TD2Facts.

Lemma handle_paused ev s :
  resets ev = false -> isPlaying s = false -> 0 < wave s ->
  frozen s (handle ev s).
Proof.
  intros Hr Hp Hw. unfold frozen.
  destruct ev; unfold handle; try discriminate Hr.
  - destruct (includes _ _ _); simpl; repeat split; auto; lia.
  - destruct (includes _ _ _); [repeat split; auto; lia|].
    unfold unlockTower. destruct (_ <=? _); simpl; repeat split; auto; lia.
  - destruct (placementMode s); [|repeat split; auto; lia].
    unfold placeTower. destruct (selectedTower s); [|repeat split; auto; lia].
    destruct (negb _); [repeat split; auto; lia|].
    destruct (_ <? _); simpl; repeat split; auto; lia.
  - assert (E : (wave s =? 0) = false) by (apply Z.eqb_neq; lia).
    rewrite E, andb_false_r. repeat split; auto; lia.
  - rewrite Hp. repeat split; auto; lia.
  - unfold frame. rewrite Hp. simpl. repeat split; auto; lia.
  - unfold waveCompletion. rewrite Hp. simpl. repeat split; auto; lia.
  - unfold spawnEffect. rewrite Hp, andb_false_r. repeat split; auto; lia.
  - destruct (timers s); simpl; repeat split; auto; lia.
Qed.

(** X12: This page has no Resume button: once a started game is paused, no
    click, frame, effect or timeout short of a reset or a change of map
    sets it playing again; the enemies stay where they are and no life is
    lost, while a pending timeout still raises the wave number. *)
Theorem paused_game_stays_paused (evs : list Event) (s : World) :
  oneSession evs -> isPlaying s = false -> 0 < wave s ->
  isPlaying (run evs s) = false
  /\ enemies (run evs s) = enemies s
  /\ lives (run evs s) = lives s
  /\ wave s <= wave (run evs s).
Proof.
  unfold oneSession, run. revert s.
  induction evs as [|ev evs IH]; intros s Ho Hp Hw; simpl in *.
  - repeat split; auto; lia.
  - apply andb_prop in Ho as [Hev Ho]. apply negb_true_iff in Hev.
    destruct (handle_paused ev s Hev Hp Hw) as (H1 & H2 & H3 & H4).
    destruct (IH (handle ev s) Ho H1 ltac:(lia)) as (G1 & G2 & G3 & G4).
    rewrite G2, G3, H2, H3. repeat split; auto; lia.
Qed.

Lemma paused_game_stays_paused_witness :
  isPlaying
    (run [ClickStart; Frame 5000; TimeoutFires; SpawnEffect; Frame 5016]
       pausedGame) = false
  /\ wave (run [ClickStart; Frame 5000; TimeoutFires; SpawnEffect;
                Frame 5016] pausedGame) = 2.
Proof.
  destruct (paused_game_stays_paused
              [ClickStart; Frame 5000; TimeoutFires; SpawnEffect;
               Frame 5016] pausedGame) as (H1 & _).
  - reflexivity.
  - vm_compute. reflexivity.
  - vm_compute. reflexivity.
  - split; [exact H1|]. vm_compute. reflexivity.
Defined.

End TD2More.

(** * The chess page *)

Module ChessFacts.
Import Chess.

(** ** Move legality *)

(** X13: A move that [isValidMove] accepts never lands on a piece of the
    mover's own colour; in particular a piece cannot move to the square
    it stands on. *)
Theorem valid_move_spares_own_pieces
  (b : Board) (from to : Position) (p : ChessPiece) :
  (isValidMove b from to p = Some true ->
   exists target, at_ b to = Some target /\ ownPiece target p = false)
  /\ (at_ b from = Some (Some p) -> isValidMove b from from p = Some false).
Proof.
  unfold isValidMove, at_. split.
  - destruct (square b (row to) (col to)) as [target|]; [|discriminate].
    destruct (ownPiece target p) eqn:E; [discriminate|].
    intros _. now exists target.
  - intros ->. unfold ownPiece.
    now destruct (color p).
Qed.

Lemma valid_move_spares_own_pieces_witness :
  isValidMove initializeBoard (pos 7 0) (pos 7 0)
    {| type := rook; color := white |} = Some false.
Proof.
  apply (valid_move_spares_own_pieces initializeBoard (pos 7 0) (pos 7 0)).
  reflexivity.
Defined.

(** X14: For every piece but a pawn the verdict depends on the board through
    the target square alone: what stands between the two squares is never
    looked at, so rooks, bishops and queens pass over other pieces. *)
Theorem only_pawns_can_be_blocked
  (b b' : Board) (from to : Position) (p : ChessPiece) :
  type p <> pawn -> at_ b to = at_ b' to ->
  isValidMove b from to p = isValidMove b' from to p.
Proof.
  unfold isValidMove, at_. intros Hp ->.
  destruct (square b' (row to) (col to)) as [target|]; [|reflexivity].
  destruct (ownPiece target p); [reflexivity|].
  destruct (type p); try reflexivity. contradiction.
Qed.

Lemma only_pawns_can_be_blocked_witness :
  isValidMove initializeBoard (pos 7 0) (pos 3 0)
    {| type := rook; color := white |}
  = isValidMove (repeat (repeat None 8) 8) (pos 7 0) (pos 3 0)
      {| type := rook; color := white |}.
Proof.
  apply only_pawns_can_be_blocked; [discriminate|reflexivity].
Defined.

(** X15: A pawn move that is accepted is one step straight ahead onto an empty
    square, two steps straight ahead from the start row over an empty
    square onto an empty square, or one step diagonally ahead onto a
    piece of the other colour: a pawn never moves sideways or back. *)
Theorem pawn_moves_ahead
  (b : Board) (from to : Position) (p : ChessPiece) :
  type p = pawn -> isValidMove b from to p = Some true ->
  let d := direction (color p) in
  let r0 := Z.of_nat (row from) in
  let r1 := Z.of_nat (row to) in
  (col to = col from /\ at_ b to = Some None
   /\ (r1 = r0 + d
       \/ (r0 = startRow (color p) /\ r1 = r0 + 2 * d
           /\ square b (Z.to_nat (r0 + d)) (col from) = Some None)))
  \/ (Z.abs (Z.of_nat (col to) - Z.of_nat (col from)) = 1 /\ r1 = r0 + d
      /\ exists q, at_ b to = Some (Some q) /\ color q <> color p).
Proof.
  unfold isValidMove, at_, direction, startRow. intros Hp. rewrite Hp.
  destruct (square b (row to) (col to)) as [target|]; [|discriminate].
  destruct (ownPiece target p) eqn:Eo; [discriminate|].
  assert (Capture :
    (Z.abs (Z.of_nat (col to) - Z.of_nat (col from)) =? 1)
    && (Z.of_nat (row to)
        =? Z.of_nat (row from)
           + match color p with white => -1 | black => 1 end)
    && occupied target = true ->
    Z.abs (Z.of_nat (col to) - Z.of_nat (col from)) = 1
    /\ Z.of_nat (row to)
       = Z.of_nat (row from)
         + match color p with white => -1 | black => 1 end
    /\ exists q, Some target = Some (Some q) /\ color q <> color p).
  { intros H. apply andb_prop in H as [H Ht]. apply andb_prop in H as [H1 H2].
    apply Z.eqb_eq in H1, H2. split; [exact H1|]. split; [exact H2|].
    destruct target as [q|]; [|discriminate]. exists q. split; [reflexivity|].
    intros Hc. unfold ownPiece in Eo. rewrite Hc in Eo.
    now destruct (color p). }
  cbv zeta.
  destruct ((col to =? col from)%nat && negb (occupied target)) eqn:Ef.
  - apply andb_prop in Ef as [Ec Et]. apply Nat.eqb_eq in Ec.
    assert (Hempty : target = None) by (now destruct target).
    subst target.
    destruct (Z.of_nat (row to) =? _) eqn:E1.
    + apply Z.eqb_eq in E1. intros _. left. now repeat split; auto.
    + destruct ((Z.of_nat (row from) =? _) && _) eqn:E2.
      * apply andb_prop in E2 as [E2 E3]. apply Z.eqb_eq in E2, E3.
        destruct (square b _ (col from)) as [between|] eqn:Eb;
          [|discriminate].
        destruct between as [q|]; simpl.
        -- rewrite andb_false_r. discriminate.
        -- intros _. left. repeat split; auto.
      * simpl. rewrite andb_false_r. discriminate.
  - intros H. injection H as H. right. now apply Capture.
Qed.

Lemma pawn_moves_ahead_witness :
  isValidMove initializeBoard (pos 6 4) (pos 4 4)
    {| type := pawn; color := white |} = Some true
  /\ Z.of_nat 4 = Z.of_nat 6 + 2 * direction white.
Proof.
  split; [reflexivity|].
  destruct (pawn_moves_ahead initializeBoard (pos 6 4) (pos 4 4)
              {| type := pawn; color := white |} eq_refl eq_refl)
    as [(_ & _ & [H|(_ & H & _)])|(H & _)].
  - vm_compute in H. discriminate H.
  - exact H.
  - vm_compute in H. discriminate H.
Defined.

(** ** The move of the machine *)

Lemma squares_onBoard p : In p squares <-> onBoard p.
Proof.
  unfold squares, onBoard. rewrite in_flat_map. split.
  - intros (r & Hr & Hp). apply in_map_iff in Hp as (c & <- & Hc).
    apply in_seq in Hr, Hc. simpl. lia.
  - intros [Hr Hc]. exists (row p). split; [apply in_seq; lia|].
    apply in_map_iff. exists (col p). split; [now destruct p|].
    apply in_seq. lia.
Qed.

Lemma collectBlack_spec b : forall ps l,
  collectBlack b ps = Some l ->
  forall p q, In (p, q) l
              <-> In p ps /\ at_ b p = Some (Some q) /\ color q = black.
Proof.
  unfold at_.
  induction ps as [|p0 ps IH]; intros l Hl p q; simpl in Hl.
  - injection Hl as <-. simpl. tauto.
  - destruct (square b (row p0) (col p0)) as [sq|] eqn:Esq; [|discriminate].
    destruct (collectBlack b ps) as [rest|]; [|now destruct sq].
    specialize (IH rest eq_refl p q).
    destruct sq as [q0|].
    + injection Hl as <-.
      destruct (PieceColor_eqb (color q0) black) eqn:Ec.
      * simpl. rewrite IH. split.
        -- intros [H|H]; [|tauto]. injection H as <- <-.
           repeat split; auto. now destruct (color q0).
        -- intros ([<-|H] & H2 & H3); [|tauto].
           left. rewrite Esq in H2. now injection H2 as ->.
      * rewrite IH. simpl. split; [tauto|].
        intros ([<-|H] & H2 & H3); [|tauto].
        rewrite Esq in H2. injection H2 as ->. rewrite H3 in Ec.
        discriminate.
    + injection Hl as <-. rewrite IH. simpl. split; [tauto|].
      intros ([<-|H] & H2 & H3); [|tauto]. rewrite Esq in H2. discriminate.
Qed.

Lemma firstValid_spec b p q : forall targets r,
  firstValid b p q targets = Some r ->
  match r with
  | Some t => In t targets /\ isValidMove b p t q = Some true
  | None => forall t, In t targets -> isValidMove b p t q = Some false
  end.
Proof.
  induction targets as [|t0 ts IH]; intros r Hr; simpl in Hr.
  - injection Hr as <-. intros t [].
  - destruct (isValidMove b p t0 q) as [[|]|] eqn:Ev; [| |discriminate].
    + injection Hr as <-. split; [now left|exact Ev].
    + specialize (IH r Hr). destruct r as [t|].
      * destruct IH. split; [now right|assumption].
      * intros t [<-|Ht]; [exact Ev|now apply IH].
Qed.

Lemma searchMoves_spec b : forall pieces r,
  searchMoves b pieces = Some r ->
  match r with
  | Some (from, to) =>
      exists q, In (from, q) pieces /\ onBoard to
                /\ isValidMove b from to q = Some true
  | None =>
      forall from q to, In (from, q) pieces -> onBoard to ->
                        isValidMove b from to q = Some false
  end.
Proof.
  induction pieces as [|[p q] rest IH]; intros r Hr;
    cbn [searchMoves] in Hr.
  - injection Hr as <-. intros from q to [].
  - destruct (firstValid b p q squares) as [[t|]|] eqn:Ef; [| |discriminate].
    + injection Hr as <-. destruct (firstValid_spec b p q _ _ Ef) as [H1 H2].
      exists q. split; [now left|]. split; [now apply squares_onBoard|exact H2].
    + pose proof (firstValid_spec b p q _ _ Ef) as Hnone. simpl in Hnone.
      specialize (IH r Hr). destruct r as [[from to]|].
      * destruct IH as (q' & H1 & H2). exists q'. split; [now right|exact H2].
      * intros from q' to [H|H] Hto.
        -- injection H as <- <-. apply Hnone. now apply squares_onBoard.
        -- now apply (IH from q' to).
Qed.

(** X16: Whatever order the shuffle leaves the black pieces in, a move that
    [getAIMove] returns takes a black piece of the board to a square of
    the board and is accepted by [isValidMove]; and when it returns no
    move, no black piece on the board has a move that [isValidMove]
    accepts. *)
Theorem ai_move_is_valid shuffle (b : Board) :
  rearranges shuffle ->
  match getAIMove shuffle b with
  | Some (Some (from, to)) =>
      exists q, at_ b from = Some (Some q) /\ color q = black
                /\ onBoard from /\ onBoard to
                /\ isValidMove b from to q = Some true
  | Some None =>
      forall from q to,
        onBoard from -> onBoard to -> at_ b from = Some (Some q) ->
        color q = black -> isValidMove b from to q = Some false
  | None => True
  end.
Proof.
  intros Hsh. unfold getAIMove.
  destruct (collectBlack b squares) as [blackPieces|] eqn:Ec; [|exact I].
  pose proof (collectBlack_spec b squares blackPieces Ec) as Hc.
  destruct (searchMoves b (shuffle blackPieces)) as [r|] eqn:Es; [|exact I].
  pose proof (searchMoves_spec b _ _ Es) as Hs.
  destruct r as [[from to]|].
  - destruct Hs as (q & Hin & Hto & Hv). apply Hsh, Hc in Hin.
    destruct Hin as (H1 & H2 & H3). exists q.
    split; [exact H2|]. split; [exact H3|].
    split; [exact (proj1 (squares_onBoard from) H1)|].
    split; [exact Hto|exact Hv].
  - intros from q to Hfrom Hto Hat Hcol. apply Hs; [|exact Hto].
    apply Hsh, Hc. split; [exact (proj2 (squares_onBoard from) Hfrom)|].
    split; assumption.
Qed.

Lemma ai_move_is_valid_witness :
  exists q, at_ initializeBoard (pos 0 0) = Some (Some q)
            /\ color q = black /\ onBoard (pos 0 0) /\ onBoard (pos 2 0)
            /\ isValidMove initializeBoard (pos 0 0) (pos 2 0) q
               = Some true.
Proof.
  pose proof (ai_move_is_valid (fun l => l) initializeBoard) as H.
  assert (Hr : rearranges (fun l : list (Position * ChessPiece) => l))
    by (intros l x; tauto).
  specialize (H Hr).
  assert (E : getAIMove (fun l => l) initializeBoard
              = Some (Some (pos 0 0, pos 2 0)))
    by (vm_compute; reflexivity).
  rewrite E in H. exact H.
Defined.

(** ** Making a move *)

Definition cellAt (cells : list Square) (c : nat) : Square :=
  match nth_error cells c with
  | Some sq => sq
  | None => None
  end.

Lemma square_cellAt b r c :
  square b r c = option_map (fun cells => cellAt cells c) (nth_error b r).
Proof. unfold square, cellAt. now destruct (nth_error b r). Qed.

Lemma setCell_get v : forall c cells c',
  cellAt (setCell cells c v) c'
  = if (c' =? c)%nat then v else cellAt cells c'.
Proof.
  unfold cellAt.
  induction c as [|c IH]; intros [|sq cells] [|c']; simpl; try reflexivity.
  - now destruct c'.
  - rewrite IH. destruct (c' =? c)%nat; [reflexivity|]. now destruct c'.
  - apply IH.
Qed.

Lemma setCell_length v : forall c cells,
  (c < length cells)%nat -> length (setCell cells c v) = length cells.
Proof.
  induction c as [|c IH]; intros [|sq cells] H; simpl in *; try lia.
  rewrite IH; lia.
Qed.

Lemma setSquare_get c v : forall b r b',
  setSquare b r c v = Some b' ->
  forall r' c',
    square b' r' c'
    = if (r' =? r)%nat
      then (if (c' =? c)%nat then Some v else square b r c')
      else square b r' c'.
Proof.
  induction b as [|cells rest IH]; intros r b' H r' c'; simpl in H;
    [discriminate|].
  destruct r as [|r].
  - injection H as <-. destruct r' as [|r']; [|reflexivity].
    rewrite !square_cellAt. simpl. rewrite setCell_get.
    now destruct (c' =? c)%nat.
  - destruct (setSquare rest r c v) as [rest'|] eqn:E; [|discriminate].
    injection H as <-. destruct r' as [|r']; [reflexivity|].
    exact (IH r rest' E r' c').
Qed.

Lemma setSquare_defined c v : forall b r,
  nth_error b r <> None -> setSquare b r c v <> None.
Proof.
  induction b as [|cells rest IH]; intros [|r] H; simpl in *;
    try congruence.
  specialize (IH r H). now destruct (setSquare rest r c v).
Qed.

Lemma setSquare_wellFormed c v : forall b r b',
  (c < 8)%nat -> setSquare b r c v = Some b' ->
  Forall (fun cells => length cells = 8%nat) b ->
  length b' = length b /\ Forall (fun cells => length cells = 8%nat) b'.
Proof.
  induction b as [|cells rest IH]; intros r b' Hc H Hf; simpl in H;
    [discriminate|].
  inversion Hf as [|? ? Hcells Hrest]; subst.
  destruct r as [|r].
  - injection H as <-. split; [reflexivity|]. constructor; [|exact Hrest].
    rewrite setCell_length; lia.
  - destruct (setSquare rest r c v) as [rest'|] eqn:E; [|discriminate].
    injection H as <-. destruct (IH r rest' Hc E Hrest) as [Hl Hf'].
    split; [simpl; now rewrite Hl|]. now constructor.
Qed.

Lemma setSquare_length c v : forall b r b',
  setSquare b r c v = Some b' -> length b' = length b.
Proof.
  induction b as [|cells rest IH]; intros r b' H; simpl in H;
    [discriminate|].
  destruct r as [|r]; [now injection H as <-|].
  destruct (setSquare rest r c v) as [rest'|] eqn:E; [|discriminate].
  injection H as <-. simpl. now rewrite (IH r rest' E).
Qed.

Lemma square_row_defined b r c sq :
  square b r c = Some sq -> nth_error b r <> None.
Proof. unfold square. now destruct (nth_error b r). Qed.

(** X17: A move that does not take a king always goes through when the rows
    of both squares exist: the piece of the first square stands on the
    second, the first is empty, every other square is as before; the
    move is counted, the turn passes to the other side, the selection is
    cleared, and a piece that stood on the second square joins the
    captures of the mover. *)
Theorem makeMove_moves_one_piece
  (address : option string) (session : bool) (from to : Position)
  (mover : PieceColor) (s : State) (p target : Square) :
  at_ (board s) from = Some p -> at_ (board s) to = Some target ->
  (forall k, target = Some k -> isKing k = false) ->
  Position_eqb from to = false ->
  exists s',
    makeMove address session from to mover s = Some s'
    /\ (forall q, at_ (board s') q
                  = if Position_eqb q from then Some None
                    else if Position_eqb q to then Some p
                    else at_ (board s) q)
    /\ moveCount s' = moveCount s + 1
    /\ isPlayerTurn s' = negb (PieceColor_eqb mover white)
    /\ selectedSquare s' = None /\ gameOver s' = gameOver s
    /\ capturedWhite s'
       = match mover, target with
         | white, Some k => capturedWhite s ++ [k]
         | _, _ => capturedWhite s
         end
    /\ capturedBlack s'
       = match mover, target with
         | black, Some k => capturedBlack s ++ [k]
         | _, _ => capturedBlack s
         end.
Proof.
  unfold at_. intros Hp Ht Hk Hne. unfold makeMove. rewrite Hp, Ht.
  assert (Ek : match target with Some cp => isKing cp | None => false end
               = false).
  { destruct target as [k|]; [now apply Hk|reflexivity]. }
  rewrite Ek.
  destruct (setSquare (board s) (row to) (col to) p) as [b1|] eqn:E1;
    [|exfalso; revert E1; apply setSquare_defined;
      exact (square_row_defined _ _ _ _ Ht)].
  pose proof (setSquare_get _ _ _ _ _ E1) as G1.
  assert (Hrow : nth_error b1 (row from) <> None).
  { apply nth_error_Some. rewrite (setSquare_length _ _ _ _ _ E1).
    apply nth_error_Some. exact (square_row_defined _ _ _ _ Hp). }
  destruct (setSquare b1 (row from) (col from) None) as [b2|] eqn:E2;
    [|exfalso; revert E2; now apply setSquare_defined].
  pose proof (setSquare_get _ _ _ _ _ E2) as G2.
  eexists. split; [reflexivity|].
  split.
  - intros q. cbn [board moved]. unfold Position_eqb in *.
    rewrite G2, !G1.
    apply andb_false_iff in Hne. rewrite !Nat.eqb_neq in Hne.
    destruct (Nat.eqb_spec (row q) (row from));
      destruct (Nat.eqb_spec (col q) (col from));
      destruct (Nat.eqb_spec (row q) (row to));
      destruct (Nat.eqb_spec (col q) (col to));
      destruct (Nat.eqb_spec (row from) (row to));
      simpl; try reflexivity; try congruence;
      try (destruct Hne; congruence).
  - destruct target as [k|]; destruct mover; now repeat split.
Qed.

Lemma makeMove_moves_one_piece_witness :
  exists s',
    makeMove None true (pos 6 4) (pos 4 4) white initial = Some s'
    /\ at_ (board s') (pos 4 4) = Some (piece pawn white)
    /\ at_ (board s') (pos 6 4) = Some None
    /\ isPlayerTurn s' = false.
Proof.
  destruct (makeMove_moves_one_piece None true (pos 6 4) (pos 4 4) white
              initial (piece pawn white) None eq_refl eq_refl
              ltac:(discriminate) eq_refl)
    as (s' & Hm & Hq & _ & Ht & _).
  exists s'. split; [exact Hm|].
  split; [rewrite Hq; reflexivity|].
  split; [rewrite Hq; reflexivity|exact Ht].
Defined.

(** X18: A move onto a king ends the game instead of being played: the board,
    the move count and the turn stay as they are, the mover's side wins,
    the experience is the one of the result and the difficulty, and with
    a wallet connected exactly one session row is sent, recording a win
    when the player took the king and a loss when the machine did; with
    no wallet nothing is sent. *)
Theorem king_capture_ends_game
  (address : option string) (session : bool) (from to : Position)
  (mover : PieceColor) (s : State) (p : Square) (k : ChessPiece) :
  at_ (board s) from = Some p -> at_ (board s) to = Some (Some k) ->
  isKing k = true ->
  let w := match mover with white => player | black => ai end in
  exists s',
    makeMove address session from to mover s = Some s'
    /\ board s' = board s /\ moveCount s' = moveCount s
    /\ isPlayerTurn s' = isPlayerTurn s
    /\ gameOver s' = true /\ winner s' = Some w
    /\ xpEarned s' = earnedXP w (difficulty s)
    /\ exists rows,
         saved s' = saved s ++ rows
         /\ length (filter isSessionRow rows)
            = (if truthy address then 1 else 0)%nat
         /\ forall r, In (game_sessions r) rows ->
              result r = resultOf w
              /\ xp_earned r = earnedXP w (difficulty s)
              /\ moves r = moveCount s.
Proof.
  unfold at_. cbv zeta. intros Hp Ht Hk.
  set (w := match mover with white => player | black => ai end).
  unfold makeMove. rewrite Hp, Ht, Hk. fold w.
  eexists. split; [reflexivity|].
  cbn [endGame board moveCount isPlayerTurn gameOver winner xpEarned saved
       capture difficulty].
  repeat (split; [reflexivity|]).
  eexists. split; [reflexivity|].
  unfold saveGame. cbn [capture difficulty moveCount].
  destruct address as [a|]; [|split; [reflexivity|intros r []]].
  destruct (truthy (Some a)); [|split; [reflexivity|intros r []]].
  split; [now destruct session|].
  intros r Hr.
  assert (Hrow : game_sessions r
                 = game_sessions
                     {| wallet_address := a; game_type := "chess";
                        session_difficulty := difficulty s;
                        status := "completed";
                        xp_earned := earnedXP w (difficulty s);
                        result := resultOf w; moves := moveCount s |}).
  { destruct session; simpl in Hr.
    - destruct Hr as [Hr|[Hr|[]]]; [now symmetry|discriminate Hr].
    - destruct Hr as [Hr|[]]. now symmetry. }
  injection Hrow as ->. now repeat split.
Qed.

Lemma king_capture_ends_game_witness :
  exists s',
    makeMove (Some "0xA11CE"%string) true (pos 1 4) (pos 0 4) white
      matePosition = Some s'
    /\ gameOver s' = true /\ winner s' = Some player /\ xpEarned s' = 150.
Proof.
  destruct (king_capture_ends_game (Some "0xA11CE"%string) true
              (pos 1 4) (pos 0 4) white matePosition
              (piece queen white) {| type := king; color := black |}
              eq_refl eq_refl eq_refl)
    as (s' & Hm & _ & _ & _ & Hg & Hw & Hx & _).
  exists s'. split; [exact Hm|]. split; [exact Hg|].
  split; [exact Hw|]. rewrite Hx. vm_compute. reflexivity.
Defined.

(** ** The shape of the board *)

Lemma square_defined b r c :
  (r < length b)%nat -> exists sq, square b r c = Some sq.
Proof.
  intros H. unfold square.
  destruct (nth_error b r) eqn:E; [eexists; reflexivity|].
  apply nth_error_None in E. lia.
Qed.

(** X19: On a board of eight rows of eight squares a move between two squares
    of the board never throws and leaves a board of eight rows of eight
    squares. *)
Theorem makeMove_keeps_board_shape
  (address : option string) (session : bool) (from to : Position)
  (mover : PieceColor) (s : State) :
  wellFormed (board s) -> onBoard from -> onBoard to ->
  exists s', makeMove address session from to mover s = Some s'
             /\ wellFormed (board s').
Proof.
  intros [Hlen Hrows] [Hfr Hfc] [Htr Htc]. unfold makeMove.
  destruct (square_defined (board s) (row from) (col from)) as [p Hp];
    [lia|].
  destruct (square_defined (board s) (row to) (col to)) as [target Ht];
    [lia|].
  rewrite Hp, Ht.
  destruct (match target with Some cp => isKing cp | None => false end).
  - eexists. split; [reflexivity|].
    now destruct target; split.
  - destruct (setSquare (board s) (row to) (col to) p) as [b1|] eqn:E1;
      [|exfalso; revert E1; apply setSquare_defined;
        exact (square_row_defined _ _ _ _ Ht)].
    destruct (setSquare_wellFormed _ _ _ _ _ Htc E1 Hrows) as [L1 F1].
    destruct (setSquare b1 (row from) (col from) None) as [b2|] eqn:E2.
    + destruct (setSquare_wellFormed _ _ _ _ _ Hfc E2 F1) as [L2 F2].
      eexists. split; [reflexivity|].
      split; [cbn [board moved]; lia|exact F2].
    + exfalso. revert E2. apply setSquare_defined.
      apply nth_error_Some. lia.
Qed.

Lemma makeMove_keeps_board_shape_witness :
  exists s', makeMove None true (pos 7 1) (pos 5 2) white initial = Some s'
             /\ wellFormed (board s').
Proof.
  apply makeMove_keeps_board_shape.
  - split; [reflexivity|]. repeat constructor.
  - split; simpl; lia.
  - split; simpl; lia.
Defined.

(** ** The moves of the player *)

Lemma validTargets_spec b from p : forall targets l,
  validTargets b from p targets = Some l ->
  forall t, In t l <-> In t targets /\ isValidMove b from t p = Some true.
Proof.
  induction targets as [|t0 ts IH]; intros l Hl t; cbn [validTargets] in Hl.
  - injection Hl as <-. simpl. tauto.
  - destruct (isValidMove b from t0 p) as [v|] eqn:Ev; [|discriminate].
    destruct (validTargets b from p ts) as [rest|]; [|discriminate].
    injection Hl as <-. specialize (IH rest eq_refl t).
    destruct v; simpl; rewrite IH; split.
    + intros [<-|H]; [split; [now left|exact Ev]|].
      split; [now right|tauto].
    + intros ([<-|H] & Hv); [now left|right; tauto].
    + intros [H Hv]. split; [now right|exact Hv].
    + intros ([<-|H] & Hv); [congruence|tauto].
Qed.

Lemma settled_validMoves s sel t :
  settled s -> selectedSquare s = Some sel -> In t (validMoves s) ->
  exists p, at_ (board s) sel = Some (Some p) /\ color p = white
            /\ isValidMove (board s) sel t p = Some true.
Proof.
  unfold settled, validMovesEffect, at_. intros Hs Hsel Hin.
  rewrite Hsel in Hs.
  destruct (square (board s) (row sel) (col sel)) as [[p|]|];
    [| |discriminate].
  - destruct (PieceColor_eqb (color p) white) eqn:Ec.
    + destruct (validTargets (board s) sel p squares) as [moves|] eqn:Ev;
        [|discriminate].
      injection Hs as Hs. apply (f_equal validMoves) in Hs.
      cbn [validMoves set_validMoves] in Hs. rewrite <- Hs in Hin.
      apply (validTargets_spec _ _ _ _ _ Ev) in Hin as [_ Hv].
      exists p. split; [reflexivity|]. split; [|exact Hv].
      now destruct (color p).
    + injection Hs as Hs. apply (f_equal validMoves) in Hs.
      cbn [validMoves set_validMoves] in Hs. rewrite <- Hs in Hin.
      destruct Hin.
  - injection Hs as Hs. apply (f_equal validMoves) in Hs.
    cbn [validMoves set_validMoves] in Hs. rewrite <- Hs in Hin.
    destruct Hin.
Qed.

(** X20: When the valid moves shown are those computed for the current
    selection and board, a click that changes the board or ends the game
    plays a move that [isValidMove] accepts, made by the white piece on
    the selected square: the player can move no black piece and make no
    move that is not accepted. *)
Theorem player_moves_are_valid
  (address : option string) (session : bool) (r c : nat) (s s' : State) :
  settled s -> handleSquareClick address session r c s = Some s' ->
  board s' <> board s \/ gameOver s' <> gameOver s ->
  exists sel p,
    selectedSquare s = Some sel /\ at_ (board s) sel = Some (Some p)
    /\ color p = white
    /\ isValidMove (board s) sel (pos r c) p = Some true
    /\ makeMove address session sel (pos r c) white s = Some s'.
Proof.
  intros Hset Hclick Hchg. unfold handleSquareClick in Hclick.
  assert (Same : forall w, board w = board s -> gameOver w = gameOver s ->
                           Some w = Some s' -> False).
  { intros w Hb Hg Hw. injection Hw as <-. destruct Hchg; contradiction. }
  destruct (negb (isPlayerTurn s) || gameOver s);
    [exfalso; exact (Same s eq_refl eq_refl Hclick)|].
  destruct (square (board s) r c) as [sq|]; [|discriminate].
  destruct (selectedSquare s) as [sel|] eqn:Esel.
  - destruct (existsb _ (validMoves s)) eqn:Ex.
    + apply existsb_exists in Ex as (m & Hin & Hm).
      apply andb_prop in Hm as [Hr Hc]. apply Nat.eqb_eq in Hr, Hc.
      assert (Em : m = pos r c) by (destruct m; simpl in *; now subst).
      subst m.
      destruct (settled_validMoves s sel (pos r c) Hset Esel Hin)
        as (p & H1 & H2 & H3).
      exists sel, p. now repeat split.
    + exfalso. revert Hclick. destruct (isWhite sq); now apply Same.
  - exfalso. revert Hclick. destruct (isWhite sq); now apply Same.
Qed.

Lemma player_moves_are_valid_witness :
  exists sel p,
    selectedSquare pawnSelected = Some sel
    /\ at_ (board pawnSelected) sel = Some (Some p) /\ color p = white
    /\ isValidMove (board pawnSelected) sel (pos 4 4) p = Some true.
Proof.
  destruct (handleSquareClick None true 4 4 pawnSelected) as [s'|] eqn:E;
    [|vm_compute in E; discriminate E].
  destruct (player_moves_are_valid None true 4 4 pawnSelected s')
    as (sel & p & H1 & H2 & H3 & H4 & _).
  - vm_compute. reflexivity.
  - exact E.
  - left. vm_compute in E. injection E as <-. vm_compute. discriminate.
  - exists sel, p. now repeat split.
Defined.

End ChessFacts.

(** * Quest configuration *)

Module QuestConfigFacts.
Import QuestConfig.

(** X21: The configuration returned for a quest id always carries that id:
    the four known quests are filed under their own ids, and any other
    id gets the placeholder named after it, with an APR of 5.  The name
    spells the id with all its digits as long as the id is a safe
    integer; past that it is whatever the template literal prints for
    the number. *)
Theorem config_carries_requested_id
  (beyondSafe : Z -> string) (questId : Z) :
  id (getQuestConfig beyondSafe questId) = questId
  /\ (~ 1 <= questId <= 4 ->
      estimatedAPR (getQuestConfig beyondSafe questId) = 5
      /\ name (getQuestConfig beyondSafe questId)
         = ("Quest #" ++ numberToString beyondSafe questId)%string
      /\ (Z.abs questId <= MAX_SAFE_INTEGER ->
          name (getQuestConfig beyondSafe questId)
          = ("Quest #" ++ showZ questId)%string)
      /\ (MAX_SAFE_INTEGER < Z.abs questId ->
          name (getQuestConfig beyondSafe questId)
          = ("Quest #" ++ beyondSafe questId)%string)).
Proof.
  unfold getQuestConfig, QUEST_CONFIGS.
  destruct (Z.eqb_spec questId 1); [subst; split; [reflexivity|lia]|].
  destruct (Z.eqb_spec questId 2); [subst; split; [reflexivity|lia]|].
  destruct (Z.eqb_spec questId 3); [subst; split; [reflexivity|lia]|].
  destruct (Z.eqb_spec questId 4); [subst; split; [reflexivity|lia]|].
  split; [reflexivity|]. intros _. cbn [estimatedAPR name].
  split; [reflexivity|]. split; [reflexivity|].
  unfold numberToString. split; intros H.
  - apply Z.leb_le in H. now rewrite H.
  - apply Z.leb_gt in H. now rewrite H.
Qed.

Lemma config_carries_requested_id_witness :
  name (getQuestConfig (fun _ => "1e+21"%string) 7) = "Quest #7"%string
  /\ estimatedAPR (getQuestConfig (fun _ => "1e+21"%string) 7) = 5
  /\ name (getQuestConfig (fun _ => "1e+21"%string) (10 ^ 21))
     = "Quest #1e+21"%string.
Proof.
  destruct (config_carries_requested_id (fun _ => "1e+21"%string) 7)
    as [_ H].
  destruct H as (Ha & _ & Hn & _); [lia|].
  destruct (config_carries_requested_id (fun _ => "1e+21"%string)
              (10 ^ 21)) as [_ H'].
  destruct H' as (_ & _ & _ & Hb); [lia|].
  split; [rewrite Hn; [reflexivity|vm_compute; discriminate]|].
  split; [exact Ha|].
  rewrite Hb; [reflexivity|vm_compute; reflexivity].
Defined.

(** X22: The time left is shown in its two largest units: nothing left shows
    "Ready!"; otherwise, with [d] whole days, [h] further whole hours and
    [m] further whole minutes in [seconds], the text names days and hours
    when a day or more is left, hours and minutes when an hour or more
    is, and minutes alone below an hour, which for less than a minute
    reads "0m remaining". *)
Theorem time_remaining_units (seconds : Z) :
  (seconds <= 0 -> formatTimeRemaining seconds = "Ready!"%string)
  /\ (0 < seconds ->
      exists d h m,
        0 <= d /\ 0 <= h < 24 /\ 0 <= m < 60
        /\ d * 86400 + h * 3600 + m * 60 <= seconds
           < d * 86400 + h * 3600 + m * 60 + 60
        /\ formatTimeRemaining seconds
           = (if (0 <? d)%Z
              then showZ d ++ "d " ++ showZ h ++ "h remaining"
              else if (0 <? h)%Z
              then showZ h ++ "h " ++ showZ m ++ "m remaining"
              else showZ m ++ "m remaining")%string)
  /\ (0 < seconds < 60 ->
      formatTimeRemaining seconds = "0m remaining"%string).
Proof.
  unfold formatTimeRemaining. split; [|split].
  - intros H. apply Z.leb_le in H. now rewrite H.
  - intros H. assert (E : (seconds <=? 0) = false) by (apply Z.leb_gt; lia).
    rewrite E.
    exists (seconds / 86400), (Z.rem seconds 86400 / 3600),
           (Z.rem seconds 3600 / 60).
    rewrite !Z.rem_mod_nonneg by lia.
    repeat split; try reflexivity.
    + apply Z.div_pos; lia.
    + apply Z.div_pos; [apply Z.mod_pos_bound|]; lia.
    + apply Z.div_lt_upper_bound; [lia|]. apply Z.mod_pos_bound. lia.
    + apply Z.div_pos; [apply Z.mod_pos_bound|]; lia.
    + apply Z.div_lt_upper_bound; [lia|]. apply Z.mod_pos_bound. lia.
    + Z.to_euclidean_division_equations. lia.
    + Z.to_euclidean_division_equations. lia.
  - intros H. assert (E : (seconds <=? 0) = false) by (apply Z.leb_gt; lia).
    rewrite E. rewrite !Z.rem_mod_nonneg by lia.
    rewrite (Z.div_small seconds 86400) by lia.
    rewrite (Z.mod_small seconds 86400) by lia.
    rewrite (Z.div_small seconds 3600) by lia.
    rewrite (Z.mod_small seconds 3600) by lia.
    rewrite (Z.div_small seconds 60) by lia. reflexivity.
Qed.

Lemma time_remaining_units_witness :
  formatTimeRemaining 59 = "0m remaining"%string
  /\ formatTimeRemaining 0 = "Ready!"%string.
Proof.
  destruct (time_remaining_units 59) as (_ & _ & H).
  destruct (time_remaining_units 0) as (H0 & _).
  split; [apply H; lia|apply H0; lia].
Defined.

(** X23: A duration is shown in whole days when it reaches a day, the hours
    beyond being dropped, and in whole hours below a day; the unit is
    singular for exactly one, so less than an hour reads "0 hours". *)
Theorem duration_in_days_or_hours (seconds : Z) :
  (0 <= seconds < 3600 -> formatDuration seconds = "0 hours"%string)
  /\ (3600 <= seconds < 7200 -> formatDuration seconds = "1 hour"%string)
  /\ (7200 <= seconds < 86400 ->
      formatDuration seconds = (showZ (seconds / 3600) ++ " hours")%string)
  /\ (86400 <= seconds < 172800 ->
      formatDuration seconds = "1 day"%string)
  /\ (172800 <= seconds ->
      formatDuration seconds
      = (showZ (seconds / 86400) ++ " days")%string).
Proof.
  unfold formatDuration.
  repeat split; intros H; rewrite Z.rem_mod_nonneg by lia.
  - rewrite (Z.div_small seconds 86400), (Z.mod_small seconds 86400) by lia.
    rewrite (Z.div_small seconds 3600) by lia. reflexivity.
  - rewrite (Z.div_small seconds 86400), (Z.mod_small seconds 86400) by lia.
    assert (E : seconds / 3600 = 1)
      by (symmetry; apply (Z.div_unique seconds 3600 1 (seconds - 3600)); lia).
    rewrite E. reflexivity.
  - rewrite (Z.div_small seconds 86400), (Z.mod_small seconds 86400) by lia.
    assert (E : 2 <= seconds / 3600) by (apply Z.div_le_lower_bound; lia).
    simpl (0 <? 0). cbv iota.
    destruct (Z.eqb_spec (seconds / 3600) 1); [lia|reflexivity].
  - assert (E : seconds / 86400 = 1)
      by (symmetry;
          apply (Z.div_unique seconds 86400 1 (seconds - 86400)); lia).
    rewrite E. reflexivity.
  - assert (E : 2 <= seconds / 86400) by (apply Z.div_le_lower_bound; lia).
    destruct (Z.ltb_spec 0 (seconds / 86400)); [|lia].
    destruct (Z.eqb_spec (seconds / 86400) 1); [lia|reflexivity].
Qed.

Lemma duration_in_days_or_hours_witness :
  formatDuration 604800 = "7 days"%string
  /\ formatDuration 90000 = "1 day"%string.
Proof.
  destruct (duration_in_days_or_hours 604800) as (_ & _ & _ & _ & H7).
  destruct (duration_in_days_or_hours 90000) as (_ & _ & _ & H1 & _).
  split; [rewrite H7 by lia; reflexivity|apply H1; lia].
Defined.

End QuestConfigFacts.
